(** * Short Weierstrass curve arithmetic of [src/ec_ws.c]

    A shallow embedding of the elliptic-curve engine (curves
    y^2 = x^3 - 3x + b over a prime field) and the properties stated for
    it.  Field elements are the integers held by the word arrays, in
    Montgomery form; C functions that write through output pointers
    return the written values; functions that allocate thread an
    allocator oracle. *)

From Stdlib Require Import ZArith List Lia Bool Zdiv.
From Stdlib Require Import Strings.Byte.
From Stdlib Require Import Zmod.
Import ListNotations.
Open Scope Z_scope.

(** ** Error codes *)

(** Modelled from the spec: the error codes of [errors.h], which is not
    part of the sources, are the error kinds of §6.3; [OK] is the return
    value 0. *)
Inductive retcode : Type :=
| OK
| ERR_NULL
| ERR_MEMORY
| ERR_NOT_ENOUGH_DATA
| ERR_VALUE
| ERR_EC_POINT
| ERR_EC_CURVE.

Definition retcode_eqb (a b : retcode) : bool :=
  match a, b with
  | OK, OK | ERR_NULL, ERR_NULL | ERR_MEMORY, ERR_MEMORY
  | ERR_NOT_ENOUGH_DATA, ERR_NOT_ENOUGH_DATA | ERR_VALUE, ERR_VALUE
  | ERR_EC_POINT, ERR_EC_POINT | ERR_EC_CURVE, ERR_EC_CURVE => true
  | _, _ => false
  end.

(** ** The allocator

    Every [calloc] of the source may return NULL.  A [heap] lists the
    outcome of the allocation requests still to come ([true]: served);
    once the list is exhausted every request is served. *)
Definition heap : Type := list bool.

Definition calloc (h : heap) : bool * heap :=
  match h with
  | [] => (true, [])
  | served :: h' => (served, h')
  end.

(** A heap that serves every request. *)
Definition never_fails (h : heap) : bool := forallb (fun served => served) h.

(** ** Montgomery arithmetic (external collaborator) *)

(** Modelled from the spec: the tag of [mont.h] "identifying known
    moduli (e.g. ModulusP256)" (§3). *)
Inductive ModulusType : Type :=
| ModulusGeneric
| ModulusP256
| ModulusP384
| ModulusP521.

Definition ModulusType_eqb (a b : ModulusType) : bool :=
  match a, b with
  | ModulusGeneric, ModulusGeneric | ModulusP256, ModulusP256
  | ModulusP384, ModulusP384 | ModulusP521, ModulusP521 => true
  | _, _ => false
  end.

(** Modelled from the spec: the Montgomery context of [mont.h], which is
    not part of the sources: "number of bytes and words for p" and the
    modulus tag (§3). *)
Record MontContext : Type := mkMontContext {
  modulus_type : ModulusType;
  words : nat;       (* number of 64-bit words of a field element *)
  bytes : nat;       (* number of bytes of a field element *)
  modulus : Z
}.

(** The Montgomery radix R = 2^(64 * words). *)
Definition mont_R (ctx : MontContext) : Z := 2 ^ (64 * Z.of_nat (words ctx)).

(** [x * y * c mod p]: the product of the field when [c = 1], the
    Montgomery product when [c] is the inverse of R. *)
Definition mulc (p c x y : Z) : Z := (x * y * c) mod p.

(** Square-and-multiply exponentiation modulo [p]. *)
Definition powm (p a : Z) (e : positive) : Z := Pos.iter_op (mulc p 1) e a.

(** The inverse of R modulo the (prime) modulus, by Fermat's little
    theorem. *)
Definition mont_Rinv (ctx : MontContext) : Z :=
  powm (modulus ctx) (mont_R ctx mod modulus ctx) (Z.to_pos (modulus ctx - 2)).

(** The operations of the Montgomery context ([mont.h] is not part of
    the sources): §3 has it provide "add, sub, mul, inv (Fermat's
    little-theorem inverse), equality, is-zero, is-one,
    set-small-constant" on integers of [0, p) held in Montgomery form, a
    residue [a] being kept as [a * R mod p]. *)

(** Modelled from the spec: "add" of the Montgomery context (§3). *)
Definition mont_add (a b : Z) (ctx : MontContext) : Z := (a + b) mod modulus ctx.

(** Modelled from the spec: "sub" of the Montgomery context (§3). *)
Definition mont_sub (a b : Z) (ctx : MontContext) : Z := (a - b) mod modulus ctx.

(** Modelled from the spec: "mul" of the Montgomery context (§3), the
    product of two numbers in Montgomery form, in Montgomery form. *)
Definition mont_mult (a b : Z) (ctx : MontContext) : Z :=
  mulc (modulus ctx) (mont_Rinv ctx) a b.

(** Modelled from the spec: "set-small-constant" of the Montgomery
    context (§3): the Montgomery form of [v]. *)
Definition mont_set (v : Z) (ctx : MontContext) : Z := (v * mont_R ctx) mod modulus ctx.

(** Modelled from the spec: the copy of a field element. *)
Definition mont_copy (a : Z) (ctx : MontContext) : Z := a.

(** Modelled from the spec: "is-zero" of the Montgomery context (§3). *)
Definition mont_is_zero (a : Z) (ctx : MontContext) : bool := a =? 0.

(** Modelled from the spec: "is-one" of the Montgomery context (§3). *)
Definition mont_is_one (a : Z) (ctx : MontContext) : bool := a =? mont_set 1 ctx.

(** Modelled from the spec: "equality" of the Montgomery context (§3). *)
Definition mont_is_equal (a b : Z) (ctx : MontContext) : bool := a =? b.

(** Modelled from the spec: "inv (Fermat's little-theorem inverse)" of
    the Montgomery context (§3): the power p - 2 for the Montgomery
    product, by square and multiply. *)
Definition mont_inv_prime (a : Z) (ctx : MontContext) : Z :=
  Pos.iter_op (fun u v => mont_mult u v ctx) (Z.to_pos (modulus ctx - 2)) a.

(** Modelled from the spec: "number of bytes ... for p" (§3). *)
Definition mont_bytes (ctx : MontContext) : nat := bytes ctx.

(** The residue a Montgomery number stands for. *)
Definition from_mont (a : Z) (ctx : MontContext) : Z :=
  (a * mont_Rinv ctx) mod modulus ctx.

(** ** Curve formulae

    The scratch [Workplace] of the source holds no value across calls:
    its slots become let-bindings.  Each routine copies its projective
    inputs into the workplace before it writes an output, so it may be
    called with outputs aliasing inputs, and is a function of the input
    values. *)

(** Convert projective coordinates of an EC point to affine. *)
Definition ec_projective_to_affine (x1 y1 z1 : Z) (ctx : MontContext) : Z * Z :=
  if mont_is_zero z1 ctx then
    (mont_set 0 ctx, mont_set 0 ctx)
  else
    let a := mont_inv_prime z1 ctx in
    let x3 := mont_mult x1 a ctx in     (* X/Z *)
    let y3 := mont_mult y1 a ctx in     (* Y/Z *)
    (x3, y3).

(** Double an EC point (algorithm 6 of Renes et al.). *)
Definition ec_full_double (x1 y1 z1 b : Z) (ctx : MontContext) : Z * Z * Z :=
  let x := x1 in
  let y := y1 in
  let z := z1 in
  let t0 := mont_mult x x ctx in      (* 1 *)
  let t1 := mont_mult y y ctx in
  let t2 := mont_mult z z ctx in
  let t3 := mont_mult x y ctx in      (* 4 *)
  let t3 := mont_add t3 t3 ctx in
  let z3 := mont_mult x z ctx in
  let z3 := mont_add z3 z3 ctx in     (* 7 *)
  let y3 := mont_mult b t2 ctx in
  let y3 := mont_sub y3 z3 ctx in
  let x3 := mont_add y3 y3 ctx in     (* 10 *)
  let y3 := mont_add x3 y3 ctx in
  let x3 := mont_sub t1 y3 ctx in
  let y3 := mont_add t1 y3 ctx in     (* 13 *)
  let y3 := mont_mult x3 y3 ctx in
  let x3 := mont_mult x3 t3 ctx in
  let t3 := mont_add t2 t2 ctx in     (* 16 *)
  let t2 := mont_add t2 t3 ctx in
  let z3 := mont_mult b z3 ctx in
  let z3 := mont_sub z3 t2 ctx in     (* 19 *)
  let z3 := mont_sub z3 t0 ctx in
  let t3 := mont_add z3 z3 ctx in
  let z3 := mont_add z3 t3 ctx in     (* 22 *)
  let t3 := mont_add t0 t0 ctx in
  let t0 := mont_add t3 t0 ctx in
  let t0 := mont_sub t0 t2 ctx in     (* 25 *)
  let t0 := mont_mult t0 z3 ctx in
  let y3 := mont_add y3 t0 ctx in
  let t0 := mont_mult y z ctx in      (* 28 *)
  let t0 := mont_add t0 t0 ctx in
  let z3 := mont_mult t0 z3 ctx in
  let x3 := mont_sub x3 z3 ctx in     (* 31 *)
  let z3 := mont_mult t0 t1 ctx in
  let z3 := mont_add z3 z3 ctx in
  let z3 := mont_add z3 z3 ctx in     (* 34 *)
  (x3, y3, z3).

(** The steps of [ec_mix_add] after its guard (algorithm 5 of Renes et
    al.). *)
Definition ec_mix_add_alg5 (x13 y13 z13 x2 y2 b : Z) (ctx : MontContext)
  : Z * Z * Z :=
  let x1 := x13 in
  let y1 := y13 in
  let z1 := z13 in
  let t0 := mont_mult x1 x2 ctx in    (* 1 *)
  let t1 := mont_mult y1 y2 ctx in
  let t3 := mont_add x2 y2 ctx in
  let t4 := mont_add x1 y1 ctx in     (* 4 *)
  let t3 := mont_mult t3 t4 ctx in
  let t4 := mont_add t0 t1 ctx in
  let t3 := mont_sub t3 t4 ctx in     (* 7 *)
  let t4 := mont_mult y2 z1 ctx in
  let t4 := mont_add t4 y1 ctx in
  let y3 := mont_mult x2 z1 ctx in    (* 10 *)
  let y3 := mont_add y3 x1 ctx in
  let z3 := mont_mult b z1 ctx in
  let x3 := mont_sub y3 z3 ctx in     (* 13 *)
  let z3 := mont_add x3 x3 ctx in
  let x3 := mont_add x3 z3 ctx in
  let z3 := mont_sub t1 x3 ctx in     (* 16 *)
  let x3 := mont_add t1 x3 ctx in
  let y3 := mont_mult b y3 ctx in
  let t1 := mont_add z1 z1 ctx in     (* 19 *)
  let t2 := mont_add t1 z1 ctx in
  let y3 := mont_sub y3 t2 ctx in
  let y3 := mont_sub y3 t0 ctx in     (* 22 *)
  let t1 := mont_add y3 y3 ctx in
  let y3 := mont_add t1 y3 ctx in
  let t1 := mont_add t0 t0 ctx in     (* 25 *)
  let t0 := mont_add t1 t0 ctx in
  let t0 := mont_sub t0 t2 ctx in
  let t1 := mont_mult t4 y3 ctx in    (* 28 *)
  let t2 := mont_mult t0 y3 ctx in
  let y3 := mont_mult x3 z3 ctx in
  let y3 := mont_add y3 t2 ctx in     (* 31 *)
  let x3 := mont_mult t3 x3 ctx in
  let x3 := mont_sub x3 t1 ctx in
  let z3 := mont_mult t4 z3 ctx in    (* 34 *)
  let t1 := mont_mult t3 t0 ctx in
  let z3 := mont_add z3 t1 ctx in
  (x3, y3, z3).

(** Add a projective and an affine point.  The affine operand is read
    in place; no caller passes it aliased with an output. *)
Definition ec_mix_add (x13 y13 z13 x2 y2 b : Z) (ctx : MontContext) : Z * Z * Z :=
  if mont_is_zero x2 ctx && mont_is_zero y2 ctx then
    (mont_copy x13 ctx, mont_copy y13 ctx, mont_copy z13 ctx)
  else
    ec_mix_add_alg5 x13 y13 z13 x2 y2 b ctx.

(** Add two projective points (algorithm 4 of Renes et al.). *)
Definition ec_full_add (x13 y13 z13 x12 y12 z12 b : Z) (ctx : MontContext)
  : Z * Z * Z :=
  let x1 := x13 in
  let y1 := y13 in
  let z1 := z13 in
  let x2 := x12 in
  let y2 := y12 in
  let z2 := z12 in
  let t0 := mont_mult x1 x2 ctx in    (* 1 *)
  let t1 := mont_mult y1 y2 ctx in
  let t2 := mont_mult z1 z2 ctx in
  let t3 := mont_add x1 y1 ctx in     (* 4 *)
  let t4 := mont_add x2 y2 ctx in
  let t3 := mont_mult t3 t4 ctx in
  let t4 := mont_add t0 t1 ctx in     (* 7 *)
  let t3 := mont_sub t3 t4 ctx in
  let t4 := mont_add y1 z1 ctx in
  let x3 := mont_add y2 z2 ctx in     (* 10 *)
  let t4 := mont_mult t4 x3 ctx in
  let x3 := mont_add t1 t2 ctx in
  let t4 := mont_sub t4 x3 ctx in     (* 13 *)
  let x3 := mont_add x1 z1 ctx in
  let y3 := mont_add x2 z2 ctx in
  let x3 := mont_mult x3 y3 ctx in    (* 16 *)
  let y3 := mont_add t0 t2 ctx in
  let y3 := mont_sub x3 y3 ctx in
  let z3 := mont_mult b t2 ctx in     (* 19 *)
  let x3 := mont_sub y3 z3 ctx in
  let z3 := mont_add x3 x3 ctx in
  let x3 := mont_add x3 z3 ctx in     (* 22 *)
  let z3 := mont_sub t1 x3 ctx in
  let x3 := mont_add t1 x3 ctx in
  let y3 := mont_mult b y3 ctx in     (* 25 *)
  let t1 := mont_add t2 t2 ctx in
  let t2 := mont_add t1 t2 ctx in
  let y3 := mont_sub y3 t2 ctx in     (* 28 *)
  let y3 := mont_sub y3 t0 ctx in
  let t1 := mont_add y3 y3 ctx in
  let y3 := mont_add t1 y3 ctx in     (* 31 *)
  let t1 := mont_add t0 t0 ctx in
  let t0 := mont_add t1 t0 ctx in
  let t0 := mont_sub t0 t2 ctx in     (* 34 *)
  let t1 := mont_mult t4 y3 ctx in
  let t2 := mont_mult t0 y3 ctx in
  let y3 := mont_mult x3 z3 ctx in    (* 37 *)
  let y3 := mont_add y3 t2 ctx in
  let x3 := mont_mult t3 x3 ctx in
  let x3 := mont_sub x3 t1 ctx in     (* 40 *)
  let z3 := mont_mult t4 z3 ctx in
  let t1 := mont_mult t3 t0 ctx in
  let z3 := mont_add z3 t1 ctx in     (* 43 *)
  (x3, y3, z3).

(** The projective curve equation Y^2 Z = X^3 - 3 X Z^2 + b Z^3, on
    Montgomery numbers. *)
Definition on_curve (x1 y1 z1 b : Z) (ctx : MontContext) : bool :=
  let yy := mont_mult y1 y1 ctx in
  let lhs := mont_mult yy z1 ctx in
  let zz := mont_mult z1 z1 ctx in
  let xx := mont_mult x1 x1 ctx in
  let c := mont_mult xx x1 ctx in
  let xzz := mont_mult x1 zz ctx in
  let c := mont_sub c xzz ctx in
  let c := mont_sub c xzz ctx in
  let c := mont_sub c xzz ctx in
  let bzzz := mont_mult b (mont_mult zz z1 ctx) ctx in
  let c := mont_add c bzzz ctx in
  mont_is_equal lhs c ctx.

(** ** Buffers and pointers

    A byte buffer argument is the list of the bytes it holds; the C
    functions receive its length separately and read that many bytes.
    A pointer argument that may be NULL is an [option]. *)

Definition byte_to_Z (c : byte) : Z := Z.of_N (Byte.to_N c).

Definition byte_of_Z (v : Z) : byte :=
  match Byte.of_N (Z.to_N (v mod 256)) with
  | Some c => c
  | None => x00
  end.

(** Big-endian decoding and encoding (§6.2). *)
Definition bytes_to_Z (l : list byte) : Z :=
  fold_left (fun acc c => acc * 256 + byte_to_Z c) l 0.

Fixpoint Z_to_bytes (len : nat) (v : Z) : list byte :=
  match len with
  | O => []
  | S len' => Z_to_bytes len' (v / 256) ++ [byte_of_Z v]
  end.

(** Arrays of 64-bit words, least significant word first. *)
Definition words_to_Z (l : list Z) : Z :=
  fold_right (fun w acc => w + 2 ^ 64 * acc) 0 l.

Fixpoint Z_to_words (n : nat) (v : Z) : list Z :=
  match n with
  | O => []
  | S n' => v mod 2 ^ 64 :: Z_to_words n' (v / 2 ^ 64)
  end.

(** Modelled from the spec: the byte/word (de)serialization utilities of
    [endianess.h] are not part of the sources ("Big-integer byte<->word
    (de)serialization utilities", §1); they convert between a big-endian
    byte string and a word array of a given size. *)
Definition bytes_to_words (nwords : nat) (input : list byte) (len : nat) : list Z :=
  Z_to_words nwords (bytes_to_Z (firstn len input)).

Definition words_to_bytes (len : nat) (w : list Z) (nwords : nat) : list byte :=
  Z_to_bytes len (words_to_Z (firstn nwords w)).

(** Modelled from the spec: [addmul128] of [multiply.h] is not part of
    the sources; §4.G has the blinding "compute k' = k + R * n": the
    vector [t] receives [t + a * (b0 + 2^64 * b1)], [a] being [nw] words
    long, within the words [t] has. *)
Definition addmul128 (t a : list Z) (b0 b1 : Z) (nw : nat) : list Z :=
  Z_to_words (length t) (words_to_Z t + words_to_Z (firstn nw a) * (b0 + 2 ^ 64 * b1)).

(** What a call leaves in a freshly allocated output handle. *)
Inductive handle (A : Type) : Type :=
| Untouched             (* the call returned before writing the handle *)
| Null                  (* the handle was set to NULL *)
| Dangling              (* the handle points to memory the call has freed *)
| Live (a : A).
Arguments Untouched {A}.
Arguments Null {A}.
Arguments Dangling {A}.
Arguments Live {A} a.

(** A call either returns, or has undefined behaviour: it reads through
    a NULL pointer, frees a pointer that was never set, or writes past
    the end of a buffer. *)
Inductive outcome (A : Type) : Type :=
| Returns (a : A)
| Undefined.
Arguments Returns {A} a.
Arguments Undefined {A}.

(** ** Allocation threading *)

Definition M (A : Type) : Type := heap -> A * heap.
Definition ret {A : Type} (a : A) : M A := fun h => (a, h).
Definition bind {A B : Type} (m : M A) (f : A -> M B) : M B :=
  fun h => let (a, h') := m h in f a h'.

Notation "x <- m ;; k" := (bind m (fun x => k))
  (at level 61, m at next level, right associativity).
Notation "' pat <- m ;; k" := (bind m (fun x => match x with pat => k end))
  (at level 61, pat pattern, m at next level, right associativity).

(** [if (res) goto cleanup]. *)
Definition is_err (res : retcode) : bool := negb (retcode_eqb res OK).

(** [n] successive allocations, up to the first one that fails. *)
Fixpoint callocs (n : nat) : M bool :=
  match n with
  | O => ret true
  | S n' => p <- calloc ;; if p then callocs n' else ret false
  end.

(** Modelled from the spec: "element constructors" of the Montgomery
    context (§3), failing only on allocation failure. *)
Definition mont_number (count : nat) (ctx : MontContext) : M retcode :=
  p <- calloc ;; ret (if p then OK else ERR_MEMORY).

(** Modelled from the spec: [mont_from_bytes] "converts (x, y) to
    Montgomery form" (§4.H); it allocates the number it returns. *)
Definition mont_from_bytes (number : list byte) (len : nat) (ctx : MontContext)
  : M (retcode * Z) :=
  p <- calloc ;;
  ret (if p then (OK, mont_set (bytes_to_Z (firstn len number)) ctx)
       else (ERR_MEMORY, 0)).

(** Modelled from the spec: [mont_to_bytes] exports the "canonical
    bytes of length ctx.bytes" (§4.H, §6.2) of a Montgomery number. *)
Definition mont_to_bytes (a : Z) (ctx : MontContext) : M (retcode * list byte) :=
  p <- calloc ;;
  ret (if p then (OK, Z_to_bytes (mont_bytes ctx) (from_mont a ctx))
       else (ERR_MEMORY, [])).

(** The prime of NIST P-256. *)
Definition p256_modulus : Z := 2 ^ 256 - 2 ^ 224 + 2 ^ 192 + 2 ^ 96 - 1.

(** Modelled from the spec: [mont_context_init] "builds Montgomery
    context from p" (§4.H) and tags the known moduli (§3, §9). *)
Definition mont_context_init (modulus : list byte) (len : nat)
  : M (retcode * option MontContext) :=
  p <- calloc ;;
  if p then
    let m := bytes_to_Z (firstn len modulus) in
    let nw := ((len + 7) / 8)%nat in
    ret (OK, Some {| modulus_type := if m =? p256_modulus then ModulusP256
                                     else ModulusGeneric;
                     words := nw;
                     bytes := (nw * 8)%nat;
                     modulus := m |})
  else ret (ERR_MEMORY, None).

(** Modelled from the spec: the size of the multiplier's scratchpad
    ([mont.h]); only its allocation matters here. *)
Definition SCRATCHPAD_NR : nat := 7.

(** [if (res) goto cleanup] inside [new_workplace]. *)
Definition or_cleanup (m : M retcode) (k : M bool) : M bool :=
  res <- m ;; if is_err res then ret false else k.

(** The workplace holds scratch numbers only: the model keeps whether
    it could be allocated. *)
Definition new_workplace (ctx : MontContext) : M bool :=
  wp <- calloc ;;
  if negb wp then ret false else
  or_cleanup (mont_number 1 ctx)                (* a *)
  (or_cleanup (mont_number 1 ctx)               (* b *)
  (or_cleanup (mont_number 1 ctx)               (* c *)
  (or_cleanup (mont_number 1 ctx)               (* d *)
  (or_cleanup (mont_number 1 ctx)               (* e *)
  (or_cleanup (mont_number 1 ctx)               (* f *)
  (or_cleanup (mont_number 1 ctx)               (* g *)
  (or_cleanup (mont_number 1 ctx)               (* h *)
  (or_cleanup (mont_number 1 ctx)               (* i *)
  (or_cleanup (mont_number 1 ctx)               (* j *)
  (or_cleanup (mont_number 1 ctx)               (* k *)
  (or_cleanup (mont_number SCRATCHPAD_NR ctx)   (* scratch *)
  (ret true)))))))))))).

(** ** Scattered tables and bit windows (external collaborators) *)

(** Modelled from the spec: the scattered table of [modexp_utils.h] is
    not part of the sources; §4.B: "scatter(records[0..N), record_size,
    seed) -> T builds an opaque table.  gather(out, T, i) writes record
    i into out", failing only on allocation.  The table is the list of
    its records; the seed-dependent layout is not observable. *)
Definition scatter {A : Type} (arrays : list A) (nr : nat) (size : nat) (seed : Z)
  : M (retcode * list A) :=
  p <- calloc ;;
  ret (if p then (OK, firstn nr arrays) else (ERR_MEMORY, [])).

Definition gather {A : Type} (dflt : A) (prot : list A) (index : nat) : A :=
  nth index prot dflt.

(** The bits of a byte string, most significant first. *)
Definition byte_bits (c : byte) : list bool :=
  map (fun i => N.testbit (Byte.to_N c) i) [7; 6; 5; 4; 3; 2; 1; 0]%N.

Definition bytes_bits (l : list byte) : list bool := flat_map byte_bits l.

(** The number spelled by bits given most significant first. *)
Definition bits_to_nat (l : list bool) : nat :=
  fold_left (fun acc (bit : bool) => (2 * acc + if bit then 1 else 0)%nat) l 0%nat.

(** Modelled from the spec: the bit-window iterators of
    [modexp_utils.h] are not part of the sources.  §4.C, LR: "from the
    top, windows of w bits are emitted.  The first window may be short
    (1...w bits) to cover a non-multiple bit length."  [tg] is the width
    of the next window, [pending] the bits not yet consumed. *)
Record BitWindow_LR : Type := mkBitWindow_LR {
  lr_window_size : nat;
  lr_nr_windows : nat;
  lr_tg : nat;
  lr_pending : list bool
}.

Definition init_bit_window_lr (window_size : nat) (exp : list byte) : BitWindow_LR :=
  let nbits := (8 * length exp)%nat in
  {| lr_window_size := window_size;
     lr_nr_windows := ((nbits + window_size - 1) / window_size)%nat;
     lr_tg := if (nbits mod window_size =? 0)%nat then window_size
              else (nbits mod window_size)%nat;
     lr_pending := bytes_bits exp |}.

Definition get_next_digit_lr (bw : BitWindow_LR) : nat * BitWindow_LR :=
  (bits_to_nat (firstn (lr_tg bw) (lr_pending bw)),
   {| lr_window_size := lr_window_size bw;
      lr_nr_windows := lr_nr_windows bw;
      lr_tg := lr_window_size bw;
      lr_pending := skipn (lr_tg bw) (lr_pending bw) |}).

(** Modelled from the spec, §4.C, RL: "consumes the scalar from the
    least significant bit; emits ceil(bitlen/w) windows."  [pending]
    holds the bits not yet consumed, least significant first. *)
Record BitWindow_RL : Type := mkBitWindow_RL {
  rl_window_size : nat;
  rl_nr_windows : nat;
  rl_pending : list bool
}.

Definition init_bit_window_rl (window_size : nat) (exp : list byte) : BitWindow_RL :=
  let nbits := (8 * length exp)%nat in
  {| rl_window_size := window_size;
     rl_nr_windows := ((nbits + window_size - 1) / window_size)%nat;
     rl_pending := rev (bytes_bits exp) |}.

Definition get_next_digit_rl (bw : BitWindow_RL) : nat * BitWindow_RL :=
  (bits_to_nat (rev (firstn (rl_window_size bw) (rl_pending bw))),
   {| rl_window_size := rl_window_size bw;
      rl_nr_windows := rl_nr_windows bw;
      rl_pending := skipn (rl_window_size bw) (rl_pending bw) |}).

(** [for (; exp_size && *exp==0; exp++, exp_size--);] *)
Fixpoint skip_leading_zeroes (exp : list byte) : list byte :=
  match exp with
  | [] => []
  | c :: exp' => if Byte.eqb c x00 then skip_leading_zeroes exp' else exp
  end.

(** ** EC contexts and points *)

(** Modelled from the spec: the static comb table of [p256_table.c] is
    not part of the sources; §4.F: "[p256_n_tables] subtables, each
    containing [p256_points_per_table] affine points", for windows of
    [p256_window_size] bits.  The table is a parameter of the routines
    that use it. *)
Record P256Table : Type := mkP256Table {
  p256_window_size : nat;
  p256_n_tables : nat;
  p256_points_per_table : nat;
  p256_tables : list (list (Z * Z))
}.

(** Modelled from the spec: the EC context of [ec.h], which is not part
    of the sources, "holds: Montgomery context; the curve parameter b
    (Montgomery form); the group order n (as word array ...);
    optionally a precomputed, scattered generator comb table" (§3). *)
Record EcContext : Type := mkEcContext {
  mont_ctx : MontContext;
  b : Z;                                  (* curve parameter, Montgomery form *)
  order : list Z;                         (* group order, 64-bit words *)
  prot_g : option (list (list (Z * Z)))   (* scattered generator tables *)
}.

(** A pointer to an EC context: contexts are immutable once built, so a
    pointer is the address together with the context it points to;
    pointers compare by address. *)
Record EcContext_ptr : Type := mkEcContext_ptr {
  addr : nat;
  target : EcContext
}.

Definition same_ctx (c1 c2 : EcContext_ptr) : bool := (addr c1 =? addr c2)%nat.

(** Modelled from the spec: the EC point of [ec.h] "owns its (X, Y, Z)
    storage; holds a non-owning reference to its EC Context" (§3). *)
Record EcPoint : Type := mkEcPoint {
  ec_ctx : EcContext_ptr;
  x : Z;
  y : Z;
  z : Z
}.

(** [#define WINDOW_SIZE_BITS 4] and
    [#define WINDOW_SIZE_ITEMS (1<<WINDOW_SIZE_BITS)]. *)
Definition WINDOW_SIZE_BITS : nat := 4.
Definition WINDOW_SIZE_ITEMS : nat := 2 ^ WINDOW_SIZE_BITS.

(** The entries [i .. WINDOW_SIZE_ITEMS-1] of the window, [prev] being
    entry [i-1]:
    [for (i=2; i<WINDOW_SIZE_ITEMS; i++) window[i] = window[i-1] + P]. *)
Fixpoint window_from (n : nat) (prev : Z * Z * Z) (z1_is_one : bool)
  (x1 y1 z1 b : Z) (ctx : MontContext) : list (Z * Z * Z) :=
  match n with
  | O => []
  | S n' =>
      let '(xp, yp, zp) := prev in
      let w := if z1_is_one
               then ec_mix_add xp yp zp x1 y1 b ctx
               else ec_full_add xp yp zp x1 y1 z1 b ctx in
      w :: window_from n' w z1_is_one x1 y1 z1 b ctx
  end.

(** [for (j=0; j<WINDOW_SIZE_BITS; j++) ec_full_double(x3, y3, z3, ...)]. *)
Fixpoint double_times (j : nat) (acc : Z * Z * Z) (b : Z) (ctx : MontContext)
  : Z * Z * Z :=
  match j with
  | O => acc
  | S j' =>
      let '(x3, y3, z3) := acc in
      double_times j' (ec_full_double x3 y3 z3 b ctx) b ctx
  end.

(** The main loop of [ec_scalar], [n] windows to go. *)
Fixpoint ec_scalar_loop (n : nat) (bw : BitWindow_LR)
  (prot_x prot_y prot_z : list Z) (acc : Z * Z * Z) (b : Z) (ctx : MontContext)
  : Z * Z * Z :=
  match n with
  | O => acc
  | S n' =>
      let (index, bw) := get_next_digit_lr bw in
      let xw := gather 0 prot_x index in
      let yw := gather 0 prot_y index in
      let zw := gather 0 prot_z index in
      let '(x3, y3, z3) := double_times WINDOW_SIZE_BITS acc b ctx in
      let acc := ec_full_add x3 y3 z3 xw yw zw b ctx in
      ec_scalar_loop n' bw prot_x prot_y prot_z acc b ctx
  end.

(** Compute the scalar multiplication of an EC point.  The outputs
    [x3, y3, z3] (which alias the inputs when called from
    [ec_ws_scalar]) are written only after the window has been built
    from the inputs: the result is [None] when they were left alone.

    When [xw], [yw] or [zw] cannot be allocated the function jumps to
    [cleanup] before the arrays [window_x], [window_y], [window_z] have
    been cleared by [memset], and [cleanup] frees their 48 uninitialised
    pointers: undefined behaviour.  A refusal after the [memset] frees
    NULL pointers only and returns ERR_MEMORY. *)
Definition ec_scalar (x1 y1 z1 b : Z) (exp : list byte) (seed : Z)
  (ctx : MontContext) : M (outcome (retcode * option (Z * Z * Z))) :=
  let z1_is_one := mont_is_one z1 ctx in
  xyz <- callocs 3 ;;                               (* xw, yw, zw *)
  if negb xyz then ret Undefined else               (* free(window_x[i]), never set *)
  (* memset(window_x, 0, ...), memset(window_y, ...), memset(window_z, ...) *)
  win <- callocs (3 * WINDOW_SIZE_ITEMS) ;;         (* window_x/y/z[i] *)
  if negb win then ret (Returns (ERR_MEMORY, None)) else
  let w0 := (mont_set 0 ctx, mont_set 1 ctx, mont_set 0 ctx) in
  let w1 := (mont_copy x1 ctx, mont_copy y1 ctx, mont_copy z1 ctx) in
  let window :=
    w0 :: w1 :: window_from (WINDOW_SIZE_ITEMS - 2) w1 z1_is_one x1 y1 z1 b ctx in
  let window_x := map (fun w => fst (fst w)) window in
  let window_y := map (fun w => snd (fst w)) window in
  let window_z := map (fun w => snd w) window in
  '(res, prot_x) <- scatter window_x WINDOW_SIZE_ITEMS (mont_bytes ctx) seed ;;
  if is_err res then ret (Returns (res, None)) else
  '(res, prot_y) <- scatter window_y WINDOW_SIZE_ITEMS (mont_bytes ctx) seed ;;
  if is_err res then ret (Returns (res, None)) else
  '(res, prot_z) <- scatter window_z WINDOW_SIZE_ITEMS (mont_bytes ctx) seed ;;
  if is_err res then ret (Returns (res, None)) else
  (* Start from PAI *)
  let acc := (mont_set 0 ctx, mont_set 1 ctx, mont_set 0 ctx) in
  (* Find first non-zero byte in exponent *)
  let exp := skip_leading_zeroes exp in
  let bw := init_bit_window_lr WINDOW_SIZE_BITS exp in
  ret (Returns (OK, Some (ec_scalar_loop (lr_nr_windows bw) bw prot_x prot_y prot_z
                                         acc b ctx))).

(** Fill the pre-computed table for the generator point in the P-256
    EC context. *)
Fixpoint scramble_tables (tbl : P256Table) (tables : list (list (Z * Z)))
  (ctx : MontContext) (seed : Z) : M (retcode * list (list (Z * Z))) :=
  match tables with
  | [] => ret (OK, [])
  | t :: tables' =>
      '(res, prot) <- scatter t (p256_points_per_table tbl mod 256) (2 * mont_bytes ctx) seed ;;
      if is_err res then ret (res, [])
      else
        '(res, rest) <- scramble_tables tbl tables' ctx seed ;;
        ret (res, prot :: rest)
  end.

Definition ec_scramble_g_p256 (tbl : P256Table) (ctx : MontContext) (seed : Z)
  : M (option (list (list (Z * Z)))) :=
  tables_ptrs <- calloc ;;
  if negb tables_ptrs then ret None else
  prot_g <- calloc ;;
  if negb prot_g then ret None else
  '(res, g) <- scramble_tables tbl (firstn (p256_n_tables tbl) (p256_tables tbl)) ctx seed ;;
  if is_err res then ret None else ret (Some g).

(** The main loop of [ec_scalar_g_p256]: window [i] adds an entry of
    subtable [i]. *)
Fixpoint ec_scalar_g_p256_loop (n i : nat) (bw : BitWindow_RL)
  (prot_g : list (list (Z * Z))) (acc : Z * Z * Z) (b : Z) (ctx : MontContext)
  : Z * Z * Z :=
  match n with
  | O => acc
  | S n' =>
      let (index, bw) := get_next_digit_rl bw in
      let '(xw, yw) := gather (0, 0) (nth i prot_g []) index in
      let '(x3, y3, z3) := acc in
      let acc := ec_mix_add x3 y3 z3 xw yw b ctx in
      ec_scalar_g_p256_loop n' (S i) bw prot_g acc b ctx
  end.

(** Scalar multiplication of the P-256 generator.  The outputs are
    written on every path. *)
Definition ec_scalar_g_p256 (tbl : P256Table) (b : Z) (exp : list byte) (seed : Z)
  (prot_g : list (list (Z * Z))) (ctx : MontContext) : retcode * (Z * Z * Z) :=
  (* Start from PAI *)
  let acc := (mont_set 0 ctx, mont_set 1 ctx, mont_set 0 ctx) in
  (* Find first non-zero byte in exponent *)
  let exp := skip_leading_zeroes exp in
  let bw := init_bit_window_rl (p256_window_size tbl) exp in
  if (p256_n_tables tbl <? rl_nr_windows bw)%nat then (ERR_VALUE, acc)
  else (OK, ec_scalar_g_p256_loop (rl_nr_windows bw) 0 bw prot_g acc b ctx).

(** Create an Elliptic Curve context for Weierstrass curves
    y^2 = x^3 + ax + b with a = -3.  [pec_ctx] tells whether the output
    pointer is non-NULL. *)
Definition ec_ws_new_context (tbl : P256Table) (pec_ctx : bool)
  (modulus b order : option (list byte)) (len : nat) (seed : Z)
  : M (outcome (retcode * handle EcContext)) :=
  match pec_ctx, modulus, b with
  | true, Some modulus, Some b =>
      if (len =? 0)%nat then ret (Returns (ERR_NOT_ENOUGH_DATA, Null)) else
      ec_ctx <- calloc ;;
      if negb ec_ctx then ret (Returns (ERR_MEMORY, Null)) else
      '(res, mctx) <- mont_context_init modulus len ;;
      match mctx with
      | None => ret (Returns (res, Dangling))
      | Some ctx =>
          if is_err res then ret (Returns (res, Dangling)) else
          '(res, b_mont) <- mont_from_bytes b len ctx ;;
          if is_err res then ret (Returns (res, Dangling)) else
          (* order_words = ((unsigned)len+7)/8, on 32 bits *)
          let order_words := Z.to_nat ((Z.of_nat len + 7) mod 2 ^ 32 / 8) in
          order_p <- calloc ;;
          if negb order_p then ret (Returns (ERR_MEMORY, Dangling)) else
          match order with
          | None => ret Undefined       (* bytes_to_words reads through NULL *)
          | Some order =>
              let order_w := bytes_to_words order_words order len in
              if ModulusType_eqb (modulus_type ctx) ModulusP256 then
                g <- ec_scramble_g_p256 tbl ctx seed ;;
                match g with
                | None => ret (Returns (ERR_MEMORY, Dangling))
                | Some g =>
                    ret (Returns (OK, Live {| mont_ctx := ctx; b := b_mont;
                                              order := order_w; prot_g := Some g |}))
                end
              else
                ret (Returns (OK, Live {| mont_ctx := ctx; b := b_mont;
                                          order := order_w; prot_g := None |}))
          end
      end
  | _, _, _ => ret (Returns (ERR_NULL, Untouched))
  end.

(** Create a new EC point on the given EC curve.  [pecp] tells whether
    the output pointer is non-NULL. *)
Definition ec_ws_new_point (pecp : bool) (x y : option (list byte)) (len : nat)
  (ec_ctx : option EcContext_ptr) : M (outcome (retcode * handle EcPoint)) :=
  match pecp, x, y, ec_ctx with
  | true, Some x, Some y, Some ec_ctx =>
      let ctx := mont_ctx (target ec_ctx) in
      if (len =? 0)%nat then ret (Returns (ERR_NOT_ENOUGH_DATA, Untouched)) else
      if (bytes ctx <? len)%nat then ret (Returns (ERR_VALUE, Untouched)) else
      ecp <- calloc ;;
      if negb ecp then ret (Returns (ERR_MEMORY, Null)) else
      '(res, ecp_x) <- mont_from_bytes x len ctx ;;
      if is_err res then ret (Returns (res, Null)) else
      '(res, ecp_y) <- mont_from_bytes y len ctx ;;
      if is_err res then ret (Returns (res, Null)) else
      res <- mont_number 1 ctx ;;
      if is_err res then ret (Returns (res, Null)) else
      let ecp_z := mont_set 1 ctx in
      (* Convert PAI: (0, 0) to (0, 1, 0) *)
      (* Verify the point is on the curve, if not point-at-infinity *)
      if mont_is_zero ecp_x ctx && mont_is_zero ecp_y ctx then
        ret (Returns (OK, Live {| ec_ctx := ec_ctx; x := mont_set 0 ctx;
                                  y := mont_set 1 ctx; z := mont_set 0 ctx |}))
      else
        wp <- new_workplace ctx ;;
        if negb wp then ret Undefined     (* wp->a with wp == NULL *)
        else
          let wp_a := mont_mult ecp_y ecp_y ctx in
          let wp_c := mont_mult ecp_x ecp_x ctx in
          let wp_c := mont_mult wp_c ecp_x ctx in
          let wp_c := mont_sub wp_c ecp_x ctx in
          let wp_c := mont_sub wp_c ecp_x ctx in
          let wp_c := mont_sub wp_c ecp_x ctx in
          let wp_c := mont_add wp_c (b (target ec_ctx)) ctx in
          let res := negb (mont_is_equal wp_a wp_c ctx) in
          if res then ret (Returns (ERR_EC_POINT, Null))
          else ret (Returns (OK, Live {| ec_ctx := ec_ctx; x := ecp_x;
                                         y := ecp_y; z := ecp_z |}))
  | _, _, _, _ => ret (Returns (ERR_NULL, Untouched))
  end.

(** Encode the affine coordinates of an EC point.  [x] and [y] tell
    whether the output buffers are non-NULL; the result holds what was
    written to each. *)
Definition ec_ws_get_xy (x y : bool) (len : nat) (ecp : option EcPoint)
  : M (retcode * option (list byte) * option (list byte)) :=
  match x, y, ecp with
  | true, true, Some (mkEcPoint ecp_ctx ecp_x ecp_y ecp_z) =>
      let ctx := mont_ctx (target ecp_ctx) in
      if negb (len =? mont_bytes ctx)%nat then ret (ERR_VALUE, None, None) else
      wp <- new_workplace ctx ;;
      if negb wp then ret (ERR_MEMORY, None, None) else
      res <- mont_number 1 ctx ;;
      if is_err res then ret (res, None, None) else
      res <- mont_number 1 ctx ;;
      if is_err res then ret (res, None, None) else
      let '(xw, yw) := ec_projective_to_affine ecp_x ecp_y ecp_z ctx in
      '(res, xb) <- mont_to_bytes xw ctx ;;
      if is_err res then ret (res, None, None) else
      '(res, yb) <- mont_to_bytes yw ctx ;;
      if is_err res then ret (res, Some xb, None) else
      ret (OK, Some xb, Some yb)
  | _, _, _ => ret (ERR_NULL, None, None)
  end.

(** Double an EC point.  The result holds the point after the call. *)
Definition ec_ws_double (p : option EcPoint) : M (retcode * option EcPoint) :=
  match p with
  | None => ret (ERR_NULL, None)
  | Some p =>
      let ctx := mont_ctx (target (ec_ctx p)) in
      wp <- new_workplace ctx ;;
      if negb wp then ret (ERR_MEMORY, Some p) else
      let '(x3, y3, z3) :=
        ec_full_double (x p) (y p) (z p) (b (target (ec_ctx p))) ctx in
      ret (OK, Some {| ec_ctx := ec_ctx p; x := x3; y := y3; z := z3 |})
  end.

(** Add an EC point to another.  The result holds the first point
    after the call; when both arguments are the same object, that is the
    second one too. *)
Definition ec_ws_add (ecpa ecpb : option EcPoint) : M (retcode * option EcPoint) :=
  match ecpa, ecpb with
  | Some ecpa, Some ecpb =>
      if negb (same_ctx (ec_ctx ecpa) (ec_ctx ecpb)) then ret (ERR_EC_CURVE, Some ecpa)
      else
      let ctx := mont_ctx (target (ec_ctx ecpa)) in
      wp <- new_workplace ctx ;;
      if negb wp then ret (ERR_MEMORY, Some ecpa) else
      let '(x3, y3, z3) :=
        ec_full_add (x ecpa) (y ecpa) (z ecpa) (x ecpb) (y ecpb) (z ecpb)
                    (b (target (ec_ctx ecpa))) ctx in
      ret (OK, Some {| ec_ctx := ec_ctx ecpa; x := x3; y := y3; z := z3 |})
  | _, _ => ret (ERR_NULL, ecpa)
  end.

(** Normalize the projective representation of a point so that Z=1 or
    Z=0. *)
Definition ec_ws_normalize (ecp : option EcPoint) : M (retcode * option EcPoint) :=
  match ecp with
  | None => ret (ERR_NULL, None)
  | Some ecp =>
      let ctx := mont_ctx (target (ec_ctx ecp)) in
      wp <- new_workplace ctx ;;
      if negb wp then ret (ERR_MEMORY, Some ecp) else
      if negb (mont_is_zero (z ecp) ctx) then
        let '(x3, y3) := ec_projective_to_affine (x ecp) (y ecp) (z ecp) ctx in
        ret (OK, Some {| ec_ctx := ec_ctx ecp; x := x3; y := y3; z := mont_set 1 ctx |})
      else ret (OK, Some ecp)
  end.

Definition ec_ws_is_pai (ecp : option EcPoint) : bool :=
  match ecp with
  | None => false
  | Some ecp => mont_is_zero (z ecp) (mont_ctx (target (ec_ctx ecp)))
  end.

(** Blind the scalar factor to be used in an EC multiplication.  The
    result holds the return code, the blind scalar (when it was
    allocated) and its length in bytes. *)
Definition blind_scalar_factor (scalar : list byte) (scalar_len : nat) (R_seed : Z)
  (order : list Z) (order_words : nat) : M (retcode * option (list byte) * nat) :=
  let scalar_words := ((scalar_len + 7) / 8)%nat in
  let blind_scalar_words := Nat.max (order_words + 2) (scalar_words + 2) in
  let blind_scalar_len := (blind_scalar_words * 8)%nat in
  blind_scalar <- calloc ;;
  if negb blind_scalar then ret (ERR_MEMORY, None, blind_scalar_len) else
  output_u64 <- calloc ;;
  if negb output_u64 then
    ret (ERR_MEMORY, Some (repeat x00 blind_scalar_len), blind_scalar_len)
  else
  let output_u64 := bytes_to_words blind_scalar_words scalar scalar_len in
  let output_u64 := addmul128 output_u64 order R_seed 0 order_words in
  let blind_scalar := words_to_bytes blind_scalar_len output_u64 blind_scalar_words in
  ret (OK, Some blind_scalar, blind_scalar_len).

(** The generator of P-256 in Montgomery form, as in the source. *)
Definition mont_Gx : list Z :=
  [0x79E730D418A9143C; 0x75BA95FC5FEDB601; 0x79FB732B77622510; 0x18905F76A53755C6].
Definition mont_Gy : list Z :=
  [0xDDF25357CE95560A; 0x8B4AB8E4BA19E45C; 0xD2E88688DD21F325; 0x8571FF1825885D85].

(** [for (i=0; i<4; i++) is_generator &= (mont_G[i] == coord[i])], on
    the four low words of the number. *)
Definition words_match (g : list Z) (v : Z) : bool :=
  forallb (fun '(gi, vi) => gi =? vi) (combine g (Z_to_words 4 v)).

(** [is_generator] of [ec_ws_scalar]: the point is the P-256 generator
    with Z = 1. *)
Definition is_generator (ecp : EcPoint) : bool :=
  words_match mont_Gx (x ecp) && words_match mont_Gy (y ecp)
  && mont_is_one (z ecp) (mont_ctx (target (ec_ctx ecp))).

(** The bytes of a word array as they lie in memory, on a
    little-endian host, read back as a number. *)
Definition le_bytes_to_Z (l : list byte) : Z := bytes_to_Z (rev l).

(** Multiply an EC point by a scalar.  [expand_seed] is the
    seed-derivation routine of the random-number module, which is not
    part of the sources ("Randomness/seed derivation", §1): a parameter.
    The result holds the point after the call; the call is undefined
    when [ec_scalar] is. *)
Definition ec_ws_scalar (tbl : P256Table) (expand_seed : Z -> nat -> list byte)
  (ecp : option EcPoint) (k : option (list byte)) (len : nat) (seed : Z)
  : M (outcome (retcode * option EcPoint)) :=
  match ecp, k with
  | Some ecp, Some k =>
      let ctx := mont_ctx (target (ec_ctx ecp)) in
      if (len =? 0)%nat then ret (Returns (ERR_NOT_ENOUGH_DATA, Some ecp)) else
      wp1 <- new_workplace ctx ;;
      if negb wp1 then ret (Returns (ERR_MEMORY, Some ecp)) else
      wp2 <- new_workplace ctx ;;
      if negb wp2 then ret (Returns (ERR_MEMORY, Some ecp)) else
      if ModulusType_eqb (modulus_type ctx) ModulusP256 && is_generator ecp then
        let '(res, (x3, y3, z3)) :=
          ec_scalar_g_p256 tbl (b (target (ec_ctx ecp))) (firstn len k)
                           ((seed + 2) mod 2 ^ 64)
                           (match prot_g (target (ec_ctx ecp)) with
                            | Some g => g
                            | None => []
                            end) ctx in
        ret (Returns (res, Some {| ec_ctx := ec_ctx ecp; x := x3; y := y3; z := z3 |}))
      else if negb (seed =? 0) then
        (* Create the blinding factor for the base point *)
        res <- mont_number 1 ctx ;;
        if is_err res then ret (Returns (res, Some ecp)) else
        let factor := le_bytes_to_Z (expand_seed seed (mont_bytes ctx)) in
        (* Blind the base point *)
        let blinded := {| ec_ctx := ec_ctx ecp;
                          x := mont_mult (x ecp) factor ctx;
                          y := mont_mult (y ecp) factor ctx;
                          z := mont_mult (z ecp) factor ctx |} in
        (* Blind the scalar, by adding R*order where R is at least 32 bits *)
        '(res, blind_scalar, blind_scalar_len) <-
          blind_scalar_factor k len (seed mod 2 ^ 32)
                              (order (target (ec_ctx ecp))) (words ctx) ;;
        if is_err res then ret (Returns (res, Some blinded)) else
        r <-
          ec_scalar (x blinded) (y blinded) (z blinded) (b (target (ec_ctx ecp)))
                    (match blind_scalar with
                     | Some s => firstn blind_scalar_len s
                     | None => []
                     end)
                    ((seed + 1) mod 2 ^ 64) ctx ;;
        match r with
        | Returns (res, Some (x3, y3, z3)) =>
            ret (Returns (res, Some {| ec_ctx := ec_ctx ecp; x := x3; y := y3; z := z3 |}))
        | Returns (res, None) => ret (Returns (res, Some blinded))
        | Undefined => ret Undefined
        end
      else
        (* No blinding *)
        r <-
          ec_scalar (x ecp) (y ecp) (z ecp) (b (target (ec_ctx ecp)))
                    (firstn len k) ((seed + 1) mod 2 ^ 64) ctx ;;
        match r with
        | Returns (res, Some (x3, y3, z3)) =>
            ret (Returns (res, Some {| ec_ctx := ec_ctx ecp; x := x3; y := y3; z := z3 |}))
        | Returns (res, None) => ret (Returns (res, Some ecp))
        | Undefined => ret Undefined
        end
  | _, _ => ret (Returns (ERR_NULL, ecp))
  end.

(** Make a fresh copy of a point.  [pecp2] tells whether the output
    pointer is non-NULL; the result holds the return code and what the
    call left in the output pointer. *)
Definition ec_ws_clone (pecp2 : bool) (ecp : option EcPoint)
  : M (retcode * handle EcPoint) :=
  match pecp2, ecp with
  | true, Some ecp =>
      let ctx := mont_ctx (target (ec_ctx ecp)) in
      ecp2 <- calloc ;;
      if negb ecp2 then ret (ERR_MEMORY, Null) else
      res <- mont_number 1 ctx ;;
      if is_err res then ret (res, Null) else
      let ecp2_x := mont_copy (x ecp) ctx in
      res <- mont_number 1 ctx ;;
      if is_err res then ret (res, Null) else
      let ecp2_y := mont_copy (y ecp) ctx in
      res <- mont_number 1 ctx ;;
      if is_err res then ret (res, Null) else
      let ecp2_z := mont_copy (z ecp) ctx in
      ret (OK, Live {| ec_ctx := ec_ctx ecp; x := ecp2_x; y := ecp2_y; z := ecp2_z |})
  | _, _ => ret (ERR_NULL, Untouched)
  end.

(** [ec_ws_copy]: the result holds the first point after the call.
    The three [mont_copy] run with the context of [ecp2]: each writes
    as many words as that context has into a buffer of [ecp1], which
    [ec_ws_new_point] and [ec_ws_clone] allocated with the words of the
    context of [ecp1].  When the context of [ecp2] has more words, the
    copy writes past the end of the buffers of [ecp1]. *)
Definition ec_ws_copy (ecp1 ecp2 : option EcPoint)
  : outcome (retcode * option EcPoint) :=
  match ecp1, ecp2 with
  | Some ecp1, Some ecp2 =>
      let ctx := mont_ctx (target (ec_ctx ecp2)) in
      if (words (mont_ctx (target (ec_ctx ecp1))) <? words ctx)%nat then Undefined
      else
        Returns (OK, Some {| ec_ctx := ec_ctx ecp2;
                             x := mont_copy (x ecp2) ctx;
                             y := mont_copy (y ecp2) ctx;
                             z := mont_copy (z ecp2) ctx |})
  | _, _ => Returns (ERR_NULL, ecp1)
  end.

(** Compare two EC points and return 0 if they match. *)
Definition ec_ws_cmp (ecp1 ecp2 : option EcPoint) : M retcode :=
  match ecp1, ecp2 with
  | Some ecp1, Some ecp2 =>
      if negb (same_ctx (ec_ctx ecp1) (ec_ctx ecp2)) then ret ERR_EC_CURVE else
      let ctx := mont_ctx (target (ec_ctx ecp1)) in
      let p1_is_pai := mont_is_zero (z ecp1) ctx in
      let p2_is_pai := mont_is_zero (z ecp2) ctx in
      (* Check for point-at-infinity *)
      if p1_is_pai || p2_is_pai then
        ret (if p1_is_pai && p2_is_pai then OK else ERR_VALUE)
      else
      (* Normalize to have the same Z coordinate *)
      wp <- new_workplace ctx ;;
      if negb wp then ret ERR_MEMORY else
      let wp_b := mont_mult (x ecp1) (z ecp2) ctx in    (* B = X1*Z2 *)
      let wp_d := mont_mult (x ecp2) (z ecp1) ctx in    (* D = X2*Z1 *)
      let wp_e := mont_mult (y ecp1) (z ecp2) ctx in    (* E = Y1*Z2 *)
      let wp_f := mont_mult (y ecp2) (z ecp1) ctx in    (* F = Y2*Z1 *)
      ret (if mont_is_equal wp_b wp_d ctx && mont_is_equal wp_e wp_f ctx
           then OK else ERR_VALUE)
  | _, _ => ret ERR_NULL
  end.

(** Replace a point by its opposite: [mont_sub(p->y, ctx->modulus, p->y)].
    The result holds the point after the call. *)
Definition ec_ws_neg (p : option EcPoint) : M (retcode * option EcPoint) :=
  match p with
  | None => ret (ERR_NULL, None)
  | Some p =>
      let ctx := mont_ctx (target (ec_ctx p)) in
      res <- mont_number SCRATCHPAD_NR ctx ;;
      if is_err res then ret (res, Some p) else
      ret (OK, Some {| ec_ctx := ec_ctx p; x := x p;
                       y := mont_sub (modulus ctx) (y p) ctx; z := z p |})
  end.

(** ** Notions the properties are stated with *)

(** A field element as the Montgomery operations expect it (§3: "every
    field element passed to Montgomery ops is < p"). *)
Definition reduced (a : Z) (ctx : MontContext) : bool :=
  (0 <=? a) && (a <? modulus ctx).

(** A projective point: reduced coordinates, not all of them zero. *)
Definition projective (x1 y1 z1 : Z) (ctx : MontContext) : bool :=
  reduced x1 ctx && reduced y1 ctx && reduced z1 ctx
  && negb ((x1 =? 0) && (y1 =? 0) && (z1 =? 0)).

(** A valid point: a projective point on the curve. *)
Definition valid_point (x1 y1 z1 b : Z) (ctx : MontContext) : bool :=
  projective x1 y1 z1 ctx && on_curve x1 y1 z1 b ctx.

(** The affine coordinates of a point, as [ec_ws_normalize] and
    [ec_ws_get_xy] compute them. *)
Definition affine (P : EcPoint) : Z * Z :=
  ec_projective_to_affine (x P) (y P) (z P) (mont_ctx (target (ec_ctx P))).

(** The curve parameter and the Montgomery context of a point. *)
Definition curve_b (P : EcPoint) : Z := b (target (ec_ctx P)).
Definition field_of (P : EcPoint) : MontContext := mont_ctx (target (ec_ctx P)).

(** [ec_ws_scalar] takes the generator fast path. *)
Definition fast_path (P : EcPoint) : bool :=
  ModulusType_eqb (modulus_type (field_of P)) ModulusP256 && is_generator P.


(** A small curve to run the routines on: y^2 = x^3 - 3x + 3 over F_7,
    of order 6; (1, 1) is a point of it, (3, 0) its point of order 2. *)
Definition toy_field : MontContext :=
  {| modulus_type := ModulusGeneric; words := 1; bytes := 8; modulus := 7 |}.
Definition toy_curve : EcContext_ptr :=
  {| addr := 1;
     target := {| mont_ctx := toy_field; b := mont_set 3 toy_field;
                  order := [6]; prot_g := None |} |}.
Definition toy_point (x1 y1 z1 : Z) : EcPoint :=
  {| ec_ctx := toy_curve; x := mont_set x1 toy_field; y := mont_set y1 toy_field;
     z := mont_set z1 toy_field |}.

(** A second small curve, of odd order: y^2 = x^3 - 3x + 6 over F_7 has
    the 11 points O, (1, +-2), (2, +-1), (4, +-3), (5, +-2), (6, +-1),
    none of them with y = 0. *)
Definition odd_curve : EcContext_ptr :=
  {| addr := 3;
     target := {| mont_ctx := toy_field; b := mont_set 6 toy_field;
                  order := [11]; prot_g := None |} |}.
Definition odd_point (x1 y1 z1 : Z) : EcPoint :=
  {| ec_ctx := odd_curve; x := mont_set x1 toy_field; y := mont_set y1 toy_field;
     z := mont_set z1 toy_field |}.

(** NIST P-256 (§8.3): the context [ec_ws_new_context] builds for it,
    at some address and with some scattered generator table [g], and
    its generator as [ec_ws_new_point] stores it. *)
Definition p256_field : MontContext :=
  {| modulus_type := ModulusP256; words := 4; bytes := 32; modulus := p256_modulus |}.
Definition p256_b : Z :=
  0x5AC635D8AA3A93E7B3EBBD55769886BC651D06B0CC53B0F63BCE3C3E27D2604B.
Definition p256_n : Z :=
  0xFFFFFFFF00000000FFFFFFFFFFFFFFFFBCE6FAADA7179E84F3B9CAC2FC632551.
Definition p256_Gx : Z :=
  0x6B17D1F2E12C4247F8BCE6E563A440F277037D812DEB33A0F4A13945D898C296.
Definition p256_Gy : Z :=
  0x4FE342E2FE1A7F9B8EE7EB4A7C0F9E162BCE33576B315ECECBB6406837BF51F5.
Definition p256_curve (g : list (list (Z * Z))) : EcContext_ptr :=
  {| addr := 1;
     target := {| mont_ctx := p256_field; b := mont_set p256_b p256_field;
                  order := Z_to_words 4 p256_n; prot_g := Some g |} |}.
Definition p256_G (g : list (list (Z * Z))) : EcPoint :=
  {| ec_ctx := p256_curve g; x := mont_set p256_Gx p256_field;
     y := mont_set p256_Gy p256_field; z := mont_set 1 p256_field |}.

(** The scalar 2^256, on 33 bytes. *)
Definition scalar_2_256 : list byte := x01 :: repeat x00 32.

(** The point as the blinding step of [ec_ws_scalar] leaves it: every
    coordinate multiplied by the factor drawn from the seed. *)
Definition blinded (expand_seed : Z -> nat -> list byte) (P : EcPoint) (seed : Z)
  : EcPoint :=
  let ctx := mont_ctx (target (ec_ctx P)) in
  let factor := le_bytes_to_Z (expand_seed seed (mont_bytes ctx)) in
  {| ec_ctx := ec_ctx P;
     x := mont_mult (x P) factor ctx;
     y := mont_mult (y P) factor ctx;
     z := mont_mult (z P) factor ctx |}.

(** A heap that serves [n] requests and refuses the next one. *)
Definition fails_after (n : nat) : heap := repeat true n ++ [false].

(** On a heap that serves every request, [m] returns [a]. *)
Definition succeeds {A : Type} (m : M A) (a : A) : Prop :=
  forall h, never_fails h = true ->
  exists h', m h = (a, h') /\ never_fails h' = true.

(** The field of the context: an odd prime modulus. *)
Definition prime_field (ctx : MontContext) : Prop :=
  Z.prime (modulus ctx) /\ 2 < modulus ctx.

(** The point satisfies the equation of its curve. *)
Definition point_on_curve (P : EcPoint) : bool :=
  on_curve (x P) (y P) (z P) (curve_b P) (field_of P).

(** A coordinate triple satisfies the curve equation. *)
Definition triple_on_curve (b : Z) (ctx : MontContext) (w : Z * Z * Z) : bool :=
  let '(x1, y1, z1) := w in on_curve x1 y1 z1 b ctx.

(** An affine table entry as [ec_mix_add] takes it: (0, 0), or a point
    of the curve. *)
Definition entry_on_curve (b : Z) (ctx : MontContext) (e : Z * Z) : bool :=
  (mont_is_zero (fst e) ctx && mont_is_zero (snd e) ctx)
  || on_curve (fst e) (snd e) (mont_set 1 ctx) b ctx.

(** The generator tables of a context hold such entries only. *)
Definition tables_on_curve (e : EcContext) : bool :=
  match prot_g e with
  | Some g => forallb (forallb (entry_on_curve (b e) (mont_ctx e))) g
  | None => true
  end.

(** A representation (0 : Y : 0) of the point-at-infinity. *)
Definition triple_is_pai (w : Z * Z * Z) : bool :=
  let '(x1, _, z1) := w in (x1 =? 0) && (z1 =? 0).

(** ** The chord-and-tangent rule

    The group law the formulae are meant to compute: not a routine of
    the source, but the textbook rule its results are compared with, in
    projective coordinates on Montgomery numbers.  The line through
    (X1/Z1, Y1/Z1) and (X2/Z2, Y2/Z2) has slope u/v with
    u = Y2 Z1 - Y1 Z2 and v = X2 Z1 - X1 Z2; the sum has
    x3 = (u/v)^2 - X1/Z1 - X2/Z2 and y3 = (u/v) (X1/Z1 - x3) - Y1/Z1,
    that is (v A : u (v^2 X1 Z2 - A) - v^3 Y1 Z2 : v^3 Z1 Z2) with
    A = u^2 Z1 Z2 - v^3 - 2 v^2 X1 Z2. *)
Definition chord_rule (x1 y1 z1 x2 y2 z2 : Z) (ctx : MontContext) : Z * Z * Z :=
  let u := mont_sub (mont_mult y2 z1 ctx) (mont_mult y1 z2 ctx) ctx in
  let v := mont_sub (mont_mult x2 z1 ctx) (mont_mult x1 z2 ctx) ctx in
  let w := mont_mult z1 z2 ctx in
  let vv := mont_mult v v ctx in
  let vvv := mont_mult vv v ctx in
  let r := mont_mult vv (mont_mult x1 z2 ctx) ctx in
  let a := mont_sub (mont_sub (mont_sub (mont_mult (mont_mult u u ctx) w ctx)
                                        vvv ctx) r ctx) r ctx in
  (mont_mult v a ctx,
   mont_sub (mont_mult u (mont_sub r a ctx) ctx)
            (mont_mult vvv (mont_mult y1 z2 ctx) ctx) ctx,
   mont_mult vvv w ctx).

(** The tangent at (X/Z, Y/Z) to y^2 = x^3 - 3x + b has slope u/v with
    u = 3 X^2 - 3 Z^2 and v = 2 Y Z; the double has
    x3 = (u/v)^2 - 2 X/Z and y3 = (u/v) (X/Z - x3) - Y/Z, that is
    (v A : u (X v^2 - A) - Y v^3 : v^3 Z) with A = u^2 Z - 2 X v^2. *)
Definition tangent_rule (x1 y1 z1 : Z) (ctx : MontContext) : Z * Z * Z :=
  let t := mont_sub (mont_mult x1 x1 ctx) (mont_mult z1 z1 ctx) ctx in
  let u := mont_add (mont_add t t ctx) t ctx in
  let yz := mont_mult y1 z1 ctx in
  let v := mont_add yz yz ctx in
  let vv := mont_mult v v ctx in
  let vvv := mont_mult vv v ctx in
  let r := mont_mult x1 vv ctx in
  let a := mont_sub (mont_sub (mont_mult (mont_mult u u ctx) z1 ctx) r ctx) r ctx in
  (mont_mult v a ctx,
   mont_sub (mont_mult u (mont_sub r a ctx) ctx) (mont_mult y1 vvv ctx) ctx,
   mont_mult vvv z1 ctx).

(* ------------------------------------------------------------------ *)
(** * Properties *)

(** ** Arithmetic modulo the modulus *)

(** [strip_ok p] proves [eqm p t ?t'], where [?t'] is [t] without its
    inner reductions modulo [p]. *)
Ltac strip_ok p :=
  lazymatch goal with
  | |- eqm p (?a mod p) _ => apply (eqm_trans p _ a); [apply Zmod_eqm | strip_ok p]
  | |- eqm p (?a + ?b) _ => apply Zplus_eqm; strip_ok p
  | |- eqm p (?a - ?b) _ => apply Zminus_eqm; strip_ok p
  | |- eqm p (?a * ?b) _ => apply Zmult_eqm; strip_ok p
  | |- _ => apply eqm_refl
  end.

Ltac strip_in p H :=
  lazymatch type of H with
  | ?a mod p = ?b mod p =>
      let Ha := fresh in let Hb := fresh in
      eassert (Ha : eqm p a _) by strip_ok p;
      eassert (Hb : eqm p b _) by strip_ok p;
      let H' := fresh in
      pose proof (eqm_trans p _ _ _ (eqm_sym p _ _ Ha) (eqm_trans p _ _ _ H Hb)) as H';
      clear Ha Hb H; rename H' into H
  end.

Ltac strip_goal p :=
  lazymatch goal with
  | |- ?a mod p = ?b mod p =>
      let Ha := fresh in let Hb := fresh in
      eassert (Ha : eqm p a _) by strip_ok p;
      eassert (Hb : eqm p b _) by strip_ok p;
      apply (eqm_trans p _ _ _ Ha); apply eqm_sym;
      apply (eqm_trans p _ _ _ Hb); apply eqm_sym;
      clear Ha Hb
  end.

Ltac mont_unfold :=
  cbv beta zeta delta [ec_full_add ec_full_double on_curve mont_is_equal
                       mont_add mont_sub mont_mult mont_copy mulc] in *.

(** Equalities between Montgomery expressions that hold as polynomial
    identities. *)
Ltac mont_ring ctx :=
  mont_unfold; strip_goal (modulus ctx); unfold eqm; f_equal; ring.

Lemma eqm_close (p a a' k hl hr : Z) :
  eqm p hl hr -> a - a' = k * (hl - hr) -> eqm p a a'.
Proof.
  intros H E.
  replace a with (a' + k * (hl - hr)) by lia.
  apply (eqm_trans p _ (a' + k * (hr - hr))).
  - apply Zplus_eqm; [apply eqm_refl|].
    apply Zmult_eqm; [apply eqm_refl|].
    apply Zminus_eqm; [exact H | apply eqm_refl].
  - replace (a' + k * (hr - hr)) with a' by ring. apply eqm_refl.
Qed.

Lemma mulc_assoc (p c u v w : Z) :
  mulc p c u (mulc p c v w) = mulc p c (mulc p c u v) w.
Proof. unfold mulc. strip_goal p. unfold eqm. f_equal. ring. Qed.

Lemma iter_op_mulc (p c a : Z) (e : positive) :
  eqm p (Pos.iter_op (mulc p c) e a) (a ^ Z.pos e * c ^ (Z.pos e - 1)).
Proof.
  induction e as [|e IH] using Pos.peano_ind.
  - cbn [Pos.iter_op]. replace (Z.pos 1 - 1) with 0 by lia.
    rewrite Z.pow_1_r, Z.pow_0_r, Z.mul_1_r. apply eqm_refl.
  - rewrite Pos.iter_op_succ by (intros; apply mulc_assoc).
    unfold mulc at 1.
    apply (eqm_trans p _ (a * Pos.iter_op (mulc p c) e a * c)); [apply Zmod_eqm|].
    apply (eqm_trans p _ (a * (a ^ Z.pos e * c ^ (Z.pos e - 1)) * c)).
    + apply Zmult_eqm; [|apply eqm_refl].
      apply Zmult_eqm; [apply eqm_refl | exact IH].
    + rewrite Pos2Z.inj_succ.
      replace (Z.succ (Z.pos e) - 1) with (Z.succ (Z.pos e - 1)) by lia.
      rewrite !Z.pow_succ_r by lia.
      unfold eqm. f_equal. ring.
Qed.

Lemma reduced_iff (a : Z) (ctx : MontContext) :
  reduced a ctx = true <-> 0 <= a < modulus ctx.
Proof. unfold reduced. rewrite andb_true_iff, Z.leb_le, Z.ltb_lt. tauto. Qed.

Lemma eqm_reduced (ctx : MontContext) (u a : Z) :
  eqm (modulus ctx) u a -> reduced a ctx = true -> u mod modulus ctx = a.
Proof.
  intros H Ha. apply reduced_iff in Ha.
  unfold eqm in H. rewrite H. apply Z.mod_small. exact Ha.
Qed.

Section MontgomeryField.
Variable ctx : MontContext.
Hypothesis Hpf : prime_field ctx.

Lemma modulus_gt_2 : 2 < modulus ctx.
Proof. exact (proj2 Hpf). Qed.

Lemma mod_reduced (u : Z) : reduced (u mod modulus ctx) ctx = true.
Proof.
  apply reduced_iff. apply Z.mod_pos_bound. pose proof modulus_gt_2. lia.
Qed.

Lemma mont_R_nz : mont_R ctx mod modulus ctx <> 0.
Proof.
  destruct Hpf as [Hp H2]. intros E.
  apply Z.mod_divide in E; [|lia].
  unfold mont_R in E.
  apply Z.divide_prime_pp in E; [lia | exact Hp | exact Z.prime_2 | lia].
Qed.

Lemma mont_Rinv_spec : eqm (modulus ctx) (mont_R ctx * mont_Rinv ctx) 1.
Proof.
  destruct Hpf as [Hp H2].
  assert (Hc : eqm (modulus ctx) (mont_Rinv ctx) (mont_R ctx ^ (modulus ctx - 2))).
  { unfold mont_Rinv, powm.
    eapply eqm_trans; [apply iter_op_mulc|].
    rewrite Z2Pos.id by lia.
    rewrite Z.pow_1_l by lia. rewrite Z.mul_1_r.
    unfold eqm. apply Z.mod_pow_l. }
  apply (eqm_trans _ _ (mont_R ctx * mont_R ctx ^ (modulus ctx - 2))).
  - apply Zmult_eqm; [apply eqm_refl | exact Hc].
  - rewrite <- Z.pow_succ_r by lia.
    replace (Z.succ (modulus ctx - 2)) with (modulus ctx - 1) by lia.
    unfold eqm. rewrite (Z.fermat_nz _ _ Hp mont_R_nz).
    symmetry. apply Z.mod_small. lia.
Qed.

Lemma mont_Rinv_nz : mont_Rinv ctx mod modulus ctx <> 0.
Proof.
  intros E. pose proof mont_Rinv_spec as H. pose proof modulus_gt_2.
  unfold eqm in H. rewrite Z.mul_mod, E, Z.mul_0_r in H by lia.
  rewrite Z.mod_0_l, Z.mod_small in H by lia. discriminate.
Qed.

Lemma mont_mult_reduced (u v : Z) : reduced (mont_mult u v ctx) ctx = true.
Proof. apply mod_reduced. Qed.

Lemma mont_mult_comm (u v : Z) : mont_mult u v ctx = mont_mult v u ctx.
Proof. mont_ring ctx. Qed.

Lemma mont_mult_assoc (u v w : Z) :
  mont_mult u (mont_mult v w ctx) ctx = mont_mult (mont_mult u v ctx) w ctx.
Proof. mont_ring ctx. Qed.

Lemma mont_mult_0_r (u : Z) : mont_mult u 0 ctx = 0.
Proof.
  unfold mont_mult, mulc. rewrite Z.mul_0_r, Z.mul_0_l. apply Z.mod_0_l.
  pose proof modulus_gt_2. lia.
Qed.

Lemma mont_mult_0_l (u : Z) : mont_mult 0 u ctx = 0.
Proof. rewrite mont_mult_comm. apply mont_mult_0_r. Qed.

Lemma mont_set_0 : mont_set 0 ctx = 0.
Proof. unfold mont_set. rewrite Z.mul_0_l. apply Z.mod_0_l. pose proof modulus_gt_2. lia. Qed.

(** The Montgomery form of 1 is the unit of the Montgomery product. *)
Lemma mont_mult_1_r (a : Z) :
  reduced a ctx = true -> mont_mult a (mont_set 1 ctx) ctx = a.
Proof.
  intros Ha. unfold mont_mult, mont_set, mulc.
  apply eqm_reduced; [|exact Ha].
  apply (eqm_trans _ _ (a * (1 * mont_R ctx) * mont_Rinv ctx));
    [strip_ok (modulus ctx)|].
  apply (eqm_trans _ _ (a * (mont_R ctx * mont_Rinv ctx)));
    [unfold eqm; f_equal; ring|].
  eapply eqm_trans; [apply Zmult_eqm; [apply eqm_refl | apply mont_Rinv_spec]|].
  rewrite Z.mul_1_r. apply eqm_refl.
Qed.

Lemma divide_reduced (a : Z) :
  reduced a ctx = true -> (modulus ctx | a) -> a = 0.
Proof.
  intros Ha Hd. apply reduced_iff in Ha.
  apply Z.mod0_divide in Hd. rewrite Z.mod_small in Hd by lia. exact Hd.
Qed.

(** The field has no zero divisors. *)
Lemma mont_mult_eq_0 (u v : Z) :
  reduced u ctx = true -> reduced v ctx = true ->
  mont_mult u v ctx = 0 -> u = 0 \/ v = 0.
Proof.
  intros Hu Hv E. destruct Hpf as [Hp H2].
  unfold mont_mult, mulc in E.
  apply Z.mod_divide in E; [|lia].
  apply (Z.divide_prime_mul _ _ _ Hp) in E. destruct E as [E|E].
  - apply (Z.divide_prime_mul _ _ _ Hp) in E.
    destruct E as [E|E]; [left | right]; apply divide_reduced; assumption.
  - exfalso. apply mont_Rinv_nz. apply Z.mod0_divide. exact E.
Qed.

Lemma mont_mult_nz (u v : Z) :
  reduced u ctx = true -> reduced v ctx = true ->
  u <> 0 -> v <> 0 -> mont_mult u v ctx <> 0.
Proof. intros Hu Hv Nu Nv E. destruct (mont_mult_eq_0 u v Hu Hv E); contradiction. Qed.

Lemma mont_mult_cancel_l (l u v : Z) :
  reduced l ctx = true -> reduced u ctx = true -> reduced v ctx = true ->
  l <> 0 -> mont_mult l u ctx = mont_mult l v ctx -> u = v.
Proof.
  intros Hl Hu Hv Nl E.
  assert (E0 : mont_mult l (mont_sub u v ctx) ctx = 0).
  { transitivity (mont_sub (mont_mult l u ctx) (mont_mult l v ctx) ctx).
    - mont_ring ctx.
    - rewrite E. unfold mont_sub. rewrite Z.sub_diag. apply Z.mod_0_l.
      pose proof modulus_gt_2. lia. }
  apply mont_mult_eq_0 in E0; [|exact Hl|apply mod_reduced].
  destruct E0 as [E0|E0]; [contradiction|].
  unfold mont_sub in E0.
  apply reduced_iff in Hu, Hv.
  apply Z.mod_divide in E0; [|lia]. destruct E0 as [q Hq].
  assert (q = 0) by nia. lia.
Qed.

(** [mont_inv_prime] is the inverse for the Montgomery product. *)
Lemma mont_inv_prime_spec (a : Z) :
  reduced a ctx = true -> a <> 0 ->
  mont_mult a (mont_inv_prime a ctx) ctx = mont_set 1 ctx.
Proof.
  intros Ha Na. destruct Hpf as [Hp H2].
  assert (Ha' := proj1 (reduced_iff _ _) Ha).
  unfold mont_inv_prime.
  change (fun u v : Z => mont_mult u v ctx) with (mulc (modulus ctx) (mont_Rinv ctx)).
  pose proof (iter_op_mulc (modulus ctx) (mont_Rinv ctx) a (Z.to_pos (modulus ctx - 2))) as HI.
  rewrite Z2Pos.id in HI by lia.
  set (I := Pos.iter_op _ _ _) in *.
  unfold mont_mult, mulc, mont_set.
  change (eqm (modulus ctx) (a * I * mont_Rinv ctx) (1 * mont_R ctx)).
  (* a * I * c == a^(p-1) * c^(p-2) *)
  apply (eqm_trans _ _ (a ^ (modulus ctx - 1) * mont_Rinv ctx ^ (modulus ctx - 2))).
  { apply (eqm_trans _ _ (a * (a ^ (modulus ctx - 2) * mont_Rinv ctx ^ (modulus ctx - 2 - 1))
                          * mont_Rinv ctx)).
    - apply Zmult_eqm; [|apply eqm_refl]. apply Zmult_eqm; [apply eqm_refl | exact HI].
    - assert (E1 : a ^ (modulus ctx - 1) = a * a ^ (modulus ctx - 2))
        by (rewrite <- Z.pow_succ_r by lia; f_equal; lia).
      assert (E2 : mont_Rinv ctx ^ (modulus ctx - 2)
                   = mont_Rinv ctx * mont_Rinv ctx ^ (modulus ctx - 2 - 1))
        by (rewrite <- Z.pow_succ_r by lia; f_equal; lia).
      rewrite E1, E2. unfold eqm. f_equal. ring. }
  assert (Fa : eqm (modulus ctx) (a ^ (modulus ctx - 1)) 1).
  { unfold eqm. rewrite (Z.fermat_nz _ a Hp); [symmetry; apply Z.mod_small; lia|].
    rewrite Z.mod_small by lia. exact Na. }
  assert (Fc : eqm (modulus ctx) (mont_Rinv ctx ^ (modulus ctx - 1)) 1).
  { unfold eqm. rewrite (Z.fermat_nz _ _ Hp mont_Rinv_nz). symmetry; apply Z.mod_small; lia. }
  apply (eqm_trans _ _ (1 * mont_Rinv ctx ^ (modulus ctx - 2))).
  { apply Zmult_eqm; [exact Fa | apply eqm_refl]. }
  apply (eqm_trans _ _ (mont_Rinv ctx ^ (modulus ctx - 2) * (mont_R ctx * mont_Rinv ctx))).
  { apply eqm_sym.
    eapply eqm_trans; [apply Zmult_eqm; [apply eqm_refl | apply mont_Rinv_spec]|].
    unfold eqm. f_equal. ring. }
  apply (eqm_trans _ _ (mont_Rinv ctx ^ (modulus ctx - 1) * mont_R ctx)).
  { replace (modulus ctx - 1) with (Z.succ (modulus ctx - 2)) by lia.
    rewrite Z.pow_succ_r by lia. unfold eqm. f_equal. ring. }
  apply Zmult_eqm; [exact Fc | apply eqm_refl].
Qed.

End MontgomeryField.

(** ** Calls served by the allocator *)

Lemma succeeds_fst {A : Type} (m : M A) (a : A) (h : heap) :
  succeeds m a -> never_fails h = true -> fst (m h) = a.
Proof. intros Hm Hh. destruct (Hm h Hh) as (h' & E & _). rewrite E. reflexivity. Qed.

Lemma succeeds_ret {A : Type} (a : A) : succeeds (ret a) a.
Proof. intros h Hh. exists h. split; [reflexivity | exact Hh]. Qed.

Lemma succeeds_bind {A B : Type} (m : M A) (f : A -> M B) (a : A) (r : B) :
  succeeds m a -> succeeds (f a) r -> succeeds (bind m f) r.
Proof.
  intros Hm Hf h Hh. unfold bind.
  destruct (Hm h Hh) as (h1 & E1 & Hh1). rewrite E1.
  exact (Hf h1 Hh1).
Qed.

Lemma succeeds_calloc : succeeds calloc true.
Proof.
  intros [|served h] Hh; cbn in *.
  - exists []. split; reflexivity.
  - apply andb_true_iff in Hh. destruct Hh as [-> Hh].
    exists h. split; [reflexivity | exact Hh].
Qed.

Lemma succeeds_callocs (n : nat) : succeeds (callocs n) true.
Proof.
  induction n as [|n IH]; cbn [callocs].
  - apply succeeds_ret.
  - eapply succeeds_bind; [apply succeeds_calloc | exact IH].
Qed.

Lemma succeeds_mont_number (count : nat) (ctx : MontContext) :
  succeeds (mont_number count ctx) OK.
Proof. eapply succeeds_bind; [apply succeeds_calloc | apply succeeds_ret]. Qed.

Lemma succeeds_mont_from_bytes (number : list byte) (len : nat) (ctx : MontContext) :
  succeeds (mont_from_bytes number len ctx)
           (OK, mont_set (bytes_to_Z (firstn len number)) ctx).
Proof. eapply succeeds_bind; [apply succeeds_calloc | apply succeeds_ret]. Qed.

Lemma succeeds_mont_to_bytes (a : Z) (ctx : MontContext) :
  succeeds (mont_to_bytes a ctx) (OK, Z_to_bytes (mont_bytes ctx) (from_mont a ctx)).
Proof. eapply succeeds_bind; [apply succeeds_calloc | apply succeeds_ret]. Qed.

Lemma succeeds_scatter {A : Type} (arrays : list A) (nr size : nat) (seed : Z) :
  succeeds (scatter arrays nr size seed) (OK, firstn nr arrays).
Proof. eapply succeeds_bind; [apply succeeds_calloc | apply succeeds_ret]. Qed.

Lemma succeeds_or_cleanup (m : M retcode) (k : M bool) :
  succeeds m OK -> succeeds k true -> succeeds (or_cleanup m k) true.
Proof. intros Hm Hk. eapply succeeds_bind; [exact Hm | exact Hk]. Qed.

Lemma succeeds_new_workplace (ctx : MontContext) : succeeds (new_workplace ctx) true.
Proof.
  unfold new_workplace.
  eapply succeeds_bind; [apply succeeds_calloc | cbn [negb]].
  repeat (apply succeeds_or_cleanup; [apply succeeds_mont_number|]).
  apply succeeds_ret.
Qed.

Create HintDb served discriminated.
#[local] Hint Resolve succeeds_new_workplace succeeds_mont_number
  succeeds_mont_from_bytes succeeds_mont_to_bytes succeeds_scatter
  succeeds_callocs succeeds_calloc : served.

(** One step of a call on a heap that serves every request. *)
Ltac served :=
  first
    [ apply succeeds_ret
    | eapply succeeds_bind;
      [ solve [auto with served nocore]
      | cbn beta iota delta [negb is_err retcode_eqb] ] ].

(** ** The curve formulae *)

(** On the curve, adding a point to itself and doubling it compute the
    same coordinates. *)
Lemma full_add_self_is_double (x1 y1 z1 b : Z) (ctx : MontContext) :
  on_curve x1 y1 z1 b ctx = true ->
  ec_full_add x1 y1 z1 x1 y1 z1 b ctx = ec_full_double x1 y1 z1 b ctx.
Proof.
  intros H.
  unfold on_curve, mont_is_equal in H. apply Z.eqb_eq in H.
  mont_unfold.
  f_equal; [f_equal|].
  - strip_goal (modulus ctx). unfold eqm; f_equal; ring.
  - strip_goal (modulus ctx). unfold eqm; f_equal; ring.
  - strip_goal (modulus ctx). strip_in (modulus ctx) H.
    apply (eqm_close _ _ _ (-6 * y1 * mont_Rinv ctx) _ _ H). ring.
Qed.

(** C1. Doubling consistency: for every point P on the curve (the
    point-at-infinity included), [ec_ws_add] of P to itself and
    [ec_ws_double] of P both succeed when the allocator serves them, and
    their results have the same affine coordinates and normalize to the
    same point. *)
Theorem doubling_consistency (P : EcPoint) (h1 h2 : heap) :
  on_curve (x P) (y P) (z P) (curve_b P) (field_of P) = true ->
  never_fails h1 = true -> never_fails h2 = true ->
  exists Pa Pd : EcPoint,
    fst (ec_ws_add (Some P) (Some P) h1) = (OK, Some Pa) /\
    fst (ec_ws_double (Some P) h2) = (OK, Some Pd) /\
    affine Pa = affine Pd /\
    forall h3, fst (ec_ws_normalize (Some Pa) h3) = fst (ec_ws_normalize (Some Pd) h3).
Proof.
  intros Hc Hh1 Hh2.
  unfold curve_b, field_of in Hc.
  pose proof (full_add_self_is_double _ _ _ _ _ Hc) as E.
  destruct (ec_full_double (x P) (y P) (z P) (b (target (ec_ctx P)))
              (mont_ctx (target (ec_ctx P)))) as [[x3 y3] z3] eqn:Ed.
  exists {| ec_ctx := ec_ctx P; x := x3; y := y3; z := z3 |},
         {| ec_ctx := ec_ctx P; x := x3; y := y3; z := z3 |}.
  repeat split.
  - apply succeeds_fst; [|exact Hh1].
    unfold ec_ws_add, same_ctx. rewrite Nat.eqb_refl. cbn [negb].
    served. rewrite E. served.
  - apply succeeds_fst; [|exact Hh2].
    unfold ec_ws_double. served. rewrite Ed. served.
Qed.

(** Doubling consistency at the point (1, 1) of the toy curve. *)
Lemma doubling_consistency_witness :
  let P := toy_point 1 1 1 in
  exists Pa Pd : EcPoint,
    fst (ec_ws_add (Some P) (Some P) []) = (OK, Some Pa) /\
    fst (ec_ws_double (Some P) []) = (OK, Some Pd) /\
    affine Pa = affine Pd /\
    forall h3, fst (ec_ws_normalize (Some Pa) h3) = fst (ec_ws_normalize (Some Pd) h3).
Proof.
  intros P. apply (doubling_consistency P [] []).
  - vm_compute; reflexivity.
  - reflexivity.
  - reflexivity.
Defined.

(** Adding the point-at-infinity (0 : yo : 0) scales the coordinates of
    the other operand by yo^2 * y1. *)
Lemma full_add_pai_r (x1 y1 z1 yo b : Z) (ctx : MontContext) :
  let l := mont_mult (mont_mult yo yo ctx) y1 ctx in
  ec_full_add x1 y1 z1 0 yo 0 b ctx
  = (mont_mult l x1 ctx, mont_mult l y1 ctx, mont_mult l z1 ctx).
Proof. intros l. subst l. unfold ec_full_add. f_equal; [f_equal|]; mont_ring ctx. Qed.


(** Doubling (0 : y1 : 0) gives (0 : y1^4 : 0). *)
Lemma full_double_pai (y1 b : Z) (ctx : MontContext) :
  let yy := mont_mult y1 y1 ctx in
  ec_full_double 0 y1 0 b ctx
  = (mont_mult 0 y1 ctx, mont_mult yy yy ctx, mont_mult 0 y1 ctx).
Proof. intros yy. subst yy. unfold ec_full_double. f_equal; [f_equal|]; mont_ring ctx. Qed.

Section Projective.
Variable ctx : MontContext.
Hypothesis Hpf : prime_field ctx.

(** Scaling the projective coordinates by a non-zero factor leaves
    the affine coordinates unchanged. *)
Lemma affine_scale (l x1 y1 z1 : Z) :
  reduced l ctx = true -> l <> 0 ->
  reduced x1 ctx = true -> reduced y1 ctx = true -> reduced z1 ctx = true ->
  ec_projective_to_affine (mont_mult l x1 ctx) (mont_mult l y1 ctx)
                          (mont_mult l z1 ctx) ctx
  = ec_projective_to_affine x1 y1 z1 ctx.
Proof.
  intros Hl Nl Hx Hy Hz.
  unfold ec_projective_to_affine, mont_is_zero.
  destruct (Z.eqb_spec z1 0) as [->|Nz].
  - rewrite (mont_mult_0_r ctx Hpf). reflexivity.
  - pose proof (mont_mult_nz ctx Hpf l z1 Hl Hz Nl Nz) as Nlz.
    destruct (Z.eqb_spec (mont_mult l z1 ctx) 0) as [E|_]; [contradiction|].
    cbv zeta.
    pose proof (mont_inv_prime_spec ctx Hpf z1 Hz Nz) as Iz.
    pose proof (mont_inv_prime_spec ctx Hpf (mont_mult l z1 ctx)
                  (mont_mult_reduced ctx Hpf _ _) Nlz) as Ilz.
    set (A := mont_inv_prime z1 ctx) in *.
    set (A' := mont_inv_prime (mont_mult l z1 ctx) ctx) in *.
    assert (K : forall u, reduced u ctx = true ->
              mont_mult (mont_mult l u ctx) A' ctx = mont_mult u A ctx).
    { intros u Hu.
      apply (mont_mult_cancel_l ctx Hpf (mont_mult l z1 ctx));
        [apply mont_mult_reduced | apply mont_mult_reduced
        | apply mont_mult_reduced | exact Nlz |]; try exact Hpf.
      transitivity (mont_mult (mont_mult l u ctx)
                      (mont_mult (mont_mult l z1 ctx) A' ctx) ctx);
        [mont_ring ctx|].
      transitivity (mont_mult (mont_mult l u ctx) (mont_mult z1 A ctx) ctx);
        [|mont_ring ctx].
      rewrite Ilz, Iz. reflexivity. }
    rewrite (K x1 Hx), (K y1 Hy). reflexivity.
Qed.


End Projective.

(** ** The ladder on the scalars 0 and 1 *)



(** What [ec_scalar] returns when the allocator serves it. *)
Lemma succeeds_ec_scalar (x1 y1 z1 b : Z) (exp : list byte) (seed : Z)
  (ctx : MontContext) :
  let w1 := (x1, y1, z1) in
  let window :=
    (mont_set 0 ctx, mont_set 1 ctx, mont_set 0 ctx) :: w1
    :: window_from (WINDOW_SIZE_ITEMS - 2) w1 (mont_is_one z1 ctx) x1 y1 z1 b ctx in
  let bw := init_bit_window_lr WINDOW_SIZE_BITS (skip_leading_zeroes exp) in
  succeeds (ec_scalar x1 y1 z1 b exp seed ctx)
    (Returns
       (OK, Some (ec_scalar_loop (lr_nr_windows bw) bw
                    (firstn WINDOW_SIZE_ITEMS (map (fun w => fst (fst w)) window))
                    (firstn WINDOW_SIZE_ITEMS (map (fun w => snd (fst w)) window))
                    (firstn WINDOW_SIZE_ITEMS (map (fun w => snd w) window))
                    (mont_set 0 ctx, mont_set 1 ctx, mont_set 0 ctx) b ctx))).
Proof.
  intros w1 window bw. unfold ec_scalar.
  do 5 served. apply succeeds_ret.
Qed.


Section Ladder.
Variable ctx : MontContext.
Hypothesis Hpf : prime_field ctx.




End Ladder.


Lemma prime_7 : Z.prime 7.
Proof.
  split; [lia|]. intros n Hn [q Hq].
  assert (n = 2 \/ n = 3 \/ n = 4 \/ n = 5 \/ n = 6) as C by lia.
  destruct C as [->|[->|[->|[->| ->]]]]; lia.
Qed.

Lemma toy_prime_field : prime_field toy_field.
Proof. split; [exact prime_7 | reflexivity]. Qed.

(** The stored generator is the one [ec_ws_scalar] looks for. *)
Lemma p256_G_is_generator (g : list (list (Z * Z))) :
  x (p256_G g) = words_to_Z mont_Gx /\ y (p256_G g) = words_to_Z mont_Gy
  /\ fast_path (p256_G g) = true.
Proof. repeat split; vm_compute; reflexivity. Qed.

(** The inverse of R for P-256. *)
Lemma p256_Rinv :
  mont_Rinv p256_field
  = 0xFFFFFFFE00000003FFFFFFFD0000000200000001FFFFFFFE0000000300000000.
Proof. vm_compute. reflexivity. Qed.

(** It is a valid point of the curve. *)
Lemma p256_G_valid (g : list (list (Z * Z))) :
  valid_point (x (p256_G g)) (y (p256_G g)) (z (p256_G g))
              (curve_b (p256_G g)) (field_of (p256_G g)) = true.
Proof.
  unfold valid_point, on_curve, mont_mult, mulc, curve_b, field_of.
  cbn [p256_G p256_curve ec_ctx target mont_ctx x y z b].
  rewrite p256_Rinv. vm_compute. reflexivity.
Qed.



Lemma firstn_length_eq {A : Type} (l : list A) (n : nat) : length l = n -> firstn n l = l.
Proof. intros <-. apply firstn_all. Qed.

Section Identity.
Variable tbl : P256Table.
Variable expand_seed : Z -> nat -> list byte.
Variables P O : EcPoint.
Hypothesis Hpf : prime_field (field_of P).
Hypothesis Hctx : ec_ctx O = ec_ctx P.
Hypothesis HP : valid_point (x P) (y P) (z P) (curve_b P) (field_of P) = true.
Hypothesis HO : valid_point (x O) (y O) (z O) (curve_b O) (field_of O) = true.
Hypothesis HOz : z O = 0.

Let ctx := mont_ctx (target (ec_ctx P)).









End Identity.




(** ** Mixed addition, conversion to affine, comparison, copy *)

(** C3. For every projective point P = (x13, y13, z13): when the affine
    operand is (0, 0), the encoding of the point-at-infinity,
    [ec_mix_add] returns P unchanged; the steps of algorithm 5 run for
    every other operand only. *)
Theorem mix_add_affine_pai (x13 y13 z13 b : Z) (ctx : MontContext) :
  ec_mix_add x13 y13 z13 0 0 b ctx = (x13, y13, z13) /\
  ec_mix_add x13 y13 z13 (mont_set 0 ctx) (mont_set 0 ctx) b ctx = (x13, y13, z13) /\
  forall x2 y2, (x2 =? 0) && (y2 =? 0) = false ->
    ec_mix_add x13 y13 z13 x2 y2 b ctx = ec_mix_add_alg5 x13 y13 z13 x2 y2 b ctx.
Proof.
  split; [reflexivity|]. split.
  - unfold mont_set. rewrite Z.mul_0_l, Zmod_0_l. reflexivity.
  - intros x2 y2 H. unfold ec_mix_add, mont_is_zero. rewrite H. reflexivity.
Qed.

Lemma Z_to_bytes_0 (n : nat) : Z_to_bytes n 0 = repeat x00 n.
Proof.
  induction n as [|n IH]; [reflexivity|].
  cbn [Z_to_bytes]. rewrite Zdiv_0_l, IH.
  change (byte_of_Z 0) with x00.
  change (repeat x00 n ++ [x00]) with (repeat x00 n ++ repeat x00 1).
  rewrite <- repeat_app. f_equal. lia.
Qed.

Section Conversion.
Variable ctx : MontContext.
Hypothesis Hpf : prime_field ctx.

(** [mont_inv_prime] raises to the power p - 2. *)
Lemma mont_inv_prime_fermat (z1 : Z) :
  from_mont (mont_inv_prime z1 ctx) ctx
  = (from_mont z1 ctx) ^ (modulus ctx - 2) mod modulus ctx.
Proof.
  pose proof (modulus_gt_2 ctx Hpf) as H2.
  unfold from_mont at 1 2, mont_inv_prime.
  change (fun u v : Z => mont_mult u v ctx) with (mulc (modulus ctx) (mont_Rinv ctx)).
  pose proof (iter_op_mulc (modulus ctx) (mont_Rinv ctx) z1
                (Z.to_pos (modulus ctx - 2))) as HI.
  rewrite Z2Pos.id in HI by lia.
  rewrite Z.mod_pow_l, Z.pow_mul_l.
  change (eqm (modulus ctx)
            (Pos.iter_op (mulc (modulus ctx) (mont_Rinv ctx))
               (Z.to_pos (modulus ctx - 2)) z1 * mont_Rinv ctx)
            (z1 ^ (modulus ctx - 2) * mont_Rinv ctx ^ (modulus ctx - 2))).
  eapply eqm_trans; [apply Zmult_eqm; [exact HI | apply eqm_refl]|].
  assert (E : mont_Rinv ctx ^ (modulus ctx - 2)
              = mont_Rinv ctx ^ (modulus ctx - 2 - 1) * mont_Rinv ctx).
  { rewrite Z.mul_comm, <- Z.pow_succ_r by lia. f_equal. lia. }
  rewrite E. unfold eqm. f_equal. ring.
Qed.

End Conversion.

(** C4. Projective to affine: for every projective point (X, Y, Z),
    [ec_projective_to_affine] gives (0, 0) when Z = 0 and otherwise
    (X.A, Y.A) with A = [mont_inv_prime Z]; over a prime field A is Z
    raised to the power p - 2 and is the inverse of Z.  When the
    allocator serves them, [ec_ws_get_xy] encodes these coordinates
    (zero bytes when Z = 0) and [ec_ws_normalize] stores them with
    Z = 1 when Z <> 0. *)
Theorem projective_to_affine_spec (P : EcPoint) (h : heap) :
  let ctx := field_of P in
  let A := mont_inv_prime (z P) ctx in
  (z P = 0 -> affine P = (0, 0)) /\
  (z P <> 0 -> affine P = (mont_mult (x P) A ctx, mont_mult (y P) A ctx)) /\
  (prime_field ctx ->
     from_mont A ctx = (from_mont (z P) ctx) ^ (modulus ctx - 2) mod modulus ctx
     /\ (reduced (z P) ctx = true -> z P <> 0 ->
         mont_mult (z P) A ctx = mont_set 1 ctx)) /\
  (never_fails h = true ->
     fst (ec_ws_get_xy true true (mont_bytes ctx) (Some P) h)
       = (OK, Some (Z_to_bytes (mont_bytes ctx) (from_mont (fst (affine P)) ctx)),
              Some (Z_to_bytes (mont_bytes ctx) (from_mont (snd (affine P)) ctx)))
     /\ (z P = 0 ->
         fst (ec_ws_get_xy true true (mont_bytes ctx) (Some P) h)
           = (OK, Some (repeat x00 (mont_bytes ctx)),
                  Some (repeat x00 (mont_bytes ctx))))
     /\ (z P <> 0 ->
         fst (ec_ws_normalize (Some P) h)
           = (OK, Some {| ec_ctx := ec_ctx P; x := fst (affine P);
                          y := snd (affine P); z := mont_set 1 ctx |}))).
Proof.
  intros ctx A. subst ctx A. unfold field_of in *.
  set (ctx := mont_ctx (target (ec_ctx P))) in *.
  assert (S0 : mont_set 0 ctx = 0)
    by (unfold mont_set; rewrite Z.mul_0_l; apply Zmod_0_l).
  assert (Z0 : z P = 0 -> affine P = (0, 0)).
  { intros E. unfold affine, ec_projective_to_affine, mont_is_zero. rewrite E.
    cbn [Z.eqb]. fold ctx. rewrite S0. reflexivity. }
  split; [exact Z0|]. split; [|split].
  - intros N. unfold affine, ec_projective_to_affine, mont_is_zero.
    destruct (Z.eqb_spec (z P) 0) as [E|_]; [contradiction | reflexivity].
  - intros Hpf. split; [apply (mont_inv_prime_fermat ctx Hpf)|].
    intros Hz N. apply (mont_inv_prime_spec ctx Hpf); assumption.
  - intros Hh.
    assert (G : fst (ec_ws_get_xy true true (mont_bytes ctx) (Some P) h)
      = (OK, Some (Z_to_bytes (mont_bytes ctx) (from_mont (fst (affine P)) ctx)),
             Some (Z_to_bytes (mont_bytes ctx) (from_mont (snd (affine P)) ctx)))).
    { apply succeeds_fst; [|exact Hh].
      unfold ec_ws_get_xy. destruct P as [e px py pz]. cbn [ec_ctx] in *.
      fold ctx. rewrite Nat.eqb_refl. cbn [negb].
      do 3 served.
      unfold affine. cbn [x y z ec_ctx]. fold ctx.
      destruct (ec_projective_to_affine px py pz ctx) as [xw yw]. cbn [fst snd].
      do 2 served. apply succeeds_ret. }
    split; [exact G|]. split.
    + intros E. rewrite G, (Z0 E). cbn [fst snd].
      assert (F : from_mont 0 ctx = 0)
        by (unfold from_mont; rewrite Z.mul_0_l; apply Zmod_0_l).
      rewrite F, Z_to_bytes_0. reflexivity.
    + intros N. apply succeeds_fst; [|exact Hh].
      unfold ec_ws_normalize. fold ctx. served.
      unfold mont_is_zero. destruct (Z.eqb_spec (z P) 0) as [E|_]; [contradiction|].
      cbn [negb]. unfold affine. fold ctx.
      destruct (ec_projective_to_affine (x P) (y P) (z P) ctx) as [x3 y3].
      apply succeeds_ret.
Qed.

(** The conversion at the point (1, 1) of the toy curve. *)
Lemma projective_to_affine_witness :
  let P := toy_point 1 1 1 in
  let A := mont_inv_prime (z P) toy_field in
  affine P = (mont_mult (x P) A toy_field, mont_mult (y P) A toy_field) /\
  from_mont A toy_field = (from_mont (z P) toy_field) ^ (7 - 2) mod 7 /\
  mont_mult (z P) A toy_field = mont_set 1 toy_field /\
  fst (ec_ws_get_xy true true 8 (Some P) [])
    = (OK, Some (Z_to_bytes 8 (from_mont (fst (affine P)) toy_field)),
           Some (Z_to_bytes 8 (from_mont (snd (affine P)) toy_field))) /\
  fst (ec_ws_normalize (Some P) [])
    = (OK, Some {| ec_ctx := ec_ctx P; x := fst (affine P); y := snd (affine P);
                   z := mont_set 1 toy_field |}).
Proof.
  intros P A.
  destruct (projective_to_affine_spec P []) as (_ & H1 & H2 & H3).
  assert (N : z P <> 0) by (vm_compute; discriminate).
  destruct (H2 toy_prime_field) as [F I].
  destruct (H3 eq_refl) as (G & _ & Nm).
  split; [exact (H1 N)|]. split; [exact F|].
  split; [apply I; [vm_compute; reflexivity | exact N]|].
  split; [exact G | exact (Nm N)].
Defined.



(** C10 as stated fails when the context of the source is the larger
    one: the point (1, 1) of the toy curve, as [ec_ws_new_point] builds
    it, has buffers of one word; copying the generator of P-256, of a
    context of four words, over it writes four words into each of them,
    and the call has no defined result. *)
Lemma copy_overruns_smaller_context :
  let dst := toy_point 1 1 1 in
  let p256 := {| addr := 2; target := target (p256_curve []) |} in
  let src := {| ec_ctx := p256; x := x (p256_G []); y := y (p256_G []);
                z := z (p256_G []) |} in
  fst (ec_ws_new_point true (Some [x01]) (Some [x01]) 1 (Some toy_curve) [])
    = Returns (OK, Live dst) /\
  valid_point (x src) (y src) (z src) (curve_b src) (field_of src) = true /\
  same_ctx (ec_ctx dst) (ec_ctx src) = false /\
  words (field_of dst) = 1%nat /\ words (field_of src) = 4%nat /\
  ec_ws_copy (Some dst) (Some src) = Undefined /\
  ec_ws_copy (Some dst) (Some src) <> Returns (OK, Some src).
Proof.
  cbv zeta.
  split; [vm_compute; reflexivity|].
  split; [exact (p256_G_valid [])|].
  split; [reflexivity|]. split; [reflexivity|]. split; [reflexivity|].
  split; [reflexivity | discriminate].
Qed.

Section Compare.
Variables P1 P2 : EcPoint.
Hypothesis Hctx : ec_ctx P1 = ec_ctx P2.

Let ctx := mont_ctx (target (ec_ctx P1)).



Lemma cmp_same_context :
  succeeds (ec_ws_cmp (Some P1) (Some P2))
    (if (z P1 =? 0) || (z P2 =? 0)
     then if (z P1 =? 0) && (z P2 =? 0) then OK else ERR_VALUE
     else if (mont_mult (x P1) (z P2) ctx =? mont_mult (x P2) (z P1) ctx)
             && (mont_mult (y P1) (z P2) ctx =? mont_mult (y P2) (z P1) ctx)
          then OK else ERR_VALUE).
Proof.
  unfold ec_ws_cmp, same_ctx. rewrite Hctx, Nat.eqb_refl. cbn [negb].
  rewrite <- Hctx. fold ctx. unfold mont_is_zero, mont_is_equal.
  destruct ((z P1 =? 0) || (z P2 =? 0)); [apply succeeds_ret|].
  served. apply succeeds_ret.
Qed.



End Compare.



(** C5 as stated fails at the triple (0, 0, 0), which [ec_ws_add] leaves
    for the sum of the point (3, 0) of order two and the
    point-at-infinity on the toy curve: against the point (1, 1) of the
    same context both cross products agree, all four being zero, and
    [ec_ws_cmp] returns ERR_VALUE. *)
Lemma cmp_fails_at_zero_triple :
  let P1 := {| ec_ctx := toy_curve; x := 0; y := 0; z := 0 |} in
  let P2 := toy_point 1 1 1 in
  fst (ec_ws_add (Some (toy_point 3 0 1)) (Some (toy_point 0 1 0)) []) = (OK, Some P1) /\
  ec_ctx P1 = ec_ctx P2 /\
  mont_mult (x P1) (z P2) toy_field = mont_mult (x P2) (z P1) toy_field /\
  mont_mult (y P1) (z P2) toy_field = mont_mult (y P2) (z P1) toy_field /\
  fst (ec_ws_cmp (Some P1) (Some P2) []) = ERR_VALUE /\
  ~ (fst (ec_ws_cmp (Some P1) (Some P2) []) = OK <->
     (z P1 = 0 /\ z P2 = 0)
     \/ (mont_mult (x P1) (z P2) toy_field = mont_mult (x P2) (z P1) toy_field
         /\ mont_mult (y P1) (z P2) toy_field = mont_mult (y P2) (z P1) toy_field)).
Proof.
  cbv zeta.
  split; [vm_compute; reflexivity|]. split; [reflexivity|].
  split; [vm_compute; reflexivity|]. split; [vm_compute; reflexivity|].
  split; [vm_compute; reflexivity|].
  intros [_ H].
  assert (E : fst (ec_ws_cmp (Some {| ec_ctx := toy_curve; x := 0; y := 0; z := 0 |})
                     (Some (toy_point 1 1 1)) []) = OK).
  { apply H. right. split; vm_compute; reflexivity. }
  vm_compute in E. discriminate.
Qed.

(** ** Point construction *)

Section PointConstruction.
Variable ctx : MontContext.
Hypothesis Hpf : prime_field ctx.

(** Multiplying by R * R^-1 changes nothing modulo p. *)
Lemma eqm_unit (a a' k : Z) :
  a - a' = k * (mont_R ctx * mont_Rinv ctx - 1) -> eqm (modulus ctx) a a'.
Proof. intros E. exact (eqm_close _ _ _ k _ _ (mont_Rinv_spec ctx Hpf) E). Qed.

Lemma eqm_mul_R_iff (a a' : Z) :
  eqm (modulus ctx) (a * mont_R ctx) (a' * mont_R ctx) <-> eqm (modulus ctx) a a'.
Proof.
  split; intros H.
  - apply (eqm_trans _ _ (a * mont_R ctx * mont_Rinv ctx)).
    { apply eqm_sym. apply (eqm_unit _ _ a). ring. }
    apply (eqm_trans _ _ (a' * mont_R ctx * mont_Rinv ctx)).
    { apply Zmult_eqm; [exact H | apply eqm_refl]. }
    apply (eqm_unit _ _ a'). ring.
  - apply Zmult_eqm; [exact H | apply eqm_refl].
Qed.

Lemma mont_set_is_zero (v : Z) :
  mont_is_zero (mont_set v ctx) ctx = (v mod modulus ctx =? 0).
Proof.
  pose proof (modulus_gt_2 ctx Hpf) as H2.
  unfold mont_is_zero, mont_set.
  destruct (Z.eqb_spec (v mod modulus ctx) 0) as [E|E].
  - apply Z.eqb_eq. rewrite Z.mul_mod, E, Z.mul_0_l by lia. apply Z.mod_0_l. lia.
  - apply Z.eqb_neq. intros F. apply E.
    apply (eqm_mul_R_iff v 0). rewrite Z.mul_0_l. unfold eqm.
    rewrite F. symmetry. apply Z.mod_0_l. lia.
Qed.

(** The on-curve test of [ec_ws_new_point], on Montgomery numbers, is
    the curve equation on the residues. *)
Lemma curve_check (xv yv bm : Z) :
  let ecp_x := mont_set xv ctx in
  let ecp_y := mont_set yv ctx in
  let wp_a := mont_mult ecp_y ecp_y ctx in
  let wp_c := mont_mult ecp_x ecp_x ctx in
  let wp_c := mont_mult wp_c ecp_x ctx in
  let wp_c := mont_sub wp_c ecp_x ctx in
  let wp_c := mont_sub wp_c ecp_x ctx in
  let wp_c := mont_sub wp_c ecp_x ctx in
  let wp_c := mont_add wp_c bm ctx in
  mont_is_equal wp_a wp_c ctx
  = ((yv * yv) mod modulus ctx
     =? (xv * xv * xv - 3 * xv + from_mont bm ctx) mod modulus ctx).
Proof.
  cbv zeta. unfold mont_is_equal.
  set (R := mont_R ctx). set (c := mont_Rinv ctx).
  assert (A : eqm (modulus ctx)
                (mont_mult (mont_set yv ctx) (mont_set yv ctx) ctx)
                (yv * yv * R)).
  { unfold mont_mult, mont_set, mulc. fold R c.
    apply (eqm_trans _ _ (yv * R * (yv * R) * c)); [strip_ok (modulus ctx)|].
    apply (eqm_unit _ _ (yv * yv * R)). fold R c. ring. }
  assert (C : eqm (modulus ctx)
                (mont_add (mont_sub (mont_sub (mont_sub
                   (mont_mult (mont_mult (mont_set xv ctx) (mont_set xv ctx) ctx)
                              (mont_set xv ctx) ctx)
                   (mont_set xv ctx) ctx) (mont_set xv ctx) ctx)
                   (mont_set xv ctx) ctx) bm ctx)
                ((xv * xv * xv - 3 * xv + from_mont bm ctx) * R)).
  { unfold mont_add, mont_sub, mont_mult, mont_set, from_mont, mulc. fold R c.
    apply (eqm_trans _ _ (xv * R * (xv * R) * c * (xv * R) * c
                          - xv * R - xv * R - xv * R + bm));
      [strip_ok (modulus ctx)|].
    apply (eqm_trans _ _ ((xv * xv * xv - 3 * xv + bm * c) * R));
      [|apply Zmult_eqm; [|apply eqm_refl];
        apply Zplus_eqm; [apply eqm_refl | apply eqm_sym; apply Zmod_eqm]].
    apply (eqm_unit _ _ (xv * xv * xv * R * (R * c + 1) - bm)). fold R c. ring. }
  unfold eqm in A, C.
  assert (Ea : mont_mult (mont_set yv ctx) (mont_set yv ctx) ctx mod modulus ctx
               = mont_mult (mont_set yv ctx) (mont_set yv ctx) ctx)
    by (apply Z.mod_mod; pose proof (modulus_gt_2 ctx Hpf); lia).
  rewrite Ea in A.
  match goal with
  | |- (_ =? ?w) = _ =>
      assert (Ec : w mod modulus ctx = w)
        by (apply Z.mod_mod; pose proof (modulus_gt_2 ctx Hpf); lia);
      rewrite Ec in C
  end.
  rewrite A, C.
  destruct (Z.eqb_spec ((yv * yv) mod modulus ctx)
              ((xv * xv * xv - 3 * xv + from_mont bm ctx) mod modulus ctx)) as [E|E].
  - apply Z.eqb_eq. apply (proj2 (eqm_mul_R_iff _ _)). exact E.
  - apply Z.eqb_neq. intros F. apply E. apply (proj1 (eqm_mul_R_iff _ _)). exact F.
Qed.

End PointConstruction.

(** C6. Point construction: for every prime-field context and inputs x,
    y of a valid length, when the allocator serves the call
    [ec_ws_new_point] returns 0 with the point-at-infinity (0, 1, 0) if
    (x, y) is (0, 0) in the field; for any other (x, y) it returns 0
    with the point (x, y, 1), in Montgomery form, exactly when
    y^2 = x^3 - 3x + b modulo p, and otherwise returns ERR_EC_POINT and
    leaves the output handle NULL. *)
Theorem new_point_spec (cp : EcContext_ptr) (xb yb : list byte) (len : nat)
  (h : heap) :
  let ctx := mont_ctx (target cp) in
  let p := modulus ctx in
  let xv := bytes_to_Z (firstn len xb) in
  let yv := bytes_to_Z (firstn len yb) in
  let bv := from_mont (b (target cp)) ctx in
  prime_field ctx -> (0 < len)%nat -> (len <= bytes ctx)%nat ->
  never_fails h = true ->
  fst (ec_ws_new_point true (Some xb) (Some yb) len (Some cp) h)
  = if (xv mod p =? 0) && (yv mod p =? 0) then
      Returns (OK, Live {| ec_ctx := cp; x := mont_set 0 ctx; y := mont_set 1 ctx;
                           z := mont_set 0 ctx |})
    else if (yv * yv) mod p =? (xv * xv * xv - 3 * xv + bv) mod p then
      Returns (OK, Live {| ec_ctx := cp; x := mont_set xv ctx; y := mont_set yv ctx;
                           z := mont_set 1 ctx |})
    else Returns (ERR_EC_POINT, Null).
Proof.
  intros ctx p xv yv bv Hpf Hlen Hmax Hh.
  apply succeeds_fst; [|exact Hh].
  unfold ec_ws_new_point. fold ctx.
  destruct (Nat.eqb_spec len 0) as [E|_]; [lia|].
  destruct (Nat.ltb_spec (bytes ctx) len) as [E|_]; [lia|].
  do 4 served. fold xv yv.
  rewrite !(mont_set_is_zero ctx Hpf). fold p.
  destruct ((xv mod p =? 0) && (yv mod p =? 0)); [apply succeeds_ret|].
  served.
  rewrite (curve_check ctx Hpf xv yv (b (target cp))). fold p bv.
  destruct ((yv * yv) mod p =? (xv * xv * xv - 3 * xv + bv) mod p);
    apply succeeds_ret.
Qed.

(** Point construction on the toy curve, at (1, 2), which is not on the
    curve. *)
Lemma new_point_spec_witness :
  fst (ec_ws_new_point true (Some [x01]) (Some [x02]) 1 (Some toy_curve) [])
  = Returns (ERR_EC_POINT, Null).
Proof.
  apply (new_point_spec toy_curve [x01] [x02] 1 []).
  - exact toy_prime_field.
  - lia.
  - cbn. lia.
  - reflexivity.
Defined.

(** ** Byte strings and word arrays *)

Lemma byte_to_Z_range (c : byte) : 0 <= byte_to_Z c < 256.
Proof.
  unfold byte_to_Z. pose proof (Byte.to_N_bounded c) as H.
  split; [apply N2Z.is_nonneg|]. apply N.lt_succ_r in H.
  change 256 with (Z.of_N 256). apply N2Z.inj_lt. exact H.
Qed.

Lemma byte_to_of_Z (v : Z) : byte_to_Z (byte_of_Z v) = v mod 256.
Proof.
  unfold byte_to_Z, byte_of_Z.
  pose proof (Z.mod_pos_bound v 256 eq_refl) as Hb.
  destruct (Byte.of_N (Z.to_N (v mod 256))) as [c|] eqn:E.
  - apply Byte.to_of_N in E. rewrite E. apply Z2N.id. lia.
  - apply Byte.of_N_None_iff in E. exfalso.
    apply N2Z.inj_lt in E. rewrite Z2N.id in E by lia. cbn in E. lia.
Qed.

Lemma bytes_to_Z_app (l : list byte) (c : byte) :
  bytes_to_Z (l ++ [c]) = bytes_to_Z l * 256 + byte_to_Z c.
Proof. unfold bytes_to_Z. rewrite fold_left_app. reflexivity. Qed.

Lemma bytes_to_Z_range (l : list byte) :
  0 <= bytes_to_Z l < 256 ^ Z.of_nat (length l).
Proof.
  induction l as [|c l IH] using rev_ind.
  - cbn. lia.
  - rewrite bytes_to_Z_app, length_app. cbn [length].
    replace (Z.of_nat (length l + 1)) with (Z.succ (Z.of_nat (length l))) by lia.
    rewrite Z.pow_succ_r by lia.
    pose proof (byte_to_Z_range c). nia.
Qed.

Lemma length_Z_to_bytes (n : nat) (v : Z) : length (Z_to_bytes n v) = n.
Proof.
  revert v. induction n as [|n IH]; intros v; [reflexivity|].
  cbn [Z_to_bytes]. rewrite length_app, IH. cbn. lia.
Qed.

Lemma bytes_to_Z_to_bytes (n : nat) (v : Z) :
  bytes_to_Z (Z_to_bytes n v) = v mod 256 ^ Z.of_nat n.
Proof.
  revert v. induction n as [|n IH]; intros v.
  - cbn. rewrite Z.mod_1_r. reflexivity.
  - cbn [Z_to_bytes]. rewrite bytes_to_Z_app, IH, byte_to_of_Z.
    replace (Z.of_nat (S n)) with (Z.succ (Z.of_nat n)) by lia.
    rewrite Z.pow_succ_r by lia.
    rewrite Z.rem_mul_r by (try apply Z.pow_pos_nonneg; lia). ring.
Qed.

Lemma length_Z_to_words (n : nat) (v : Z) : length (Z_to_words n v) = n.
Proof.
  revert v. induction n as [|n IH]; intros v; [reflexivity|].
  cbn [Z_to_words length]. rewrite IH. reflexivity.
Qed.

Lemma words_to_Z_to_words (n : nat) (v : Z) :
  words_to_Z (Z_to_words n v) = v mod 2 ^ (64 * Z.of_nat n).
Proof.
  revert v. induction n as [|n IH]; intros v.
  - cbn. rewrite Z.mod_1_r. reflexivity.
  - cbn [Z_to_words words_to_Z fold_right]. fold (words_to_Z (Z_to_words n (v / 2 ^ 64))).
    rewrite IH.
    replace (64 * Z.of_nat (S n)) with (64 + 64 * Z.of_nat n) by lia.
    rewrite Z.pow_add_r by lia.
    rewrite Z.rem_mul_r by (try apply Z.pow_pos_nonneg; lia). reflexivity.
Qed.

Lemma words_to_Z_range (l : list Z) :
  Forall (fun w => 0 <= w < 2 ^ 64) l ->
  0 <= words_to_Z l < 2 ^ (64 * Z.of_nat (length l)).
Proof.
  induction 1 as [|w l Hw Hl IH].
  - cbn. lia.
  - cbn [words_to_Z fold_right length]. fold (words_to_Z l).
    replace (64 * Z.of_nat (S (length l))) with (64 + 64 * Z.of_nat (length l)) by lia.
    rewrite Z.pow_add_r by lia. nia.
Qed.

Lemma Forall_firstn {A : Type} (Q : A -> Prop) (n : nat) (l : list A) :
  Forall Q l -> Forall Q (firstn n l).
Proof.
  intros H. revert n. induction H as [|a l Ha Hl IH]; intros [|n]; cbn; auto.
Qed.

Lemma pow256 (n : nat) : 256 ^ Z.of_nat n = 2 ^ (8 * Z.of_nat n).
Proof. change 256 with (2 ^ 8). rewrite <- Z.pow_mul_r by lia. reflexivity. Qed.

(** ** Scalar blinding *)

(** The blinded scalar fits the words reserved for it. *)
Lemma blind_bound (scalar : list byte) (scalar_len : nat) (R_seed : Z)
  (order : list Z) (order_words : nat) :
  0 <= R_seed < 2 ^ 32 ->
  Forall (fun w => 0 <= w < 2 ^ 64) order ->
  let k := bytes_to_Z (firstn scalar_len scalar) in
  let n := words_to_Z (firstn order_words order) in
  let m := Nat.max order_words ((scalar_len + 7) / 8) in
  0 <= k < 2 ^ (64 * Z.of_nat m) /\
  0 <= k + n * (R_seed + 2 ^ 64 * 0) < 2 ^ (64 * Z.of_nat (m + 2)).
Proof.
  intros HR Ho k n m.
  assert (Hk : 0 <= k < 2 ^ (64 * Z.of_nat m)).
  { pose proof (bytes_to_Z_range (firstn scalar_len scalar)) as Hb.
    fold k in Hb. rewrite pow256 in Hb.
    split; [lia|]. eapply Z.lt_le_trans; [apply Hb|].
    apply Z.pow_le_mono_r; [lia|].
    pose proof (length_firstn scalar_len scalar) as L.
    pose proof (Nat.div_mod_eq (scalar_len + 7) 8) as D.
    pose proof (Nat.mod_upper_bound (scalar_len + 7) 8) as U.
    subst m. lia. }
  assert (Hn : 0 <= n < 2 ^ (64 * Z.of_nat m)).
  { pose proof (words_to_Z_range (firstn order_words order)
                  (Forall_firstn _ order_words order Ho)) as Hb.
    fold n in Hb. split; [lia|]. eapply Z.lt_le_trans; [apply Hb|].
    apply Z.pow_le_mono_r; [lia|].
    pose proof (length_firstn order_words order) as L. subst m. lia. }
  split; [exact Hk|].
  replace (64 * Z.of_nat (m + 2)) with (64 * Z.of_nat m + 128) by lia.
  rewrite Z.pow_add_r by lia.
  assert (0 < 2 ^ (64 * Z.of_nat m)) by (apply Z.pow_pos_nonneg; lia).
  change (2 ^ 128) with 340282366920938463463374607431768211456.
  change (2 ^ 32) with 4294967296 in HR.
  nia.
Qed.

(** C9. Scalar blinding: for every scalar k of [scalar_len] bytes, order
    n of [order_words] 64-bit words and 32-bit factor R,
    [blind_scalar_factor] returns 0 when the allocator serves it, and
    whenever it returns 0 its output is a byte string of exactly
    max(order_words, scalar_words) + 2 words whose big-endian value is
    k + R * n. *)
Theorem blind_scalar_factor_spec (scalar : list byte) (scalar_len : nat)
  (R_seed : Z) (order : list Z) (order_words : nat) (h : heap) :
  0 <= R_seed < 2 ^ 32 ->
  Forall (fun w => 0 <= w < 2 ^ 64) order ->
  let k := bytes_to_Z (firstn scalar_len scalar) in
  let n := words_to_Z (firstn order_words order) in
  let scalar_words := ((scalar_len + 7) / 8)%nat in
  let nwords := (Nat.max order_words scalar_words + 2)%nat in
  let r := fst (blind_scalar_factor scalar scalar_len R_seed order order_words h) in
  (never_fails h = true -> fst (fst r) = OK) /\
  (fst (fst r) = OK ->
   exists blind_scalar,
     r = (OK, Some blind_scalar, (nwords * 8)%nat)
     /\ length blind_scalar = (nwords * 8)%nat
     /\ bytes_to_Z blind_scalar = k + R_seed * n).
Proof.
  intros HR Ho k n scalar_words nwords r.
  pose proof (blind_bound scalar scalar_len R_seed order order_words HR Ho) as B.
  cbv zeta in B. fold k n scalar_words in B. destruct B as [Bk Bv].
  assert (Enw : Nat.max (order_words + 2) (scalar_words + 2) = nwords)
    by (subst nwords; lia).
  assert (Ok_case :
    forall h', blind_scalar_factor scalar scalar_len R_seed order order_words
                 (true :: true :: h') =
      (OK, Some (Z_to_bytes (nwords * 8) (k + n * (R_seed + 2 ^ 64 * 0))),
       (nwords * 8)%nat, h')).
  { intros h'. unfold blind_scalar_factor, bind, ret. cbn [calloc negb].
    fold scalar_words. rewrite Enw.
    unfold words_to_bytes, addmul128, bytes_to_words. fold k n.
    rewrite length_Z_to_words.
    rewrite (firstn_length_eq _ _ (length_Z_to_words _ _)).
    rewrite !words_to_Z_to_words.
    rewrite (Z.mod_small k).
    2:{ split; [lia|]. eapply Z.lt_le_trans; [apply Bk|].
        apply Z.pow_le_mono_r; lia. }
    fold nwords in Bv. rewrite (Z.mod_small _ _ Bv). reflexivity. }
  assert (Value : exists blind_scalar,
     (OK, Some (Z_to_bytes (nwords * 8) (k + n * (R_seed + 2 ^ 64 * 0))),
      (nwords * 8)%nat) = (OK, Some blind_scalar, (nwords * 8)%nat)
     /\ length blind_scalar = (nwords * 8)%nat
     /\ bytes_to_Z blind_scalar = k + R_seed * n).
  { eexists. split; [reflexivity|]. split; [apply length_Z_to_bytes|].
    rewrite bytes_to_Z_to_bytes, pow256.
    replace (8 * Z.of_nat (nwords * 8)) with (64 * Z.of_nat nwords) by lia.
    rewrite Z.mod_small by exact Bv. ring. }
  subst r.
  assert (E0 : blind_scalar_factor scalar scalar_len R_seed order order_words []
               = (OK, Some (Z_to_bytes (nwords * 8) (k + n * (R_seed + 2 ^ 64 * 0))),
                  (nwords * 8)%nat, [])) by (rewrite <- (Ok_case []); reflexivity).
  assert (E1 : blind_scalar_factor scalar scalar_len R_seed order order_words [true]
               = (OK, Some (Z_to_bytes (nwords * 8) (k + n * (R_seed + 2 ^ 64 * 0))),
                  (nwords * 8)%nat, [])) by (rewrite <- (Ok_case []); reflexivity).
  destruct h as [|[|] h1].
  - rewrite E0. cbn [fst]. split; [reflexivity | intros _; exact Value].
  - destruct h1 as [|[|] h'].
    + rewrite E1. cbn [fst]. split; [reflexivity | intros _; exact Value].
    + rewrite Ok_case. cbn [fst]. split; [reflexivity | intros _; exact Value].
    + split; cbn; discriminate.
  - split; cbn; discriminate.
Qed.

(** The blinding at work: 5 + 3 * 6 on three words. *)
Lemma blind_scalar_factor_witness :
  let r := fst (blind_scalar_factor [x05] 1 3 [6] 1 []) in
  (never_fails [] = true -> fst (fst r) = OK) /\
  (fst (fst r) = OK ->
   exists blind_scalar,
     r = (OK, Some blind_scalar, 24%nat)
     /\ length blind_scalar = 24%nat
     /\ bytes_to_Z blind_scalar = 5 + 3 * 6).
Proof.
  apply (blind_scalar_factor_spec [x05] 1 3 [6] 1 []).
  - lia.
  - repeat constructor; lia.
Defined.

(** ** Failure paths *)

(** On the fast path, a scalar with more windows than the table has
    subtables makes [ec_ws_scalar] fail after the point has been set to
    the point-at-infinity. *)
Lemma fast_path_window_overflow (tbl : P256Table)
  (expand_seed : Z -> nat -> list byte) (P : EcPoint) (k : list byte)
  (len : nat) (seed : Z) :
  fast_path P = true -> len <> 0%nat ->
  (p256_n_tables tbl
   < rl_nr_windows (init_bit_window_rl (p256_window_size tbl)
                      (skip_leading_zeroes (firstn len k))))%nat ->
  succeeds (ec_ws_scalar tbl expand_seed (Some P) (Some k) len seed)
    (Returns (ERR_VALUE,
              Some {| ec_ctx := ec_ctx P; x := mont_set 0 (field_of P);
                      y := mont_set 1 (field_of P); z := mont_set 0 (field_of P) |})).
Proof.
  intros Hfp Hlen Hw. unfold ec_ws_scalar.
  destruct (Nat.eqb_spec len 0) as [E|_]; [contradiction|].
  do 2 served.
  unfold fast_path, field_of in Hfp. rewrite Hfp.
  unfold ec_scalar_g_p256.
  apply Nat.ltb_lt in Hw. rewrite Hw. apply succeeds_ret.
Qed.

(** [blind_scalar_factor] on a heap that serves every request. *)
Lemma succeeds_blind_scalar_factor (scalar : list byte) (scalar_len : nat) (R_seed : Z)
  (order : list Z) (order_words : nat) :
  let nw := Nat.max (order_words + 2) ((scalar_len + 7) / 8 + 2) in
  succeeds (blind_scalar_factor scalar scalar_len R_seed order order_words)
    (OK,
     Some (words_to_bytes (nw * 8)
             (addmul128 (bytes_to_words nw scalar scalar_len) order R_seed 0 order_words)
             nw),
     (nw * 8)%nat).
Proof. intros nw. unfold blind_scalar_factor. do 2 served. apply succeeds_ret. Qed.

Lemma returns_bind {A B : Type} (m : M A) (f : A -> M (outcome B)) (a : A) :
  succeeds m a -> (exists r, succeeds (f a) (Returns r)) ->
  exists r, succeeds (bind m f) (Returns r).
Proof.
  intros Hm [r Hr]. exists r. eapply succeeds_bind; [exact Hm | exact Hr].
Qed.

(** On a heap that serves every request [ec_ws_scalar] returns. *)
Lemma ec_ws_scalar_returns (tbl : P256Table) (expand_seed : Z -> nat -> list byte)
  (P : EcPoint) (k : option (list byte)) (len : nat) (seed : Z) (h : heap) :
  never_fails h = true ->
  exists r, fst (ec_ws_scalar tbl expand_seed (Some P) k len seed h) = Returns r.
Proof.
  intros Hh.
  assert (S : exists r, succeeds (ec_ws_scalar tbl expand_seed (Some P) k len seed)
                          (Returns r));
    [|destruct S as [r S]; exists r; apply succeeds_fst; assumption].
  unfold ec_ws_scalar.
  destruct k as [k|]; [|eexists; apply succeeds_ret].
  destruct (len =? 0)%nat; [eexists; apply succeeds_ret|].
  apply (returns_bind _ _ true); [apply succeeds_new_workplace|]. cbn [negb].
  apply (returns_bind _ _ true); [apply succeeds_new_workplace|]. cbn [negb].
  destruct (ModulusType_eqb _ _ && is_generator P).
  - destruct (ec_scalar_g_p256 _ _ _ _ _ _) as [r [[x3 y3] z3]].
    eexists. apply succeeds_ret.
  - destruct (negb (seed =? 0)).
    + apply (returns_bind _ _ OK); [apply succeeds_mont_number|].
      cbn [negb is_err retcode_eqb].
      eapply returns_bind; [apply succeeds_blind_scalar_factor|].
      cbn beta iota delta [negb is_err retcode_eqb].
      eapply returns_bind; [apply succeeds_ec_scalar|]. cbv beta iota zeta.
      match goal with
      | |- context [ec_scalar_loop ?a1 ?a2 ?a3 ?a4 ?a5 ?a6 ?a7 ?a8] =>
          destruct (ec_scalar_loop a1 a2 a3 a4 a5 a6 a7 a8) as [[x3 y3] z3]
      end.
      eexists. apply succeeds_ret.
    + eapply returns_bind; [apply succeeds_ec_scalar|]. cbv beta iota zeta.
      match goal with
      | |- context [ec_scalar_loop ?a1 ?a2 ?a3 ?a4 ?a5 ?a6 ?a7 ?a8] =>
          destruct (ec_scalar_loop a1 a2 a3 a4 a5 a6 a7 a8) as [[x3 y3] z3]
      end.
      eexists. apply succeeds_ret.
Qed.




(** On the generator fast path the point is lost as well: the P-256
    generator G times the 33-byte scalar 2^256, with the comb of 52
    subtables for windows of 5 bits, returns ERR_VALUE and leaves the
    point-at-infinity (0, 1, 0) in place of G. *)
Lemma fast_path_overflow_p256 (tables g : list (list (Z * Z)))
  (expand_seed : Z -> nat -> list byte) (seed : Z) (h : heap) :
  never_fails h = true ->
  fst (ec_ws_scalar (mkP256Table 5 52 32 tables) expand_seed (Some (p256_G g))
         (Some scalar_2_256) 33 seed h)
  = Returns (ERR_VALUE, Some {| ec_ctx := p256_curve g; x := 0;
                                y := mont_set 1 p256_field; z := 0 |}).
Proof.
  intros Hh. apply succeeds_fst; [|exact Hh].
  apply (fast_path_window_overflow (mkP256Table 5 52 32 tables) expand_seed
           (p256_G g) scalar_2_256 33 seed).
  - vm_compute; reflexivity.
  - discriminate.
  - vm_compute. lia.
Qed.


(** C8, at the input where it fails.  With a NULL order and the other
    pointers set, [ec_ws_new_context] never returns ERR_NULL: it returns
    ERR_NOT_ENOUGH_DATA for a zero length and otherwise goes on to
    allocate and build the context, up to the read through the NULL
    order. *)
Theorem new_context_null_order (tbl : P256Table) (modulus b : list byte)
  (len : nat) (seed : Z) (h : heap) :
  (forall hd, fst (ec_ws_new_context tbl true (Some modulus) (Some b) None len seed h)
              <> Returns (ERR_NULL, hd)) /\
  fst (ec_ws_new_context tbl true (Some modulus) (Some b) None 0 seed h)
    = Returns (ERR_NOT_ENOUGH_DATA, Null) /\
  fst (ec_ws_new_context tbl true (Some modulus) (Some b) None (S len) seed [])
    = Undefined.
Proof.
  split; [|split; reflexivity].
  intros hd. unfold ec_ws_new_context.
  destruct len as [|len]; [cbn; discriminate|].
  cbn [Nat.eqb].
  unfold bind, ret, mont_context_init, mont_from_bytes, bind, ret.
  destruct h as [|[|] h1]; cbn [calloc negb is_err retcode_eqb fst];
    try discriminate.
  destruct h1 as [|[|] h2]; cbn [calloc negb is_err retcode_eqb fst];
    try discriminate.
  destruct h2 as [|[|] h3]; cbn [calloc negb is_err retcode_eqb fst];
    try discriminate.
  destruct h3 as [|[|] h4]; cbn [calloc negb is_err retcode_eqb fst];
    discriminate.
Qed.

(* ------------------------------------------------------------------ *)
(** * Further properties of the engine *)

(** ** The formulae stay on the curve

    With H(X, Y, Z) = Y^2 Z - (X^3 - 3 X Z^2 + b Z^3), the outputs of the
    doubling and addition formulae satisfy H(2P) = K * H(P) and
    H(P1 + P2) = K1 * H(P1) + K2 * H(P2) for polynomials K, K1, K2 in the
    inputs and in c = R^-1, the constant of the Montgomery product: the
    identities hold over the integers, whatever the modulus. *)

Lemma eqm_close2 (p a a' k1 l1 r1 k2 l2 r2 : Z) :
  eqm p l1 r1 -> eqm p l2 r2 ->
  a - a' = k1 * (l1 - r1) + k2 * (l2 - r2) -> eqm p a a'.
Proof.
  intros H1 H2 E.
  apply (eqm_close p a a' 1 (k1 * l1 + k2 * l2) (k1 * r1 + k2 * r2)).
  - apply Zplus_eqm; (apply Zmult_eqm; [apply eqm_refl | assumption]).
  - rewrite E. ring.
Qed.

(** The formulae and the curve equation as expressions in the field
    operations. *)
Ltac curve_unfold :=
  cbv beta zeta iota delta [ec_full_add ec_full_double on_curve mont_is_equal
                            mont_add mont_sub mont_mult mont_copy mulc] in *.

(** [ec_full_double] keeps the curve equation. *)
Lemma full_double_on_curve (x1 y1 z1 b : Z) (ctx : MontContext) :
  on_curve x1 y1 z1 b ctx = true ->
  let '(x3, y3, z3) := ec_full_double x1 y1 z1 b ctx in
  on_curve x3 y3 z3 b ctx = true.
Proof.
  intros H. unfold on_curve, mont_is_equal in H. apply Z.eqb_eq in H.
  curve_unfold. apply Z.eqb_eq.
  strip_goal (modulus ctx). strip_in (modulus ctx) H.
  set (c := mont_Rinv ctx) in *.
  apply (eqm_close _ _ _
    (- 648 * x1^5 * y1^3 * z1 * c^9 + 2592 * x1^4 * y1^3 * z1^2 * b * c^10 -
     2592 * x1^3 * y1^3 * z1^3 * b^2 * c^11 - 3888 * x1^3 * y1^3 * z1^3 * c^9
     + 1296 * x1^2 * y1^5 * z1^2 * c^9 + 9072 * x1^2 * y1^3 * z1^4 * b * c^10
     + 360 * x1 * y1^7 * z1 * c^9 - 1296 * x1 * y1^5 * z1^3 * b * c^10 + 648 *
     x1 * y1^3 * z1^5 * b^2 * c^11 - 13608 * x1 * y1^3 * z1^5 * c^9 + 8 * y1^9
     * c^9 - 504 * y1^7 * z1^2 * b * c^10 - 648 * y1^5 * z1^4 * b^2 * c^11 +
     3888 * y1^5 * z1^4 * c^9 - 648 * y1^3 * z1^6 * b^3 * c^12 + 3888 * y1^3 *
     z1^6 * b * c^10)
    _ _ H).
  ring.
Qed.

(** [ec_full_add] keeps the curve equation. *)
Lemma full_add_on_curve (x1 y1 z1 x2 y2 z2 b : Z) (ctx : MontContext) :
  on_curve x1 y1 z1 b ctx = true ->
  on_curve x2 y2 z2 b ctx = true ->
  let '(x3, y3, z3) := ec_full_add x1 y1 z1 x2 y2 z2 b ctx in
  on_curve x3 y3 z3 b ctx = true.
Proof.
  intros H1 H2.
  unfold on_curve, mont_is_equal in H1, H2. apply Z.eqb_eq in H1, H2.
  curve_unfold. apply Z.eqb_eq.
  strip_goal (modulus ctx). strip_in (modulus ctx) H1. strip_in (modulus ctx) H2.
  set (c := mont_Rinv ctx) in *.
  apply (eqm_close2 _ _ _
    (- 243 * x1^3 * x2^5 * y2 * c^9 + 486 * x1^3 * x2^4 * y2 * z2 * b * c^10 +
     27 * x1^3 * x2^3 * y2^3 * b * c^10 - 243 * x1^3 * x2^3 * y2 * z2^2 * b^2
     * c^11 - 486 * x1^3 * x2^3 * y2 * z2^2 * c^9 - 81 * x1^3 * x2^2 * y2^3 *
     z2 * c^9 + 486 * x1^3 * x2^2 * y2 * z2^3 * b * c^10 - 243 * x1^3 * x2 *
     y2 * z2^4 * c^9 + 27 * x1^3 * y2^3 * z2^3 * c^9 - 243 * x1^2 * x2^6 * y1
     * c^9 + 486 * x1^2 * x2^5 * y1 * z2 * b * c^10 + 486 * x1^2 * x2^5 * z1 *
     y2 * b * c^10 + 81 * x1^2 * x2^4 * y1 * y2^2 * b * c^10 - 243 * x1^2 *
     x2^4 * y1 * z2^2 * b^2 * c^11 - 243 * x1^2 * x2^4 * y1 * z2^2 * c^9 - 486
     * x1^2 * x2^4 * z1 * y2 * z2 * b^2 * c^11 - 1458 * x1^2 * x2^4 * z1 * y2
     * z2 * c^9 - 324 * x1^2 * x2^3 * y1 * y2^2 * z2 * c^9 - 162 * x1^2 * x2^3
     * z1 * y2^3 * c^9 + 1944 * x1^2 * x2^3 * z1 * y2 * z2^2 * b * c^10 - 27 *
     x1^2 * x2^2 * y1 * y2^4 * c^9 + 243 * x1^2 * x2^2 * y1 * z2^4 * b^2 *
     c^11 + 243 * x1^2 * x2^2 * y1 * z2^4 * c^9 - 972 * x1^2 * x2^2 * z1 * y2
     * z2^3 * c^9 + 324 * x1^2 * x2 * y1 * y2^2 * z2^3 * c^9 - 486 * x1^2 * x2
     * y1 * z2^5 * b * c^10 + 486 * x1^2 * x2 * z1 * y2^3 * z2^2 * c^9 - 486 *
     x1^2 * x2 * z1 * y2 * z2^4 * b * c^10 + 27 * x1^2 * y1 * y2^4 * z2^2 *
     c^9 - 81 * x1^2 * y1 * y2^2 * z2^4 * b * c^10 + 243 * x1^2 * y1 * z2^6 *
     c^9 - 162 * x1^2 * z1 * y2^3 * z2^3 * b * c^10 + 486 * x1^2 * z1 * y2 *
     z2^5 * c^9 + 486 * x1 * x2^6 * y1 * z1 * b * c^10 + 81 * x1 * x2^5 * y1^2
     * y2 * b * c^10 - 486 * x1 * x2^5 * y1 * z1 * z2 * b^2 * c^11 - 1458 * x1
     * x2^5 * y1 * z1 * z2 * c^9 - 243 * x1 * x2^5 * z1^2 * y2 * b^2 * c^11 -
     972 * x1 * x2^5 * z1^2 * y2 * c^9 - 486 * x1 * x2^4 * y1^2 * y2 * z2 *
     c^9 - 486 * x1 * x2^4 * y1 * z1 * y2^2 * c^9 + 1215 * x1 * x2^4 * y1 * z1
     * z2^2 * b * c^10 + 2673 * x1 * x2^4 * z1^2 * y2 * z2 * b * c^10 - 27 *
     x1 * x2^3 * y1^2 * y2^3 * c^9 + 162 * x1 * x2^3 * y1^2 * y2 * z2^2 * b *
     c^10 + 162 * x1 * x2^3 * y1 * z1 * y2^2 * z2 * b * c^10 + 972 * x1 * x2^3
     * y1 * z1 * z2^3 * b^2 * c^11 + 972 * x1 * x2^3 * y1 * z1 * z2^3 * c^9 +
     81 * x1 * x2^3 * z1^2 * y2^3 * b * c^10 - 486 * x1 * x2^3 * z1^2 * y2 *
     z2^2 * b^2 * c^11 - 27 * x1 * x2^2 * y1^2 * y2^3 * z2 * b * c^10 - 81 *
     x1 * x2^2 * y1^2 * y2 * z2^3 * b^2 * c^11 + 648 * x1 * x2^2 * y1^2 * y2 *
     z2^3 * c^9 + 27 * x1 * x2^2 * y1 * z1 * y2^4 * b * c^10 + 1944 * x1 *
     x2^2 * y1 * z1 * y2^2 * z2^2 * c^9 - 243 * x1 * x2^2 * y1 * z1 * z2^4 *
     b^3 * c^12 - 3888 * x1 * x2^2 * y1 * z1 * z2^4 * b * c^10 + 81 * x1 *
     x2^2 * z1^2 * y2^3 * z2 * b^2 * c^11 + 648 * x1 * x2^2 * z1^2 * y2^3 * z2
     * c^9 + 243 * x1 * x2^2 * z1^2 * y2 * z2^3 * b^3 * c^12 - 4374 * x1 *
     x2^2 * z1^2 * y2 * z2^3 * b * c^10 + 189 * x1 * x2 * y1^2 * y2^3 * z2^2 *
     c^9 - 243 * x1 * x2 * y1^2 * y2 * z2^4 * b * c^10 + 162 * x1 * x2 * y1 *
     z1 * y2^4 * z2 * c^9 - 1458 * x1 * x2 * y1 * z1 * y2^2 * z2^3 * b * c^10
     + 972 * x1 * x2 * y1 * z1 * z2^5 * b^2 * c^11 + 2430 * x1 * x2 * y1 * z1
     * z2^5 * c^9 - 1215 * x1 * x2 * z1^2 * y2^3 * z2^2 * b * c^10 + 729 * x1
     * x2 * z1^2 * y2 * z2^4 * b^2 * c^11 + 4860 * x1 * x2 * z1^2 * y2 * z2^4
     * c^9 + 9 * x1 * y1^2 * y2^5 * z2 * c^9 - 54 * x1 * y1^2 * y2^3 * z2^3 *
     b * c^10 + 81 * x1 * y1^2 * y2 * z2^5 * b^2 * c^11 - 162 * x1 * y1^2 * y2
     * z2^5 * c^9 - 108 * x1 * y1 * z1 * y2^4 * z2^2 * b * c^10 + 324 * x1 *
     y1 * z1 * y2^2 * z2^4 * b^2 * c^11 - 162 * x1 * y1 * z1 * y2^2 * z2^4 *
     c^9 - 729 * x1 * y1 * z1 * z2^6 * b * c^10 + 324 * x1 * z1^2 * y2^3 *
     z2^3 * b^2 * c^11 - 1215 * x1 * z1^2 * y2 * z2^5 * b * c^10 + 27 * x2^6 *
     y1^3 * b * c^10 - 243 * x2^6 * y1 * z1^2 * b^2 * c^11 - 1215 * x2^6 * y1
     * z1^2 * c^9 - 162 * x2^5 * y1^3 * z2 * c^9 - 567 * x2^5 * y1^2 * z1 * y2
     * c^9 + 3402 * x2^5 * y1 * z1^2 * z2 * b * c^10 + 1701 * x2^5 * z1^3 * y2
     * b * c^10 - 27 * x2^4 * y1^3 * y2^2 * c^9 + 648 * x2^4 * y1^2 * z1 * y2
     * z2 * b * c^10 + 405 * x2^4 * y1 * z1^2 * y2^2 * b * c^10 - 486 * x2^4 *
     y1 * z1^2 * z2^2 * b^2 * c^11 + 729 * x2^4 * y1 * z1^2 * z2^2 * c^9 - 972
     * x2^4 * z1^3 * y2 * z2 * b^2 * c^11 - 3402 * x2^4 * z1^3 * y2 * z2 * c^9
     + 540 * x2^3 * y1^3 * z2^3 * c^9 + 27 * x2^3 * y1^2 * z1 * y2^3 * b *
     c^10 - 243 * x2^3 * y1^2 * z1 * y2 * z2^2 * b^2 * c^11 + 1458 * x2^3 *
     y1^2 * z1 * y2 * z2^2 * c^9 + 972 * x2^3 * y1 * z1^2 * y2^2 * z2 * c^9 -
     9720 * x2^3 * y1 * z1^2 * z2^3 * b * c^10 - 27 * x2^3 * z1^3 * y2^3 * b^2
     * c^11 + 54 * x2^3 * z1^3 * y2^3 * c^9 + 243 * x2^3 * z1^3 * y2 * z2^2 *
     b^3 * c^12 - 3402 * x2^3 * z1^3 * y2 * z2^2 * b * c^10 + 162 * x2^2 *
     y1^3 * y2^2 * z2^2 * c^9 - 405 * x2^2 * y1^3 * z2^4 * b * c^10 + 459 *
     x2^2 * y1^2 * z1 * y2^3 * z2 * c^9 - 1782 * x2^2 * y1^2 * z1 * y2 * z2^3
     * b * c^10 - 27 * x2^2 * y1 * z1^2 * y2^4 * c^9 - 3888 * x2^2 * y1 * z1^2
     * y2^2 * z2^2 * b * c^10 + 5346 * x2^2 * y1 * z1^2 * z2^4 * b^2 * c^11 +
     8991 * x2^2 * y1 * z1^2 * z2^4 * c^9 - 1539 * x2^2 * z1^3 * y2^3 * z2 * b
     * c^10 + 3402 * x2^2 * z1^3 * y2 * z2^3 * b^2 * c^11 + 10692 * x2^2 *
     z1^3 * y2 * z2^3 * c^9 + 18 * x2 * y1^3 * y2^4 * z2 * c^9 - 108 * x2 *
     y1^3 * y2^2 * z2^3 * b * c^10 + 162 * x2 * y1^3 * z2^5 * b^2 * c^11 - 162
     * x2 * y1^3 * z2^5 * c^9 - 540 * x2 * y1^2 * z1 * y2^3 * z2^2 * b * c^10
     + 972 * x2 * y1^2 * z1 * y2 * z2^4 * b^2 * c^11 - 567 * x2 * y1^2 * z1 *
     y2 * z2^4 * c^9 - 324 * x2 * y1 * z1^2 * y2^4 * z2 * b * c^10 + 1944 * x2
     * y1 * z1^2 * y2^2 * z2^3 * b^2 * c^11 + 1620 * x2 * y1 * z1^2 * y2^2 *
     z2^3 * c^9 - 972 * x2 * y1 * z1^2 * z2^5 * b^3 * c^12 - 5346 * x2 * y1 *
     z1^2 * z2^5 * b * c^10 + 972 * x2 * z1^3 * y2^3 * z2^2 * b^2 * c^11 +
     2430 * x2 * z1^3 * y2^3 * z2^2 * c^9 - 972 * x2 * z1^3 * y2 * z2^4 * b^3
     * c^12 - 7047 * x2 * z1^3 * y2 * z2^4 * b * c^10 + y1^3 * y2^6 * c^9 - 9
     * y1^3 * y2^4 * z2^2 * b * c^10 + 27 * y1^3 * y2^2 * z2^4 * b^2 * c^11 -
     27 * y1^3 * y2^2 * z2^4 * c^9 - 27 * y1^3 * z2^6 * b^3 * c^12 + 54 * y1^3
     * z2^6 * b * c^10 - 18 * y1^2 * z1 * y2^5 * z2 * b * c^10 + 108 * y1^2 *
     z1 * y2^3 * z2^3 * b^2 * c^11 + 135 * y1^2 * z1 * y2^3 * z2^3 * c^9 - 162
     * y1^2 * z1 * y2 * z2^5 * b^3 * c^12 + 162 * y1^2 * z1 * y2 * z2^5 * b *
     c^10 + 108 * y1 * z1^2 * y2^4 * z2^2 * b^2 * c^11 + 243 * y1 * z1^2 *
     y2^4 * z2^2 * c^9 - 324 * y1 * z1^2 * y2^2 * z2^4 * b^3 * c^12 - 405 * y1
     * z1^2 * y2^2 * z2^4 * b * c^10 + 1215 * y1 * z1^2 * z2^6 * b^2 * c^11 -
     729 * y1 * z1^2 * z2^6 * c^9 - 216 * z1^3 * y2^3 * z2^3 * b^3 * c^12 -
     729 * z1^3 * y2^3 * z2^3 * b * c^10 + 1944 * z1^3 * y2 * z2^5 * b^2 *
     c^11 - 1458 * z1^3 * y2 * z2^5 * c^9)
    _ _
    (- 324 * x1^2 * x2^3 * y1^3 * z1 * c^9 + 2187 * x1^2 * x2^3 * y1 * z1^3 *
     b * c^10 - 27 * x1^2 * x2^2 * y1^4 * y2 * c^9 + 486 * x1^2 * x2^2 * y1^3
     * z1 * z2 * b * c^10 + 729 * x1^2 * x2^2 * y1^2 * z1^2 * y2 * b * c^10 -
     1944 * x1^2 * x2^2 * y1 * z1^3 * z2 * b^2 * c^11 - 5346 * x1^2 * x2^2 *
     y1 * z1^3 * z2 * c^9 - 972 * x1^2 * x2^2 * z1^4 * y2 * b^2 * c^11 - 2673
     * x1^2 * x2^2 * z1^4 * y2 * c^9 + 27 * x1^2 * x2 * y1^4 * y2 * z2 * b *
     c^10 + 54 * x1^2 * x2 * y1^3 * z1 * y2^2 * b * c^10 - 162 * x1^2 * x2 *
     y1^3 * z1 * z2^2 * b^2 * c^11 - 324 * x1^2 * x2 * y1^3 * z1 * z2^2 * c^9
     - 486 * x1^2 * x2 * y1^2 * z1^2 * y2 * z2 * b^2 * c^11 - 972 * x1^2 * x2
     * y1^2 * z1^2 * y2 * z2 * c^9 - 162 * x1^2 * x2 * y1 * z1^3 * y2^2 * b^2
     * c^11 - 810 * x1^2 * x2 * y1 * z1^3 * y2^2 * c^9 + 486 * x1^2 * x2 * y1
     * z1^3 * z2^2 * b^3 * c^12 + 4617 * x1^2 * x2 * y1 * z1^3 * z2^2 * b *
     c^10 + 243 * x1^2 * x2 * z1^4 * y2 * z2 * b^3 * c^12 + 5589 * x1^2 * x2 *
     z1^4 * y2 * z2 * b * c^10 - 27 * x1^2 * y1^4 * y2 * z2^2 * c^9 - 108 *
     x1^2 * y1^3 * z1 * y2^2 * z2 * c^9 + 162 * x1^2 * y1^3 * z1 * z2^3 * b *
     c^10 - 81 * x1^2 * y1^2 * z1^2 * y2^3 * c^9 + 729 * x1^2 * y1^2 * z1^2 *
     y2 * z2^2 * b * c^10 + 729 * x1^2 * y1 * z1^3 * y2^2 * z2 * b * c^10 -
     1215 * x1^2 * y1 * z1^3 * z2^3 * b^2 * c^11 + 486 * x1^2 * y1 * z1^3 *
     z2^3 * c^9 - 1701 * x1^2 * z1^4 * y2 * z2^2 * b^2 * c^11 + 243 * x1^2 *
     z1^4 * y2 * z2^2 * c^9 + 567 * x1 * x2^3 * y1^3 * z1^2 * b * c^10 - 1215
     * x1 * x2^3 * y1 * z1^4 * b^2 * c^11 - 3888 * x1 * x2^3 * y1 * z1^4 * c^9
     + 81 * x1 * x2^2 * y1^4 * z1 * y2 * b * c^10 - 486 * x1 * x2^2 * y1^3 *
     z1^2 * z2 * b^2 * c^11 - 1458 * x1 * x2^2 * y1^3 * z1^2 * z2 * c^9 - 324
     * x1 * x2^2 * y1^2 * z1^3 * y2 * b^2 * c^11 - 2349 * x1 * x2^2 * y1^2 *
     z1^3 * y2 * c^9 + 486 * x1 * x2^2 * y1 * z1^4 * z2 * b^3 * c^12 + 11178 *
     x1 * x2^2 * y1 * z1^4 * z2 * b * c^10 + 243 * x1 * x2^2 * z1^5 * y2 * b^3
     * c^12 + 5589 * x1 * x2^2 * z1^5 * y2 * b * c^10 - 324 * x1 * x2 * y1^4 *
     z1 * y2 * z2 * c^9 - 378 * x1 * x2 * y1^3 * z1^2 * y2^2 * c^9 + 1701 * x1
     * x2 * y1^3 * z1^2 * z2^2 * b * c^10 + 3645 * x1 * x2 * y1^2 * z1^3 * y2
     * z2 * b * c^10 + 1458 * x1 * x2 * y1 * z1^4 * y2^2 * b * c^10 - 5589 *
     x1 * x2 * y1 * z1^4 * z2^2 * b^2 * c^11 - 3888 * x1 * x2 * y1 * z1^4 *
     z2^2 * c^9 - 4617 * x1 * x2 * z1^5 * y2 * z2 * b^2 * c^11 - 7776 * x1 *
     x2 * z1^5 * y2 * z2 * c^9 - 9 * x1 * y1^4 * z1 * y2^3 * c^9 + 81 * x1 *
     y1^4 * z1 * y2 * z2^2 * b * c^10 + 189 * x1 * y1^3 * z1^2 * y2^2 * z2 * b
     * c^10 - 81 * x1 * y1^3 * z1^2 * z2^3 * b^2 * c^11 - 810 * x1 * y1^3 *
     z1^2 * z2^3 * c^9 + 81 * x1 * y1^2 * z1^3 * y2^3 * b * c^10 - 405 * x1 *
     y1^2 * z1^3 * y2 * z2^2 * b^2 * c^11 - 2025 * x1 * y1^2 * z1^3 * y2 *
     z2^2 * c^9 - 405 * x1 * y1 * z1^4 * y2^2 * z2 * b^2 * c^11 - 1296 * x1 *
     y1 * z1^4 * y2^2 * z2 * c^9 + 729 * x1 * y1 * z1^4 * z2^3 * b^3 * c^12 +
     1458 * x1 * y1 * z1^4 * z2^3 * b * c^10 + 972 * x1 * z1^5 * y2 * z2^2 *
     b^3 * c^12 + 2673 * x1 * z1^5 * y2 * z2^2 * b * c^10 + 27 * x2^3 * y1^5 *
     z1 * b * c^10 - 270 * x2^3 * y1^3 * z1^3 * b^2 * c^11 - 1188 * x2^3 *
     y1^3 * z1^3 * c^9 + 243 * x2^3 * y1 * z1^5 * b^3 * c^12 + 1215 * x2^3 *
     y1 * z1^5 * b * c^10 - 162 * x2^2 * y1^5 * z1 * z2 * c^9 - 540 * x2^2 *
     y1^4 * z1^2 * y2 * c^9 + 3402 * x2^2 * y1^3 * z1^3 * z2 * b * c^10 + 2187
     * x2^2 * y1^2 * z1^4 * y2 * b * c^10 - 3402 * x2^2 * y1 * z1^5 * z2 * b^2
     * c^11 + 486 * x2^2 * y1 * z1^5 * z2 * c^9 - 1701 * x2^2 * z1^6 * y2 *
     b^2 * c^11 + 243 * x2^2 * z1^6 * y2 * c^9 - 18 * x2 * y1^5 * z1 * y2^2 *
     c^9 + 81 * x2 * y1^5 * z1 * z2^2 * b * c^10 + 540 * x2 * y1^4 * z1^2 * y2
     * z2 * b * c^10 + 378 * x2 * y1^3 * z1^3 * y2^2 * b * c^10 - 972 * x2 *
     y1^3 * z1^3 * z2^2 * b^2 * c^11 - 2916 * x2 * y1^3 * z1^3 * z2^2 * c^9 -
     1296 * x2 * y1^2 * z1^4 * y2 * z2 * b^2 * c^11 - 3564 * x2 * y1^2 * z1^4
     * y2 * z2 * c^9 - 324 * x2 * y1 * z1^5 * y2^2 * b^2 * c^11 - 162 * x2 *
     y1 * z1^5 * y2^2 * c^9 + 1215 * x2 * y1 * z1^5 * z2^2 * b^3 * c^12 + 1701
     * x2 * y1 * z1^5 * z2^2 * b * c^10 + 972 * x2 * z1^6 * y2 * z2 * b^3 *
     c^12 + 2673 * x2 * z1^6 * y2 * z2 * b * c^10 + y1^6 * y2^3 * c^9 + 9 *
     y1^5 * z1 * y2^2 * z2 * b * c^10 - 27 * y1^5 * z1 * z2^3 * b^2 * c^11 +
     54 * y1^5 * z1 * z2^3 * c^9 + 18 * y1^4 * z1^2 * y2^3 * b * c^10 - 135 *
     y1^4 * z1^2 * y2 * z2^2 * b^2 * c^11 - 162 * y1^3 * z1^3 * y2^2 * z2 *
     b^2 * c^11 - 108 * y1^3 * z1^3 * y2^2 * z2 * c^9 + 54 * y1^3 * z1^3 *
     z2^3 * b^3 * c^12 + 918 * y1^3 * z1^3 * z2^3 * b * c^10 - 27 * y1^2 *
     z1^4 * y2^3 * b^2 * c^11 + 27 * y1^2 * z1^4 * y2^3 * c^9 + 162 * y1^2 *
     z1^4 * y2 * z2^2 * b^3 * c^12 + 1539 * y1^2 * z1^4 * y2 * z2^2 * b * c^10
     + 81 * y1 * z1^5 * y2^2 * z2 * b^3 * c^12 + 405 * y1 * z1^5 * y2^2 * z2 *
     b * c^10 - 243 * y1 * z1^5 * z2^3 * b^4 * c^13 + 243 * y1 * z1^5 * z2^3 *
     b^2 * c^11 - 1458 * y1 * z1^5 * z2^3 * c^9 - 243 * z1^6 * y2 * z2^2 * b^4
     * c^13 - 486 * z1^6 * y2 * z2^2 * b^2 * c^11 - 729 * z1^6 * y2 * z2^2 *
     c^9)
    _ _ H1 H2).
  ring.
Qed.

(** Addition is symmetric in its operands, coordinate by coordinate. *)
Lemma full_add_comm (x1 y1 z1 x2 y2 z2 b : Z) (ctx : MontContext) :
  ec_full_add x1 y1 z1 x2 y2 z2 b ctx = ec_full_add x2 y2 z2 x1 y1 z1 b ctx.
Proof. unfold ec_full_add. f_equal; [f_equal|]; mont_ring ctx. Qed.

(** X1. Doubling keeps the curve.  For every point P on its curve and
    every state of the allocator, [ec_ws_double] leaves a point of the
    same context that is on the curve: the double of P, or P itself when
    the call fails. *)
Theorem double_keeps_curve (P : EcPoint) (h : heap) :
  point_on_curve P = true ->
  exists (res : retcode) (P' : EcPoint),
    fst (ec_ws_double (Some P) h) = (res, Some P') /\
    ec_ctx P' = ec_ctx P /\ point_on_curve P' = true /\
    (res <> OK -> P' = P).
Proof.
  intros Hc. unfold ec_ws_double, bind.
  destruct (new_workplace _ h) as [[|] h1]; cbn [negb].
  - unfold point_on_curve, curve_b, field_of in Hc.
    pose proof (full_double_on_curve _ _ _ _ _ Hc) as Hd.
    destruct (ec_full_double _ _ _ _ _) as [[x3 y3] z3].
    exists OK. eexists. split; [reflexivity|].
    split; [reflexivity|]. split; [exact Hd | intros N; contradiction].
  - exists ERR_MEMORY, P. split; [reflexivity|]. auto.
Qed.

Lemma double_keeps_curve_witness :
  exists (res : retcode) (P' : EcPoint),
    fst (ec_ws_double (Some (toy_point 1 1 1)) []) = (res, Some P') /\
    ec_ctx P' = ec_ctx (toy_point 1 1 1) /\ point_on_curve P' = true /\
    (res <> OK -> P' = toy_point 1 1 1).
Proof. apply (double_keeps_curve (toy_point 1 1 1) []). vm_compute; reflexivity. Defined.

(** X2. Addition keeps the curve.  For points P and Q on the curve of one
    context and every state of the allocator, [ec_ws_add] leaves in its
    first argument a point of that context that is on the curve: P + Q,
    or P itself when the call fails. *)
Theorem add_keeps_curve (P Q : EcPoint) (h : heap) :
  ec_ctx Q = ec_ctx P ->
  point_on_curve P = true -> point_on_curve Q = true ->
  exists (res : retcode) (P' : EcPoint),
    fst (ec_ws_add (Some P) (Some Q) h) = (res, Some P') /\
    ec_ctx P' = ec_ctx P /\ point_on_curve P' = true /\
    (res <> OK -> P' = P).
Proof.
  intros Hctx HP HQ. unfold ec_ws_add, same_ctx, bind.
  rewrite Hctx, Nat.eqb_refl. cbn [negb].
  destruct (new_workplace _ h) as [[|] h1]; cbn [negb].
  - unfold point_on_curve, curve_b, field_of in HP, HQ. rewrite Hctx in HQ.
    pose proof (full_add_on_curve _ _ _ _ _ _ _ _ HP HQ) as Ha.
    destruct (ec_full_add _ _ _ _ _ _ _ _) as [[x3 y3] z3].
    exists OK. eexists. split; [reflexivity|].
    split; [reflexivity|]. split; [exact Ha | intros N; contradiction].
  - exists ERR_MEMORY, P. split; [reflexivity|]. auto.
Qed.

Lemma add_keeps_curve_witness :
  exists (res : retcode) (P' : EcPoint),
    fst (ec_ws_add (Some (toy_point 1 1 1)) (Some (toy_point 3 0 1)) []) = (res, Some P') /\
    ec_ctx P' = ec_ctx (toy_point 1 1 1) /\ point_on_curve P' = true /\
    (res <> OK -> P' = toy_point 1 1 1).
Proof.
  apply (add_keeps_curve (toy_point 1 1 1) (toy_point 3 0 1) []).
  - reflexivity.
  - vm_compute; reflexivity.
  - vm_compute; reflexivity.
Defined.

(** X3. Addition commutes.  For two points of one context, [ec_ws_add]
    stores the same coordinates whichever of them comes first, when the
    allocator serves the calls. *)
Theorem add_commutes (P Q : EcPoint) (h1 h2 : heap) :
  ec_ctx Q = ec_ctx P ->
  never_fails h1 = true -> never_fails h2 = true ->
  exists S : EcPoint,
    fst (ec_ws_add (Some P) (Some Q) h1) = (OK, Some S) /\
    fst (ec_ws_add (Some Q) (Some P) h2) = (OK, Some S).
Proof.
  intros Hctx Hh1 Hh2.
  destruct (ec_full_add (x P) (y P) (z P) (x Q) (y Q) (z Q)
              (b (target (ec_ctx P))) (mont_ctx (target (ec_ctx P))))
    as [[x3 y3] z3] eqn:Ea.
  exists {| ec_ctx := ec_ctx P; x := x3; y := y3; z := z3 |}.
  split.
  - apply succeeds_fst; [|exact Hh1].
    unfold ec_ws_add, same_ctx. rewrite Hctx, Nat.eqb_refl. cbn [negb].
    served. rewrite Ea. served.
  - apply succeeds_fst; [|exact Hh2].
    unfold ec_ws_add, same_ctx. rewrite Hctx, Nat.eqb_refl. cbn [negb].
    served. rewrite full_add_comm, Ea. served.
Qed.

Lemma add_commutes_witness :
  exists S : EcPoint,
    fst (ec_ws_add (Some (toy_point 1 1 1)) (Some (toy_point 3 0 1)) []) = (OK, Some S) /\
    fst (ec_ws_add (Some (toy_point 3 0 1)) (Some (toy_point 1 1 1)) []) = (OK, Some S).
Proof.
  apply (add_commutes (toy_point 1 1 1) (toy_point 3 0 1) [] []); reflexivity.
Defined.

(** ** Mixed addition *)

Section MixedAddition.
Variable ctx : MontContext.
Hypothesis Hpf : prime_field ctx.

(** (a + z1) (a2 + 1) - (a a2 + z1) = a2 z1 + a, on Montgomery
    numbers: the cross term algorithm 4 computes when Z2 = 1 is the one
    algorithm 5 computes directly. *)
Lemma cross_term_one (a a2 z1 : Z) :
  mont_sub (mont_mult (mont_add a z1 ctx) (mont_add a2 (mont_set 1 ctx) ctx) ctx)
           (mont_add (mont_mult a a2 ctx) z1 ctx) ctx
  = mont_add (mont_mult a2 z1 ctx) a ctx.
Proof.
  unfold mont_sub, mont_add, mont_mult, mont_set, mulc.
  strip_goal (modulus ctx).
  apply (eqm_unit ctx Hpf _ _ (a + z1)). ring.
Qed.

Lemma mix_add_alg5_is_full_add (x1 y1 z1 x2 y2 b : Z) :
  reduced z1 ctx = true ->
  ec_mix_add_alg5 x1 y1 z1 x2 y2 b ctx
  = ec_full_add x1 y1 z1 x2 y2 (mont_set 1 ctx) b ctx.
Proof.
  intros Hz.
  cbv beta zeta delta [ec_mix_add_alg5 ec_full_add].
  rewrite (mont_mult_1_r ctx Hpf z1 Hz).
  rewrite !cross_term_one.
  rewrite (mont_mult_comm ctx (mont_add x2 y2 ctx)).
  reflexivity.
Qed.

End MixedAddition.

(** X4. Mixed addition agrees with full addition.  Over a prime field, for
    an accumulator with a reduced Z and an affine operand other than
    (0, 0), [ec_mix_add] computes the very coordinates [ec_full_add]
    computes for the operand taken with Z = 1. *)
Theorem mix_add_is_full_add (x1 y1 z1 x2 y2 b : Z) (ctx : MontContext) :
  prime_field ctx -> reduced z1 ctx = true ->
  mont_is_zero x2 ctx && mont_is_zero y2 ctx = false ->
  ec_mix_add x1 y1 z1 x2 y2 b ctx
  = ec_full_add x1 y1 z1 x2 y2 (mont_set 1 ctx) b ctx.
Proof.
  intros Hpf Hz Hg. unfold ec_mix_add. rewrite Hg.
  apply mix_add_alg5_is_full_add; assumption.
Qed.

Lemma mix_add_is_full_add_witness :
  ec_mix_add 3 4 5 1 2 (mont_set 3 toy_field) toy_field
  = ec_full_add 3 4 5 1 2 (mont_set 1 toy_field) (mont_set 3 toy_field) toy_field.
Proof.
  apply (mix_add_is_full_add 3 4 5 1 2 (mont_set 3 toy_field) toy_field).
  - exact toy_prime_field.
  - reflexivity.
  - reflexivity.
Defined.

(** ** The ladder stays on the curve *)

Lemma on_curve_zero (b : Z) (ctx : MontContext) : on_curve 0 0 0 b ctx = true.
Proof. curve_unfold. apply Z.eqb_eq. strip_goal (modulus ctx). unfold eqm; f_equal; ring. Qed.

Lemma on_curve_pai (y1 b : Z) (ctx : MontContext) :
  on_curve (mont_set 0 ctx) y1 (mont_set 0 ctx) b ctx = true.
Proof.
  unfold mont_set. curve_unfold. apply Z.eqb_eq.
  strip_goal (modulus ctx). unfold eqm; f_equal; ring.
Qed.

(** The curve equation is homogeneous: scaling the three coordinates
    keeps it. *)
Lemma on_curve_scale (l x1 y1 z1 b : Z) (ctx : MontContext) :
  on_curve x1 y1 z1 b ctx = true ->
  on_curve (mont_mult x1 l ctx) (mont_mult y1 l ctx) (mont_mult z1 l ctx) b ctx = true.
Proof.
  intros H. unfold on_curve, mont_is_equal in H. apply Z.eqb_eq in H.
  curve_unfold. apply Z.eqb_eq.
  strip_goal (modulus ctx). strip_in (modulus ctx) H.
  apply (eqm_close _ _ _ ((l * mont_Rinv ctx) ^ 3) _ _ H). ring.
Qed.

Lemma mix_add_on_curve (x1 y1 z1 x2 y2 b : Z) (ctx : MontContext) :
  prime_field ctx -> reduced z1 ctx = true ->
  on_curve x1 y1 z1 b ctx = true ->
  entry_on_curve b ctx (x2, y2) = true ->
  triple_on_curve b ctx (ec_mix_add x1 y1 z1 x2 y2 b ctx) = true.
Proof.
  intros Hpf Hz H1 H2. unfold ec_mix_add.
  unfold entry_on_curve in H2. cbn [fst snd] in H2.
  destruct (mont_is_zero x2 ctx && mont_is_zero y2 ctx).
  - exact H1.
  - rewrite (mix_add_alg5_is_full_add ctx Hpf) by exact Hz.
    exact (full_add_on_curve _ _ _ _ _ _ _ _ H1 H2).
Qed.

Lemma mix_add_z_reduced (x1 y1 z1 x2 y2 b : Z) (ctx : MontContext) :
  prime_field ctx -> reduced z1 ctx = true ->
  reduced (snd (ec_mix_add x1 y1 z1 x2 y2 b ctx)) ctx = true.
Proof.
  intros Hpf Hz. unfold ec_mix_add.
  destruct (mont_is_zero x2 ctx && mont_is_zero y2 ctx).
  - exact Hz.
  - apply (mod_reduced ctx Hpf).
Qed.

Section LadderOnCurve.
Variable ctx : MontContext.
Hypothesis Hpf : prime_field ctx.
Variables x1 y1 z1 b : Z.
Hypothesis HP : on_curve x1 y1 z1 b ctx = true.

Lemma window_from_on_curve (n : nat) (prev : Z * Z * Z) :
  triple_on_curve b ctx prev = true ->
  (mont_is_one z1 ctx = true -> reduced (snd prev) ctx = true) ->
  Forall (fun w => triple_on_curve b ctx w = true)
         (window_from n prev (mont_is_one z1 ctx) x1 y1 z1 b ctx).
Proof.
  revert prev. induction n as [|n IH]; intros [[xp yp] zp] Hc Hr; cbn [window_from].
  - constructor.
  - cbn [snd triple_on_curve] in Hc, Hr.
    destruct (mont_is_one z1 ctx) eqn:E1.
    + unfold mont_is_one in E1. apply Z.eqb_eq in E1.
      assert (H2 : entry_on_curve b ctx (x1, y1) = true)
        by (unfold entry_on_curve; cbn [fst snd]; rewrite <- E1, HP; apply orb_true_r).
      constructor.
      * apply mix_add_on_curve; auto.
      * apply IH; [apply mix_add_on_curve; auto|].
        intros _. apply mix_add_z_reduced; auto.
    + constructor.
      * exact (full_add_on_curve _ _ _ _ _ _ _ _ Hc HP).
      * apply IH; [exact (full_add_on_curve _ _ _ _ _ _ _ _ Hc HP)|].
        intros F; discriminate.
Qed.

Lemma double_times_on_curve (j : nat) (acc : Z * Z * Z) :
  triple_on_curve b ctx acc = true ->
  triple_on_curve b ctx (double_times j acc b ctx) = true.
Proof.
  revert acc. induction j as [|j IH]; intros [[xa ya] za] Hc; cbn [double_times].
  - exact Hc.
  - apply IH. exact (full_double_on_curve _ _ _ _ _ Hc).
Qed.

Lemma nth_map_default {A : Type} (f : A -> Z) (l : list A) (d : A) (n : nat) :
  f d = 0 -> nth n (map f l) 0 = f (nth n l d).
Proof. intros E. rewrite <- E. apply map_nth. Qed.

Lemma gather_window (window : list (Z * Z * Z)) (k index : nat) :
  (gather 0 (firstn k (map (fun w => fst (fst w)) window)) index,
   gather 0 (firstn k (map (fun w => snd (fst w)) window)) index,
   gather 0 (firstn k (map (fun w => snd w) window)) index)
  = nth index (firstn k window) (0, 0, 0).
Proof.
  unfold gather. rewrite !firstn_map.
  rewrite !(nth_map_default _ _ (0, 0, 0)) by reflexivity.
  destruct (nth index (firstn k window) (0, 0, 0)) as [[xw yw] zw]. reflexivity.
Qed.

Lemma ec_scalar_loop_on_curve (window : list (Z * Z * Z)) (k n : nat)
  (bw : BitWindow_LR) (acc : Z * Z * Z) :
  Forall (fun w => triple_on_curve b ctx w = true) window ->
  triple_on_curve b ctx acc = true ->
  triple_on_curve b ctx
    (ec_scalar_loop n bw
       (firstn k (map (fun w => fst (fst w)) window))
       (firstn k (map (fun w => snd (fst w)) window))
       (firstn k (map (fun w => snd w) window)) acc b ctx) = true.
Proof.
  intros Hw. revert bw acc.
  induction n as [|n IH]; intros bw acc Hc; cbn [ec_scalar_loop].
  - exact Hc.
  - destruct (get_next_digit_lr bw) as [index bw'].
    pose proof (double_times_on_curve WINDOW_SIZE_BITS acc Hc) as Hd.
    destruct (double_times WINDOW_SIZE_BITS acc b ctx) as [[x3 y3] z3].
    apply IH.
    pose proof (gather_window window k index) as G.
    assert (Hg : triple_on_curve b ctx (nth index (firstn k window) (0, 0, 0)) = true).
    { destruct (Nat.lt_ge_cases index (length (firstn k window))) as [L|L].
      - assert (Hf : Forall (fun w => triple_on_curve b ctx w = true) (firstn k window))
          by (apply Forall_firstn; exact Hw).
        rewrite Forall_forall in Hf. apply Hf. apply nth_In. exact L.
      - rewrite nth_overflow by exact L. apply on_curve_zero. }
    rewrite <- G in Hg.
    exact (full_add_on_curve _ _ _ _ _ _ _ _ Hd Hg).
Qed.

(** When [ec_scalar] writes its outputs, they are on the curve. *)
Lemma ec_scalar_on_curve (exp : list byte) (seed : Z) (h : heap) :
  match fst (ec_scalar x1 y1 z1 b exp seed ctx h) with
  | Returns (_, Some w) => triple_on_curve b ctx w = true
  | _ => True
  end.
Proof.
  unfold ec_scalar, bind, ret, scatter, bind, ret.
  destruct (callocs 3 h) as [[|] h1]; cbn [negb fst]; [|exact I].
  destruct (callocs (3 * WINDOW_SIZE_ITEMS) h1) as [[|] h2]; cbn [negb fst]; [|exact I].
  destruct (calloc h2) as [[|] h3]; cbn [is_err retcode_eqb negb fst]; [|exact I].
  destruct (calloc h3) as [[|] h4]; cbn [is_err retcode_eqb negb fst]; [|exact I].
  destruct (calloc h4) as [[|] h5]; cbn [is_err retcode_eqb negb fst]; [|exact I].
  apply ec_scalar_loop_on_curve; [|apply on_curve_pai].
  constructor; [apply on_curve_pai|].
  constructor; [exact HP|].
  apply window_from_on_curve; [exact HP|].
  intros E1. unfold mont_is_one in E1. apply Z.eqb_eq in E1.
  cbn [snd]. unfold mont_copy. rewrite E1. apply (mod_reduced ctx Hpf).
Qed.

Lemma mix_add_loop_on_curve (prot_g : list (list (Z * Z))) (n i : nat)
  (bw : BitWindow_RL) (acc : Z * Z * Z) :
  forallb (forallb (entry_on_curve b ctx)) prot_g = true ->
  triple_on_curve b ctx acc = true -> reduced (snd acc) ctx = true ->
  triple_on_curve b ctx (ec_scalar_g_p256_loop n i bw prot_g acc b ctx) = true.
Proof.
  intros Hg. revert i bw acc.
  induction n as [|n IH]; intros i bw [[x3 y3] z3] Hc Hr; cbn [ec_scalar_g_p256_loop].
  - exact Hc.
  - destruct (get_next_digit_rl bw) as [index bw'].
    assert (He : entry_on_curve b ctx (gather (0, 0) (nth i prot_g []) index) = true).
    { unfold gather.
      destruct (Nat.lt_ge_cases i (length prot_g)) as [Li|Li];
        [|rewrite (nth_overflow prot_g) by exact Li; destruct index; reflexivity].
      rewrite forallb_forall in Hg.
      pose proof (Hg _ (nth_In prot_g [] Li)) as Ht.
      destruct (Nat.lt_ge_cases index (length (nth i prot_g []))) as [Lj|Lj];
        [|rewrite nth_overflow by exact Lj; reflexivity].
      rewrite forallb_forall in Ht. apply Ht. apply nth_In. exact Lj. }
    destruct (gather (0, 0) (nth i prot_g []) index) as [xw yw].
    cbn [snd triple_on_curve] in Hc, Hr.
    pose proof (mix_add_on_curve x3 y3 z3 xw yw b ctx Hpf Hr Hc He) as Hm.
    pose proof (mix_add_z_reduced x3 y3 z3 xw yw b ctx Hpf Hr) as Hz.
    apply IH; assumption.
Qed.

(** The outputs of [ec_scalar_g_p256] are on the curve when the table
    entries are. *)
Lemma ec_scalar_g_p256_on_curve (tbl : P256Table) (exp : list byte) (seed : Z)
  (prot_g : list (list (Z * Z))) :
  forallb (forallb (entry_on_curve b ctx)) prot_g = true ->
  triple_on_curve b ctx (snd (ec_scalar_g_p256 tbl b exp seed prot_g ctx)) = true.
Proof.
  intros Hg. unfold ec_scalar_g_p256.
  destruct (_ <? _)%nat; cbn [snd].
  - apply on_curve_pai.
  - apply mix_add_loop_on_curve; [exact Hg | apply on_curve_pai | apply (mod_reduced ctx Hpf)].
Qed.

End LadderOnCurve.

(** X5. Scalar multiplication keeps the curve.  Over a prime field, for
    every point P on its curve, every scalar and every seed:
    [ec_ws_scalar] returns when the allocator serves every request, and
    whenever it returns, whatever the code and the state of the
    allocator, it leaves a point of the same context that is on the
    curve; on the generator fast path this rests on the entries of the
    generator tables being points of the curve. *)
Theorem scalar_keeps_curve (tbl : P256Table) (expand_seed : Z -> nat -> list byte)
  (P : EcPoint) (k : option (list byte)) (len : nat) (seed : Z) (h : heap) :
  prime_field (field_of P) -> point_on_curve P = true ->
  tables_on_curve (target (ec_ctx P)) = true ->
  (never_fails h = true ->
   exists r, fst (ec_ws_scalar tbl expand_seed (Some P) k len seed h) = Returns r) /\
  (forall (res : retcode) (out : option EcPoint),
     fst (ec_ws_scalar tbl expand_seed (Some P) k len seed h) = Returns (res, out) ->
     exists P' : EcPoint,
       out = Some P' /\ ec_ctx P' = ec_ctx P /\ point_on_curve P' = true).
Proof.
  intros Hpf Hc Ht. split; [apply ec_ws_scalar_returns|].
  assert (G : match fst (ec_ws_scalar tbl expand_seed (Some P) k len seed h) with
              | Returns (_, out) =>
                  exists P' : EcPoint,
                    out = Some P' /\ ec_ctx P' = ec_ctx P /\ point_on_curve P' = true
              | Undefined => True
              end);
    [|intros res out E; rewrite E in G; exact G].
  assert (Keep : forall (res : retcode) (Q : EcPoint) (h' : heap),
             ec_ctx Q = ec_ctx P -> point_on_curve Q = true ->
             match fst (ret (Returns (res, Some Q)) h') with
             | Returns (_, out) =>
                 exists P' : EcPoint,
                   out = Some P' /\ ec_ctx P' = ec_ctx P /\ point_on_curve P' = true
             | Undefined => True
             end)
    by (intros res Q h' E1 E2; exists Q; auto).
  assert (Stay : forall (res : retcode) (h' : heap),
             match fst (ret (Returns (res, Some P)) h') with
             | Returns (_, out) =>
                 exists P' : EcPoint,
                   out = Some P' /\ ec_ctx P' = ec_ctx P /\ point_on_curve P' = true
             | Undefined => True
             end)
    by (intros res h'; apply Keep; [reflexivity | exact Hc]).
  unfold ec_ws_scalar.
  destruct k as [k|]; [|apply Stay].
  destruct (len =? 0)%nat; [apply Stay|].
  unfold point_on_curve, curve_b, field_of in Hc.
  unfold field_of in Hpf.
  set (ctx := mont_ctx (target (ec_ctx P))) in *.
  unfold bind at 1.
  destruct (new_workplace ctx h) as [[|] h1]; cbn [negb]; [|apply Stay].
  unfold bind at 1.
  destruct (new_workplace ctx h1) as [[|] h2]; cbn [negb]; [|apply Stay].
  destruct (ModulusType_eqb (modulus_type ctx) ModulusP256 && is_generator P).
  { (* the generator fast path *)
    assert (Hg : forallb (forallb (entry_on_curve (b (target (ec_ctx P))) ctx))
                   (match prot_g (target (ec_ctx P)) with
                    | Some g => g
                    | None => []
                    end) = true).
    { unfold tables_on_curve in Ht. fold ctx in Ht.
      destruct (prot_g (target (ec_ctx P))); [exact Ht | reflexivity]. }
    pose proof (ec_scalar_g_p256_on_curve ctx Hpf (b (target (ec_ctx P))) tbl
                  (firstn len k) ((seed + 2) mod 2 ^ 64) _ Hg) as Ho.
    destruct (ec_scalar_g_p256 _ _ _ _ _ _) as [r [[x3 y3] z3]].
    apply Keep; [reflexivity | exact Ho]. }
  destruct (Z.eqb_spec seed 0) as [Hs|Hs]; cbn [negb].
  - (* no blinding *)
    unfold bind at 1.
    pose proof (ec_scalar_on_curve ctx Hpf _ _ _ _ Hc
                  (firstn len k) ((seed + 1) mod 2 ^ 64) h2) as Ho.
    destruct (ec_scalar _ _ _ _ _ _ _ h2) as [[[r o]|] h3]; [|exact I].
    cbn [fst] in Ho. destruct o as [[[x3 y3] z3]|]; [|apply Stay].
    apply Keep; [reflexivity | exact Ho].
  - (* blinding *)
    unfold bind at 1.
    destruct (mont_number 1 ctx h2) as [r h3].
    destruct (is_err r); [apply Stay|].
    pose proof (on_curve_scale
                  (le_bytes_to_Z (expand_seed seed (mont_bytes ctx))) _ _ _ _ _ Hc) as Hb.
    unfold bind at 1.
    destruct (blind_scalar_factor k len (seed mod 2 ^ 32)
                (order (target (ec_ctx P))) (words ctx) h3) as [[[r1 bs] bl] h4].
    destruct (is_err r1); [apply Keep; [reflexivity | exact Hb]|].
    unfold bind at 1.
    cbn [x y z].
    match goal with
    | |- context [ec_scalar ?a1 ?a2 ?a3 ?a4 ?a5 ?a6 ?a7 h4] =>
        pose proof (ec_scalar_on_curve ctx Hpf a1 a2 a3 a4 Hb a5 a6 h4) as Ho;
        destruct (ec_scalar a1 a2 a3 a4 a5 a6 a7 h4) as [[[r2 o]|] h5]; [|exact I]
    end.
    cbn [fst] in Ho. destruct o as [[[x3 y3] z3]|].
    + apply Keep; [reflexivity | exact Ho].
    + apply Keep; [reflexivity | exact Hb].
Qed.

(** On the curve of order 11: 5 times (1, 2), blinded, which is the
    point (4, 4). *)
Lemma scalar_keeps_curve_witness :
  let tbl := mkP256Table 5 52 32 [] in
  let es := fun (_ : Z) (len : nat) => repeat x01 len in
  let P := odd_point 1 2 1 in
  (exists r, fst (ec_ws_scalar tbl es (Some P) (Some [x05]) 1 1 []) = Returns r) /\
  (forall (res : retcode) (out : option EcPoint),
     fst (ec_ws_scalar tbl es (Some P) (Some [x05]) 1 1 []) = Returns (res, out) ->
     exists P' : EcPoint,
       out = Some P' /\ ec_ctx P' = ec_ctx P /\ point_on_curve P' = true).
Proof.
  intros tbl es P.
  destruct (scalar_keeps_curve tbl es P (Some [x05]) 1 1 [] toy_prime_field) as [R K].
  - vm_compute; reflexivity.
  - reflexivity.
  - split; [exact (R eq_refl) | exact K].
Defined.

(** ** Opposite points *)

Lemma eqm_modulus (p : Z) : eqm p p 0.
Proof. unfold eqm. rewrite Z_mod_same_full, Zmod_0_l. reflexivity. Qed.

(** For 0 < y < p the subtraction of [ec_ws_neg] gives p - y. *)
Lemma mont_sub_modulus (y1 : Z) (ctx : MontContext) :
  reduced y1 ctx = true -> y1 <> 0 ->
  mont_sub (modulus ctx) y1 ctx = modulus ctx - y1.
Proof.
  intros Hy Ny. apply reduced_iff in Hy.
  unfold mont_sub. apply Z.mod_small. lia.
Qed.

(** Negating Y keeps the curve equation. *)
Lemma on_curve_neg (x1 y1 z1 b : Z) (ctx : MontContext) :
  on_curve x1 y1 z1 b ctx = true ->
  on_curve x1 (mont_sub (modulus ctx) y1 ctx) z1 b ctx = true.
Proof.
  intros H. unfold on_curve, mont_is_equal in H. apply Z.eqb_eq in H.
  curve_unfold. apply Z.eqb_eq.
  strip_goal (modulus ctx). strip_in (modulus ctx) H.
  apply (eqm_close2 _ _ _ 1 _ _
           ((modulus ctx - 2 * y1) * mont_Rinv ctx * mont_Rinv ctx * z1) _ _
           H (eqm_modulus (modulus ctx))).
  ring.
Qed.

(** Adding (x1 : y1 : z1) and (x1 : y2 : z1) with y1 + y2 = 0 gives
    X3 = 0 and Z3 = 0. *)
Lemma full_add_opposite (x1 y1 z1 y2 b : Z) (ctx : MontContext) :
  modulus ctx <> 0 -> eqm (modulus ctx) (y1 + y2) 0 ->
  let '(x3, _, z3) := ec_full_add x1 y1 z1 x1 y2 z1 b ctx in
  x3 = 0 /\ z3 = 0.
Proof.
  intros Hp H. curve_unfold.
  set (c := mont_Rinv ctx).
  split; rewrite <- (Z.mod_0_l (modulus ctx)) by exact Hp;
    strip_goal (modulus ctx).
  - apply (eqm_close _ _ _
      (y2 * x1 * y1 * c^3 + 9 * x1^2 * z1 * c^3 - 9 * x1 * z1^2 * b * c^4
       + 9 * z1^3 * c^3) _ _ H).
    ring.
  - apply (eqm_close _ _ _
      (y2 * y1 * z1 * c^3 + 3 * x1^3 * c^3 - 9 * x1 * z1^2 * c^3
       + 3 * z1^3 * b * c^4) _ _ H).
    ring.
Qed.

(** X6. [ec_ws_neg] is an involution.  For a point with 0 < Y < p, when the
    allocator serves the calls, [ec_ws_neg] replaces Y by p - Y and
    leaves X, Z and the context alone; a second call restores the
    point, and the opposite of a point on the curve is on the curve. *)
Theorem neg_involution (P : EcPoint) (h1 h2 : heap) :
  reduced (y P) (field_of P) = true -> y P <> 0 ->
  never_fails h1 = true -> never_fails h2 = true ->
  exists N : EcPoint,
    fst (ec_ws_neg (Some P) h1) = (OK, Some N) /\
    N = {| ec_ctx := ec_ctx P; x := x P; y := modulus (field_of P) - y P; z := z P |} /\
    fst (ec_ws_neg (Some N) h2) = (OK, Some P) /\
    (point_on_curve P = true -> point_on_curve N = true).
Proof.
  intros Hy Ny Hh1 Hh2. unfold field_of in *.
  pose proof (mont_sub_modulus _ _ Hy Ny) as E.
  assert (Hy' := proj1 (reduced_iff _ _) Hy).
  eexists. split; [|split; [reflexivity|split]].
  - apply succeeds_fst; [|exact Hh1].
    unfold ec_ws_neg. served. rewrite E. served.
  - apply succeeds_fst; [|exact Hh2].
    unfold ec_ws_neg. cbn [ec_ctx x y z]. served.
    rewrite mont_sub_modulus; [|apply reduced_iff; lia|lia].
    replace (modulus _ - (modulus _ - y P)) with (y P) by lia.
    destruct P; served.
  - intros Hc. unfold point_on_curve, curve_b, field_of in *.
    cbn [ec_ctx x y z]. rewrite <- E. apply on_curve_neg. exact Hc.
Qed.

Lemma neg_involution_witness :
  exists N : EcPoint,
    fst (ec_ws_neg (Some (toy_point 1 1 1)) []) = (OK, Some N) /\
    N = {| ec_ctx := toy_curve; x := 2; y := 7 - 2; z := 2 |} /\
    fst (ec_ws_neg (Some N) []) = (OK, Some (toy_point 1 1 1)) /\
    (point_on_curve (toy_point 1 1 1) = true -> point_on_curve N = true).
Proof.
  apply (neg_involution (toy_point 1 1 1) [] []).
  - reflexivity.
  - vm_compute; discriminate.
  - reflexivity.
  - reflexivity.
Defined.

(** X7. A point plus its opposite is the point-at-infinity.  For every
    point P (on the curve or not) with 0 < Y < p, when the allocator
    serves the calls, [ec_ws_add] of P and of what [ec_ws_neg] makes of
    P returns 0 with X = 0 and Z = 0: [ec_ws_is_pai] holds of the sum. *)
Theorem add_neg_is_pai (P : EcPoint) (h1 h2 : heap) :
  modulus (field_of P) <> 0 ->
  reduced (y P) (field_of P) = true -> y P <> 0 ->
  never_fails h1 = true -> never_fails h2 = true ->
  exists N S : EcPoint,
    fst (ec_ws_neg (Some P) h1) = (OK, Some N) /\
    fst (ec_ws_add (Some P) (Some N) h2) = (OK, Some S) /\
    x S = 0 /\ z S = 0 /\ ec_ws_is_pai (Some S) = true.
Proof.
  intros Hp Hy Ny Hh1 Hh2. unfold field_of in *.
  set (ctx := mont_ctx (target (ec_ctx P))) in *.
  assert (H0 : eqm (modulus ctx) (y P + mont_sub (modulus ctx) (y P) ctx) 0).
  { unfold mont_sub.
    apply (eqm_trans _ _ (y P + (modulus ctx - y P))); [strip_ok (modulus ctx)|].
    replace (y P + (modulus ctx - y P)) with (modulus ctx) by ring.
    apply eqm_modulus. }
  pose proof (full_add_opposite (x P) (y P) (z P) _ (b (target (ec_ctx P))) ctx Hp H0)
    as Ho.
  destruct (ec_full_add _ _ _ _ _ _ _ _) as [[x3 y3] z3] eqn:Ea.
  destruct Ho as [-> ->].
  exists {| ec_ctx := ec_ctx P; x := x P; y := mont_sub (modulus ctx) (y P) ctx;
            z := z P |},
         {| ec_ctx := ec_ctx P; x := 0; y := y3; z := 0 |}.
  split; [|split; [|repeat split]].
  - apply succeeds_fst; [|exact Hh1]. unfold ec_ws_neg. do 2 served.
  - apply succeeds_fst; [|exact Hh2].
    unfold ec_ws_add, same_ctx. cbn [ec_ctx x y z]. rewrite Nat.eqb_refl. cbn [negb].
    served. fold ctx. rewrite Ea. served.
Qed.

Lemma add_neg_is_pai_witness :
  exists N S : EcPoint,
    fst (ec_ws_neg (Some (toy_point 1 1 1)) []) = (OK, Some N) /\
    fst (ec_ws_add (Some (toy_point 1 1 1)) (Some N) []) = (OK, Some S) /\
    x S = 0 /\ z S = 0 /\ ec_ws_is_pai (Some S) = true.
Proof.
  apply (add_neg_is_pai (toy_point 1 1 1) [] []).
  - discriminate.
  - reflexivity.
  - vm_compute; discriminate.
  - reflexivity.
  - reflexivity.
Defined.

(** ** Copies *)

(** X8. [ec_ws_clone] gives an exact copy or nothing.  For every point and
    every state of the allocator it returns 0 with a new point equal to
    the source (same context, same coordinates) when its four
    allocation requests are served, and otherwise ERR_MEMORY with the
    output pointer set to NULL. *)
Theorem clone_exact_or_null (P : EcPoint) (h : heap) :
  fst (ec_ws_clone true (Some P) h)
  = if never_fails (firstn 4 h) then (OK, Live P) else (ERR_MEMORY, Null).
Proof.
  unfold ec_ws_clone, mont_number, bind, ret, mont_copy.
  destruct P as [c px py pz]. cbn [ec_ctx x y z].
  destruct h as [|[|] [|[|] [|[|] [|[|] h]]]]; reflexivity.
Qed.

(** ** Comparison, blinding and normalization *)

Section AffineEquality.
Variable ctx : MontContext.
Hypothesis Hpf : prime_field ctx.

Lemma mont_set_1_nz : mont_set 1 ctx <> 0.
Proof. unfold mont_set. rewrite Z.mul_1_l. apply (mont_R_nz ctx Hpf). Qed.

Lemma mont_inv_prime_reduced (a : Z) :
  reduced a ctx = true -> reduced (mont_inv_prime a ctx) ctx = true.
Proof.
  intros Ha. unfold mont_inv_prime.
  change (fun u v : Z => mont_mult u v ctx) with (mulc (modulus ctx) (mont_Rinv ctx)).
  induction (Z.to_pos (modulus ctx - 2)) as [|e _] using Pos.peano_ind.
  - exact Ha.
  - rewrite Pos.iter_op_succ by (intros; apply mulc_assoc).
    apply (mod_reduced ctx Hpf).
Qed.

(** The inverse of 1 is 1. *)
Lemma mont_inv_prime_one : mont_inv_prime (mont_set 1 ctx) ctx = mont_set 1 ctx.
Proof.
  assert (H1 : reduced (mont_set 1 ctx) ctx = true) by apply (mod_reduced ctx Hpf).
  pose proof (mont_inv_prime_spec ctx Hpf _ H1 mont_set_1_nz) as E.
  rewrite (mont_mult_comm ctx) in E.
  rewrite (mont_mult_1_r ctx Hpf) in E by (apply mont_inv_prime_reduced; exact H1).
  exact E.
Qed.

(** u v = (u z) (v A) when A is the inverse of z. *)
Lemma scale_by_unit (u v z1 A : Z) :
  mont_mult z1 A ctx = mont_set 1 ctx ->
  mont_mult u v ctx = mont_mult (mont_mult u z1 ctx) (mont_mult v A ctx) ctx.
Proof.
  intros E.
  rewrite <- (mont_mult_1_r ctx Hpf (mont_mult u v ctx))
    by apply (mont_mult_reduced ctx Hpf).
  rewrite <- E. mont_ring ctx.
Qed.

(** Equal cross products are equal quotients. *)
Lemma cross_product_iff (u1 z1 u2 z2 : Z) :
  reduced z1 ctx = true -> reduced z2 ctx = true -> z1 <> 0 -> z2 <> 0 ->
  mont_mult u1 z2 ctx = mont_mult u2 z1 ctx
  <-> mont_mult u1 (mont_inv_prime z1 ctx) ctx
      = mont_mult u2 (mont_inv_prime z2 ctx) ctx.
Proof.
  intros Hz1 Hz2 N1 N2.
  pose proof (mont_inv_prime_spec ctx Hpf z1 Hz1 N1) as I1.
  pose proof (mont_inv_prime_spec ctx Hpf z2 Hz2 N2) as I2.
  set (A1 := mont_inv_prime z1 ctx) in *.
  set (A2 := mont_inv_prime z2 ctx) in *.
  split; intros H.
  - rewrite (scale_by_unit u1 A1 z2 A2 I2), H.
    rewrite (scale_by_unit u2 A2 z1 A1 I1). mont_ring ctx.
  - rewrite (scale_by_unit u1 z2 z1 A1 I1).
    transitivity (mont_mult (mont_mult u1 A1 ctx) (mont_mult z1 z2 ctx) ctx);
      [mont_ring ctx|].
    rewrite H, (scale_by_unit u2 z1 z2 A2 I2). mont_ring ctx.
Qed.

(** Scaling by a factor that is not a multiple of p, as the blinding
    step does. *)
Lemma mont_mult_mod_r (u l : Z) :
  mont_mult u l ctx = mont_mult (l mod modulus ctx) u ctx.
Proof. mont_ring ctx. Qed.

End AffineEquality.

Section CompareAffine.
Variables P1 P2 : EcPoint.
Hypothesis Hctx : ec_ctx P1 = ec_ctx P2.
Hypothesis Hpf : prime_field (field_of P1).
Hypothesis Hz1 : reduced (z P1) (field_of P1) = true.
Hypothesis Hz2 : reduced (z P2) (field_of P2) = true.

Lemma cmp_affine_iff (h : heap) :
  never_fails h = true ->
  fst (ec_ws_cmp (Some P1) (Some P2) h) = OK <->
  ec_ws_is_pai (Some P1) = ec_ws_is_pai (Some P2) /\ affine P1 = affine P2.
Proof.
  intros Hh.
  rewrite (succeeds_fst _ _ h (cmp_same_context P1 P2 Hctx) Hh).
  unfold ec_ws_is_pai, affine, ec_projective_to_affine, mont_is_zero, field_of in *.
  rewrite <- Hctx in *.
  set (ctx := mont_ctx (target (ec_ctx P1))) in *.
  destruct (Z.eqb_spec (z P1) 0) as [E1|E1];
    destruct (Z.eqb_spec (z P2) 0) as [E2|E2]; cbn [orb andb].
  - split; [intros _; split; reflexivity | reflexivity].
  - split; [discriminate | intros [F _]; discriminate F].
  - split; [discriminate | intros [F _]; discriminate F].
  - cbv zeta.
    pose proof (cross_product_iff ctx Hpf (x P1) (z P1) (x P2) (z P2) Hz1 Hz2 E1 E2) as Cx.
    pose proof (cross_product_iff ctx Hpf (y P1) (z P1) (y P2) (z P2) Hz1 Hz2 E1 E2) as Cy.
    destruct (Z.eqb_spec (mont_mult (x P1) (z P2) ctx) (mont_mult (x P2) (z P1) ctx))
      as [Ex|Ex];
      destruct (Z.eqb_spec (mont_mult (y P1) (z P2) ctx) (mont_mult (y P2) (z P1) ctx))
      as [Ey|Ey]; cbn [andb].
    + split; [intros _|reflexivity]. split; [reflexivity|].
      f_equal; [apply Cx; exact Ex | apply Cy; exact Ey].
    + split; [discriminate|]. intros [_ F]. exfalso. apply Ey, Cy. congruence.
    + split; [discriminate|]. intros [_ F]. exfalso. apply Ex, Cx. congruence.
    + split; [discriminate|]. intros [_ F]. exfalso. apply Ex, Cx. congruence.
Qed.

End CompareAffine.

(** X9. [ec_ws_cmp] decides equality of the affine points.  For two points
    of one prime-field context with reduced Z, when the allocator serves
    the call, [ec_ws_cmp] returns 0 exactly when the two points agree on
    being the point-at-infinity and have the same affine coordinates,
    the ones [ec_ws_get_xy] encodes. *)
Theorem cmp_is_affine_equality (P1 P2 : EcPoint) (h : heap) :
  ec_ctx P1 = ec_ctx P2 -> prime_field (field_of P1) ->
  reduced (z P1) (field_of P1) = true -> reduced (z P2) (field_of P2) = true ->
  never_fails h = true ->
  fst (ec_ws_cmp (Some P1) (Some P2) h) = OK <->
  ec_ws_is_pai (Some P1) = ec_ws_is_pai (Some P2) /\ affine P1 = affine P2.
Proof. intros Hctx Hpf Hz1 Hz2 Hh. apply cmp_affine_iff; assumption. Qed.

(** The point (1, 1) of the toy curve against its double. *)
Lemma cmp_is_affine_equality_witness :
  fst (ec_ws_cmp (Some (toy_point 1 1 1)) (Some (toy_point 2 2 2)) []) = OK <->
  ec_ws_is_pai (Some (toy_point 1 1 1)) = ec_ws_is_pai (Some (toy_point 2 2 2))
  /\ affine (toy_point 1 1 1) = affine (toy_point 2 2 2).
Proof.
  apply (cmp_is_affine_equality (toy_point 1 1 1) (toy_point 2 2 2) []).
  - reflexivity.
  - exact toy_prime_field.
  - reflexivity.
  - reflexivity.
  - reflexivity.
Defined.

Section Blinding.
Variable expand_seed : Z -> nat -> list byte.
Variable P : EcPoint.
Variable seed : Z.
Hypothesis Hpf : prime_field (field_of P).
Hypothesis Hx : reduced (x P) (field_of P) = true.
Hypothesis Hy : reduced (y P) (field_of P) = true.
Hypothesis Hz : reduced (z P) (field_of P) = true.
Hypothesis Hf :
  le_bytes_to_Z (expand_seed seed (mont_bytes (field_of P))) mod modulus (field_of P) <> 0.

Lemma blinded_affine : affine (blinded expand_seed P seed) = affine P.
Proof.
  unfold affine, blinded, field_of in *. cbn [ec_ctx x y z].
  set (ctx := mont_ctx (target (ec_ctx P))) in *.
  rewrite !(mont_mult_mod_r ctx _ (le_bytes_to_Z _)).
  apply (affine_scale ctx Hpf); try assumption.
  apply (mod_reduced ctx Hpf).
Qed.

Lemma blinded_is_pai :
  ec_ws_is_pai (Some (blinded expand_seed P seed)) = ec_ws_is_pai (Some P).
Proof.
  unfold ec_ws_is_pai, blinded, mont_is_zero, field_of in *. cbn [ec_ctx x y z].
  set (ctx := mont_ctx (target (ec_ctx P))) in *.
  rewrite (mont_mult_mod_r ctx).
  destruct (Z.eqb_spec (z P) 0) as [E|E].
  - rewrite E, (mont_mult_0_r ctx Hpf). reflexivity.
  - apply Z.eqb_neq. apply (mont_mult_nz ctx Hpf); try assumption.
    apply (mod_reduced ctx Hpf).
Qed.

End Blinding.

(** X10. Blinding is transparent.  Over a prime field, when the factor drawn
    from the seed is not a multiple of p, the point [ec_ws_scalar]
    holds after its blinding step has the affine coordinates of the
    point on entry, is the point-at-infinity when that one is, compares
    equal to it under [ec_ws_cmp], and is on the curve when that one
    is. *)
Theorem blinding_is_transparent (expand_seed : Z -> nat -> list byte)
  (P : EcPoint) (seed : Z) (h : heap) :
  prime_field (field_of P) ->
  reduced (x P) (field_of P) = true -> reduced (y P) (field_of P) = true ->
  reduced (z P) (field_of P) = true ->
  le_bytes_to_Z (expand_seed seed (mont_bytes (field_of P))) mod modulus (field_of P) <> 0 ->
  never_fails h = true ->
  affine (blinded expand_seed P seed) = affine P /\
  ec_ws_is_pai (Some (blinded expand_seed P seed)) = ec_ws_is_pai (Some P) /\
  fst (ec_ws_cmp (Some P) (Some (blinded expand_seed P seed)) h) = OK /\
  (point_on_curve P = true -> point_on_curve (blinded expand_seed P seed) = true).
Proof.
  intros Hpf Hx Hy Hz Hf Hh.
  pose proof (blinded_affine expand_seed P seed Hpf Hx Hy Hz Hf) as Ea.
  pose proof (blinded_is_pai expand_seed P seed Hpf Hz Hf) as Ep.
  split; [exact Ea|]. split; [exact Ep|]. split.
  - apply cmp_affine_iff; try assumption; [reflexivity | | split; symmetry; assumption].
    apply (mod_reduced _ Hpf).
  - intros Hc. apply on_curve_scale. exact Hc.
Qed.

Lemma blinding_is_transparent_witness :
  let es := fun (_ : Z) (len : nat) => repeat x01 len in
  let P := toy_point 1 1 1 in
  affine (blinded es P 1) = affine P /\
  ec_ws_is_pai (Some (blinded es P 1)) = ec_ws_is_pai (Some P) /\
  fst (ec_ws_cmp (Some P) (Some (blinded es P 1)) []) = OK /\
  (point_on_curve P = true -> point_on_curve (blinded es P 1) = true).
Proof.
  intros es P.
  apply (blinding_is_transparent es P 1 []).
  - exact toy_prime_field.
  - reflexivity.
  - reflexivity.
  - reflexivity.
  - vm_compute; discriminate.
  - reflexivity.
Defined.

Section Normalize.
Variable P : EcPoint.
Hypothesis Hpf : prime_field (field_of P).
Hypothesis Hz : reduced (z P) (field_of P) = true.

Let ctx := mont_ctx (target (ec_ctx P)).

(** The point [ec_ws_normalize] stores. *)
Let N : EcPoint :=
  if z P =? 0 then P
  else {| ec_ctx := ec_ctx P;
          x := mont_mult (x P) (mont_inv_prime (z P) ctx) ctx;
          y := mont_mult (y P) (mont_inv_prime (z P) ctx) ctx;
          z := mont_set 1 ctx |}.

Lemma normalize_result : succeeds (ec_ws_normalize (Some P)) (OK, Some N).
Proof.
  unfold ec_ws_normalize, N, ec_projective_to_affine, mont_is_zero. fold ctx.
  served. destruct (z P =? 0); apply succeeds_ret.
Qed.

Lemma normalize_affine : affine N = affine P.
Proof.
  unfold N. destruct (Z.eqb_spec (z P) 0) as [E|E]; [reflexivity|].
  unfold affine, ec_projective_to_affine, mont_is_zero. cbn [ec_ctx x y z]. fold ctx.
  destruct (Z.eqb_spec (mont_set 1 ctx) 0) as [F|_];
    [exfalso; exact (mont_set_1_nz ctx Hpf F)|].
  destruct (Z.eqb_spec (z P) 0) as [F|_]; [contradiction|].
  rewrite (mont_inv_prime_one ctx Hpf).
  rewrite !(mont_mult_1_r ctx Hpf) by apply (mont_mult_reduced ctx Hpf).
  reflexivity.
Qed.

Lemma normalize_idempotent : succeeds (ec_ws_normalize (Some N)) (OK, Some N).
Proof.
  unfold N. destruct (Z.eqb_spec (z P) 0) as [E|E].
  - unfold ec_ws_normalize, mont_is_zero. served. rewrite E. apply succeeds_ret.
  - unfold ec_ws_normalize, ec_projective_to_affine, mont_is_zero.
    cbn [ec_ctx x y z]. fold ctx. served.
    destruct (Z.eqb_spec (mont_set 1 ctx) 0) as [F|_];
      [exfalso; exact (mont_set_1_nz ctx Hpf F)|].
    cbn [negb].
    rewrite (mont_inv_prime_one ctx Hpf).
    rewrite !(mont_mult_1_r ctx Hpf) by apply (mont_mult_reduced ctx Hpf).
    apply succeeds_ret.
Qed.

Lemma normalize_is_pai : ec_ws_is_pai (Some N) = ec_ws_is_pai (Some P).
Proof.
  unfold N, ec_ws_is_pai, mont_is_zero.
  destruct (Z.eqb_spec (z P) 0) as [E|E].
  - rewrite E. reflexivity.
  - cbn [ec_ctx z]. fold ctx.
    destruct (Z.eqb_spec (mont_set 1 ctx) 0) as [F|_];
      [exfalso; exact (mont_set_1_nz ctx Hpf F) | reflexivity].
Qed.

Lemma normalize_on_curve : point_on_curve P = true -> point_on_curve N = true.
Proof.
  intros Hc. unfold N. destruct (Z.eqb_spec (z P) 0) as [E|E]; [exact Hc|].
  unfold point_on_curve, curve_b, field_of in *. cbn [ec_ctx x y z]. fold ctx in Hc |- *.
  rewrite <- (mont_inv_prime_spec ctx Hpf (z P) Hz E).
  apply on_curve_scale. exact Hc.
Qed.

Lemma normalize_z : z N = if z P =? 0 then 0 else mont_set 1 ctx.
Proof.
  unfold N. destruct (Z.eqb_spec (z P) 0) as [E|E]; [exact E | reflexivity].
Qed.

Lemma normalize_ctx : ec_ctx N = ec_ctx P.
Proof. unfold N. destruct (z P =? 0); reflexivity. Qed.

End Normalize.

(** X11. Normalization is canonical.  For a point P with reduced Z over a
    prime field, when the allocator serves the calls, [ec_ws_normalize]
    leaves a point with Z = 1, or Z = 0 when P is the
    point-at-infinity, with the affine coordinates of P; normalizing
    again changes nothing, [ec_ws_cmp] finds the result equal to P, and
    it is on the curve when P is. *)
Theorem normalize_canonical (P : EcPoint) (h1 h2 h3 : heap) :
  prime_field (field_of P) -> reduced (z P) (field_of P) = true ->
  never_fails h1 = true -> never_fails h2 = true -> never_fails h3 = true ->
  exists N : EcPoint,
    fst (ec_ws_normalize (Some P) h1) = (OK, Some N) /\
    ec_ctx N = ec_ctx P /\
    z N = (if z P =? 0 then 0 else mont_set 1 (field_of P)) /\
    affine N = affine P /\
    fst (ec_ws_normalize (Some N) h2) = (OK, Some N) /\
    fst (ec_ws_cmp (Some P) (Some N) h3) = OK /\
    (point_on_curve P = true -> point_on_curve N = true).
Proof.
  intros Hpf Hz Hh1 Hh2 Hh3.
  pose proof (normalize_ctx P) as Ec.
  pose proof (normalize_z P) as Ez.
  pose proof (normalize_affine P Hpf) as Ea.
  pose proof (normalize_is_pai P Hpf) as Ep.
  pose proof (normalize_on_curve P Hpf Hz) as Eo.
  pose proof (succeeds_fst _ _ h1 (normalize_result P) Hh1) as E1.
  pose proof (succeeds_fst _ _ h2 (normalize_idempotent P Hpf) Hh2) as E2.
  cbv zeta in *.
  match type of E1 with _ = (OK, Some ?n) => set (N := n) in * end.
  exists N. repeat split; try assumption.
  apply cmp_affine_iff; try assumption; [symmetry; exact Ec | | split; symmetry; assumption].
  unfold field_of. rewrite Ec, Ez.
  destruct (z P =? 0); [|apply (mod_reduced _ Hpf)].
  apply reduced_iff. pose proof (modulus_gt_2 _ Hpf). unfold field_of in *. lia.
Qed.

Lemma normalize_canonical_witness :
  exists N : EcPoint,
    fst (ec_ws_normalize (Some (toy_point 2 2 2)) []) = (OK, Some N) /\
    ec_ctx N = toy_curve /\
    z N = mont_set 1 toy_field /\
    affine N = affine (toy_point 2 2 2) /\
    fst (ec_ws_normalize (Some N) []) = (OK, Some N) /\
    fst (ec_ws_cmp (Some (toy_point 2 2 2)) (Some N) []) = OK /\
    (point_on_curve (toy_point 2 2 2) = true -> point_on_curve N = true).
Proof.
  apply (normalize_canonical (toy_point 2 2 2) [] [] []).
  - exact toy_prime_field.
  - reflexivity.
  - reflexivity.
  - reflexivity.
  - reflexivity.
Defined.

(** ** Points made by [ec_ws_new_point] *)

(** A successful [ec_ws_new_point] stores the point-at-infinity
    (0, 1, 0) or the Montgomery forms of its inputs with Z = 1, after the
    curve test. *)
Lemma new_point_outcome (cp : EcContext_ptr) (xb yb : list byte) (len : nat)
  (h : heap) (P : EcPoint) :
  let ctx := mont_ctx (target cp) in
  let ecp_x := mont_set (bytes_to_Z (firstn len xb)) ctx in
  let ecp_y := mont_set (bytes_to_Z (firstn len yb)) ctx in
  fst (ec_ws_new_point true (Some xb) (Some yb) len (Some cp) h) = Returns (OK, Live P) ->
  (mont_is_zero ecp_x ctx && mont_is_zero ecp_y ctx = true /\
   P = {| ec_ctx := cp; x := mont_set 0 ctx; y := mont_set 1 ctx; z := mont_set 0 ctx |})
  \/ (mont_is_zero ecp_x ctx && mont_is_zero ecp_y ctx = false /\
      mont_is_equal (mont_mult ecp_y ecp_y ctx)
        (mont_add (mont_sub (mont_sub (mont_sub
           (mont_mult (mont_mult ecp_x ecp_x ctx) ecp_x ctx) ecp_x ctx) ecp_x ctx)
           ecp_x ctx) (b (target cp)) ctx) ctx = true /\
      P = {| ec_ctx := cp; x := ecp_x; y := ecp_y; z := mont_set 1 ctx |}).
Proof.
  intros ctx ecp_x ecp_y. unfold ec_ws_new_point. fold ctx.
  destruct (len =? 0)%nat; [discriminate|].
  destruct (bytes ctx <? len)%nat; [discriminate|].
  unfold bind, ret, mont_from_bytes, mont_number, bind, ret.
  destruct (calloc h) as [[|] h1]; cbn [negb fst]; [|discriminate].
  destruct (calloc h1) as [[|] h2]; cbn [is_err retcode_eqb negb fst]; [|discriminate].
  destruct (calloc h2) as [[|] h3]; cbn [is_err retcode_eqb negb fst]; [|discriminate].
  destruct (calloc h3) as [[|] h4]; cbn [is_err retcode_eqb negb fst]; [|discriminate].
  fold ecp_x ecp_y.
  destruct (mont_is_zero ecp_x ctx && mont_is_zero ecp_y ctx).
  - intros E. inversion E. left. split; reflexivity.
  - destruct (new_workplace ctx h4) as [[|] h5]; cbn [negb fst]; [|discriminate].
    destruct (mont_is_equal _ _ ctx) eqn:Eq; cbn [negb]; [|discriminate].
    intros E. inversion E. right. repeat split.
Qed.

(** The curve test of [ec_ws_new_point] is the projective curve
    equation at Z = 1. *)
Lemma curve_check_on_curve (X Y bm : Z) (ctx : MontContext) :
  prime_field ctx ->
  mont_is_equal (mont_mult Y Y ctx)
    (mont_add (mont_sub (mont_sub (mont_sub
       (mont_mult (mont_mult X X ctx) X ctx) X ctx) X ctx) X ctx) bm ctx) ctx = true ->
  on_curve X Y (mont_set 1 ctx) bm ctx = true.
Proof.
  intros Hpf H. unfold mont_is_equal in H. apply Z.eqb_eq in H.
  unfold mont_set. curve_unfold. apply Z.eqb_eq.
  strip_goal (modulus ctx). strip_in (modulus ctx) H.
  set (c := mont_Rinv ctx) in *. set (R := mont_R ctx).
  apply (eqm_close2 _ _ _ 1 _ _
           (Y * Y * c + 3 * X * (R * c + 1) - bm * (R * R * c * c + R * c + 1)) _ _
           H (mont_Rinv_spec ctx Hpf)).
  fold c R. ring.
Qed.

(** X12. Every point [ec_ws_new_point] creates is on the curve.  Over a
    prime field, whatever the inputs and the state of the allocator, a
    point returned with code 0 belongs to the context given, has reduced
    coordinates and satisfies the curve equation. *)
Theorem new_point_on_curve (cp : EcContext_ptr) (xb yb : list byte) (len : nat)
  (h : heap) (P : EcPoint) :
  prime_field (mont_ctx (target cp)) ->
  fst (ec_ws_new_point true (Some xb) (Some yb) len (Some cp) h) = Returns (OK, Live P) ->
  ec_ctx P = cp /\ point_on_curve P = true /\
  projective (x P) (y P) (z P) (field_of P) = true.
Proof.
  intros Hpf E. apply new_point_outcome in E. cbv zeta in E.
  set (ctx := mont_ctx (target cp)) in *.
  assert (R1 : forall v, reduced (mont_set v ctx) ctx = true)
    by (intros v; apply (mod_reduced ctx Hpf)).
  assert (N1 : (mont_set 1 ctx =? 0) = false)
    by (apply Z.eqb_neq; apply (mont_set_1_nz ctx Hpf)).
  destruct E as [[_ ->]|(_ & Hc & ->)];
    unfold point_on_curve, curve_b, field_of, projective; cbn [ec_ctx x y z]; fold ctx;
    rewrite !R1, N1, ?andb_false_r; cbn [andb negb].
  - split; [reflexivity|]. split; [apply on_curve_pai | reflexivity].
  - split; [reflexivity|]. split; [|reflexivity].
    apply curve_check_on_curve; assumption.
Qed.

Lemma new_point_on_curve_witness :
  ec_ctx (toy_point 1 1 1) = toy_curve /\ point_on_curve (toy_point 1 1 1) = true /\
  projective (x (toy_point 1 1 1)) (y (toy_point 1 1 1)) (z (toy_point 1 1 1))
             (field_of (toy_point 1 1 1)) = true.
Proof.
  apply (new_point_on_curve toy_curve [x01] [x01] 1 [] (toy_point 1 1 1)).
  - exact toy_prime_field.
  - vm_compute; reflexivity.
Defined.

(** ** Round trip through the byte encoding *)

Lemma byte_of_to_Z (c : byte) (u : Z) : byte_of_Z (u * 256 + byte_to_Z c) = c.
Proof.
  unfold byte_of_Z.
  pose proof (byte_to_Z_range c) as Hc.
  replace ((u * 256 + byte_to_Z c) mod 256) with (byte_to_Z c)
    by (rewrite Z.add_comm, Z.mod_add by lia; symmetry; apply Z.mod_small; exact Hc).
  unfold byte_to_Z. rewrite N2Z.id, Byte.of_to_N. reflexivity.
Qed.

Lemma Z_to_bytes_to_Z (l : list byte) : Z_to_bytes (length l) (bytes_to_Z l) = l.
Proof.
  induction l as [|c l IH] using rev_ind; [reflexivity|].
  rewrite length_app, Nat.add_1_r, bytes_to_Z_app. cbn [length Z_to_bytes].
  rewrite byte_of_to_Z. f_equal.
  pose proof (byte_to_Z_range c) as Hc.
  replace ((bytes_to_Z l * 256 + byte_to_Z c) / 256) with (bytes_to_Z l); [exact IH|].
  rewrite Z.add_comm, Z.div_add by lia. rewrite Z.div_small by exact Hc. reflexivity.
Qed.

Lemma from_mont_set (v : Z) (ctx : MontContext) :
  prime_field ctx -> from_mont (mont_set v ctx) ctx = v mod modulus ctx.
Proof.
  intros Hpf. unfold from_mont, mont_set.
  strip_goal (modulus ctx). apply (eqm_unit ctx Hpf _ _ v). ring.
Qed.

(** X13. Export after import gives back the input.  Over a prime field, for
    coordinates x, y < p given on exactly ctx.bytes bytes: when
    [ec_ws_new_point] accepts them, [ec_ws_get_xy] of the point,
    served by the allocator, writes the very bytes of x and of y. *)
Theorem new_point_get_xy_round_trip (cp : EcContext_ptr) (xb yb : list byte)
  (h1 h2 : heap) (P : EcPoint) :
  let ctx := mont_ctx (target cp) in
  prime_field ctx ->
  length xb = bytes ctx -> length yb = bytes ctx ->
  bytes_to_Z xb < modulus ctx -> bytes_to_Z yb < modulus ctx ->
  fst (ec_ws_new_point true (Some xb) (Some yb) (bytes ctx) (Some cp) h1)
    = Returns (OK, Live P) ->
  never_fails h2 = true ->
  fst (ec_ws_get_xy true true (bytes ctx) (Some P) h2) = (OK, Some xb, Some yb).
Proof.
  intros ctx Hpf Lx Ly Bx By E Hh.
  pose proof (modulus_gt_2 ctx Hpf) as H2.
  pose proof (bytes_to_Z_range xb) as Rx. pose proof (bytes_to_Z_range yb) as Ry.
  apply new_point_outcome in E. cbv zeta in E. fold ctx in E.
  rewrite (firstn_length_eq xb _ Lx), (firstn_length_eq yb _ Ly) in E.
  rewrite !(mont_set_is_zero ctx Hpf) in E.
  rewrite !Z.mod_small in E by lia.
  assert (G : forall xw yw,
             ec_projective_to_affine (x P) (y P) (z P) ctx = (xw, yw) ->
             from_mont xw ctx = bytes_to_Z xb -> from_mont yw ctx = bytes_to_Z yb ->
             ec_ctx P = cp ->
             fst (ec_ws_get_xy true true (bytes ctx) (Some P) h2) = (OK, Some xb, Some yb)).
  { intros xw yw Ea Fx Fy Ec. apply succeeds_fst; [|exact Hh].
    unfold ec_ws_get_xy. destruct P as [e px py pz]. cbn [ec_ctx x y z] in *. subst e.
    fold ctx. unfold mont_bytes. rewrite Nat.eqb_refl. cbn [negb].
    do 3 served. rewrite Ea.
    eapply succeeds_bind; [apply succeeds_mont_to_bytes|].
    cbn beta iota delta [negb is_err retcode_eqb].
    eapply succeeds_bind; [apply succeeds_mont_to_bytes|].
    cbn beta iota delta [negb is_err retcode_eqb].
    unfold mont_bytes. rewrite Fx, Fy, <- Lx at 1. rewrite Z_to_bytes_to_Z.
    rewrite <- Ly. rewrite Z_to_bytes_to_Z. apply succeeds_ret. }
  destruct E as [[Hz ->]|(Hz & _ & ->)]; cbn [ec_ctx x y z] in G.
  - apply andb_true_iff in Hz. destruct Hz as [Zx Zy].
    apply Z.eqb_eq in Zx, Zy.
    apply (G (mont_set 0 ctx) (mont_set 0 ctx)); [|now rewrite from_mont_set, Zx
                                                   |now rewrite from_mont_set, Zy
                                                   |reflexivity].
    unfold ec_projective_to_affine, mont_is_zero.
    rewrite (mont_set_0 ctx Hpf). reflexivity.
  - apply (G (mont_set (bytes_to_Z xb) ctx) (mont_set (bytes_to_Z yb) ctx));
      [|rewrite from_mont_set by exact Hpf; apply Z.mod_small; lia
       |rewrite from_mont_set by exact Hpf; apply Z.mod_small; lia
       |reflexivity].
    unfold ec_projective_to_affine, mont_is_zero.
    destruct (Z.eqb_spec (mont_set 1 ctx) 0) as [F|_];
      [exfalso; exact (mont_set_1_nz ctx Hpf F)|].
    rewrite (mont_inv_prime_one ctx Hpf).
    rewrite !(mont_mult_1_r ctx Hpf) by apply (mod_reduced ctx Hpf).
    reflexivity.
Qed.

Lemma new_point_get_xy_round_trip_witness :
  let xb := [x00; x00; x00; x00; x00; x00; x00; x01] in
  fst (ec_ws_get_xy true true 8 (Some (toy_point 1 1 1)) []) = (OK, Some xb, Some xb).
Proof.
  intros xb.
  apply (new_point_get_xy_round_trip toy_curve xb xb [] [] (toy_point 1 1 1)).
  - exact toy_prime_field.
  - reflexivity.
  - reflexivity.
  - vm_compute; reflexivity.
  - vm_compute; reflexivity.
  - vm_compute; reflexivity.
  - reflexivity.
Defined.

(** ** Output handles on the error paths *)

(** X14. [ec_ws_new_point] leaves no stale handle.  Whenever it returns, the
    output pointer holds a point exactly when the code is 0; on every
    error path it was reset to NULL or never written. *)
Theorem new_point_handle (pecp : bool) (xo yo : option (list byte)) (len : nat)
  (cp : option EcContext_ptr) (h : heap) (res : retcode) (hd : handle EcPoint) :
  fst (ec_ws_new_point pecp xo yo len cp h) = Returns (res, hd) ->
  (res = OK -> exists P : EcPoint, hd = Live P) /\
  (res <> OK -> hd = Null \/ hd = Untouched).
Proof.
  assert (Err : forall r d, r <> OK -> d = Null \/ d = Untouched ->
            Returns (r, d) = Returns (res, hd) ->
            (res = OK -> exists P : EcPoint, hd = Live P) /\
            (res <> OK -> hd = Null \/ hd = Untouched)).
  { intros r d Hr Hd E. inversion E; subst. split; [contradiction | auto]. }
  assert (Ok : forall P, Returns (OK, Live P) = Returns (res, hd) ->
            (res = OK -> exists P : EcPoint, hd = Live P) /\
            (res <> OK -> hd = Null \/ hd = Untouched)).
  { intros P E. inversion E; subst. split; [eauto | contradiction]. }
  unfold ec_ws_new_point.
  destruct pecp; [|apply Err; [discriminate | auto]].
  destruct xo as [xb|]; [|apply Err; [discriminate | auto]].
  destruct yo as [yb|]; [|apply Err; [discriminate | auto]].
  destruct cp as [cp|]; [|apply Err; [discriminate | auto]].
  destruct (len =? 0)%nat; [apply Err; [discriminate | auto]|].
  destruct (_ <? len)%nat; [apply Err; [discriminate | auto]|].
  unfold bind, ret, mont_from_bytes, mont_number, bind, ret.
  destruct (calloc h) as [[|] h1]; cbn [negb fst]; [|apply Err; [discriminate | auto]].
  destruct (calloc h1) as [[|] h2]; cbn [is_err retcode_eqb negb fst];
    [|apply Err; [discriminate | auto]].
  destruct (calloc h2) as [[|] h3]; cbn [is_err retcode_eqb negb fst];
    [|apply Err; [discriminate | auto]].
  destruct (calloc h3) as [[|] h4]; cbn [is_err retcode_eqb negb fst];
    [|apply Err; [discriminate | auto]].
  destruct (_ && _); [apply Ok|].
  destruct (new_workplace _ h4) as [[|] h5]; cbn [negb fst]; [|discriminate].
  destruct (mont_is_equal _ _ _); cbn [negb]; [apply Ok|].
  apply Err; [discriminate | auto].
Qed.

Lemma new_point_handle_witness :
  (ERR_EC_POINT = OK -> exists P : EcPoint, @Null EcPoint = Live P) /\
  (ERR_EC_POINT <> OK -> @Null EcPoint = Null \/ @Null EcPoint = Untouched).
Proof.
  apply (new_point_handle true (Some [x01]) (Some [x02]) 1 (Some toy_curve) []).
  vm_compute; reflexivity.
Defined.

Lemma new_workplace_refused (ctx : MontContext) (n : nat) :
  (n < 13)%nat -> fst (new_workplace ctx (fails_after n)) = false.
Proof.
  intros Hn.
  do 13 (destruct n as [|n]; [reflexivity|]). lia.
Qed.

(** X15. [ec_ws_new_point] uses its workplace unchecked.  For inputs of a
    valid length other than (0, 0), when the point and its three
    coordinates have been allocated and one of the thirteen allocations
    of the workplace is refused, [new_workplace] returns NULL and the
    curve test writes through it: the call does not return an error
    code. *)
Theorem new_point_unchecked_workplace (cp : EcContext_ptr) (xb yb : list byte)
  (len n : nat) :
  let ctx := mont_ctx (target cp) in
  (0 < len <= bytes ctx)%nat ->
  mont_is_zero (mont_set (bytes_to_Z (firstn len xb)) ctx) ctx
  && mont_is_zero (mont_set (bytes_to_Z (firstn len yb)) ctx) ctx = false ->
  (n < 13)%nat ->
  fst (ec_ws_new_point true (Some xb) (Some yb) len (Some cp)
         (repeat true 4 ++ fails_after n)) = Undefined.
Proof.
  intros ctx Hlen Hnz Hn. unfold ec_ws_new_point. fold ctx.
  destruct (Nat.eqb_spec len 0) as [E|_]; [lia|].
  destruct (Nat.ltb_spec (bytes ctx) len) as [E|_]; [lia|].
  unfold bind, ret, mont_from_bytes, mont_number, bind, ret.
  cbn [repeat app calloc negb is_err retcode_eqb fst].
  rewrite Hnz.
  pose proof (new_workplace_refused ctx n Hn) as Hw.
  destruct (new_workplace ctx (fails_after n)) as [wp h5]. cbn [fst] in Hw. subst wp.
  reflexivity.
Qed.

Lemma new_point_unchecked_workplace_witness :
  fst (ec_ws_new_point true (Some [x01]) (Some [x01]) 1 (Some toy_curve)
         (repeat true 4 ++ fails_after 0)) = Undefined.
Proof.
  apply (new_point_unchecked_workplace toy_curve [x01] [x01] 1 0).
  - cbn. lia.
  - vm_compute; reflexivity.
  - lia.
Defined.

(** X16. [ec_ws_new_context] leaves a dangling handle.  With its pointer
    arguments set, whenever the call returns an error code the output
    pointer is NULL if the length is zero or the context itself could
    not be allocated; on every later failure the context has been freed
    and the output pointer still holds its address. *)
Theorem new_context_dangling (tbl : P256Table) (modulus b : list byte)
  (order : option (list byte)) (len : nat) (seed : Z) (h : heap)
  (res : retcode) (hd : handle EcContext) :
  fst (ec_ws_new_context tbl true (Some modulus) (Some b) order len seed h)
    = Returns (res, hd) ->
  res <> OK ->
  hd = if (len =? 0)%nat || negb (fst (calloc h)) then Null else Dangling.
Proof.
  unfold ec_ws_new_context.
  destruct (len =? 0)%nat; cbn [orb].
  { intros E _. inversion E. reflexivity. }
  unfold bind at 1. destruct (calloc h) as [[|] h1]; cbn [negb fst];
    [|intros E _; inversion E; reflexivity].
  unfold bind at 1. destruct (mont_context_init modulus len h1) as [[r m] h2].
  destruct m as [ctx|]; [|intros E _; inversion E; reflexivity].
  destruct (is_err r); [intros E _; inversion E; reflexivity|].
  unfold bind at 1. destruct (mont_from_bytes b len ctx h2) as [[r1 bm] h3].
  destruct (is_err r1); [intros E _; inversion E; reflexivity|].
  unfold bind at 1. destruct (calloc h3) as [[|] h4]; cbn [negb];
    [|intros E _; inversion E; reflexivity].
  destruct order as [order|]; [|discriminate].
  destruct (ModulusType_eqb _ _).
  - unfold bind at 1. destruct (ec_scramble_g_p256 tbl ctx seed h4) as [[g|] h5].
    + intros E N. inversion E. subst. contradiction.
    + intros E _. inversion E. reflexivity.
  - intros E N. inversion E. subst. contradiction.
Qed.

(** The allocation of the order words is refused. *)
Lemma new_context_dangling_witness :
  @Dangling EcContext
  = if (1 =? 0)%nat || negb (fst (calloc (fails_after 3))) then Null else Dangling.
Proof.
  apply (new_context_dangling (mkP256Table 5 52 32 []) [x07] [x03] (Some [x06]) 1 0
           (fails_after 3) ERR_MEMORY).
  - vm_compute; reflexivity.
  - discriminate.
Defined.

(** ** Multiples of the point-at-infinity *)

Section LadderAtInfinity.
Variable ctx : MontContext.
Hypothesis Hpf : prime_field ctx.
Variables y1 b : Z.

Lemma triple_is_pai_iff (w : Z * Z * Z) :
  triple_is_pai w = true <-> fst (fst w) = 0 /\ snd w = 0.
Proof.
  destruct w as [[xw yw] zw]. cbn [triple_is_pai fst snd].
  rewrite andb_true_iff, !Z.eqb_eq. tauto.
Qed.

Lemma full_add_pai_pai (ya yb : Z) :
  triple_is_pai (ec_full_add 0 ya 0 0 yb 0 b ctx) = true.
Proof.
  rewrite full_add_pai_r. cbv zeta. cbn [triple_is_pai].
  rewrite !(mont_mult_0_r ctx Hpf). reflexivity.
Qed.

Lemma window_from_pai (n : nat) (prev : Z * Z * Z) :
  triple_is_pai prev = true ->
  Forall (fun w => triple_is_pai w = true)
         (window_from n prev false 0 y1 0 b ctx).
Proof.
  revert prev. induction n as [|n IH]; intros [[xp yp] zp] Hp; cbn [window_from].
  - constructor.
  - apply triple_is_pai_iff in Hp. cbn [fst snd] in Hp. destruct Hp as [-> ->].
    constructor; [apply full_add_pai_pai|]. apply IH. apply full_add_pai_pai.
Qed.

Lemma double_times_is_pai (j : nat) (acc : Z * Z * Z) :
  triple_is_pai acc = true -> triple_is_pai (double_times j acc b ctx) = true.
Proof.
  revert acc. induction j as [|j IH]; intros [[xa ya] za] Ha; cbn [double_times].
  - exact Ha.
  - apply triple_is_pai_iff in Ha. cbn [fst snd] in Ha. destruct Ha as [-> ->].
    apply IH. rewrite full_double_pai. cbv zeta. cbn [triple_is_pai].
    rewrite !(mont_mult_0_l ctx Hpf). reflexivity.
Qed.

Lemma ec_scalar_loop_pai (window : list (Z * Z * Z)) (k n : nat)
  (bw : BitWindow_LR) (acc : Z * Z * Z) :
  Forall (fun w => triple_is_pai w = true) window ->
  triple_is_pai acc = true ->
  triple_is_pai
    (ec_scalar_loop n bw
       (firstn k (map (fun w => fst (fst w)) window))
       (firstn k (map (fun w => snd (fst w)) window))
       (firstn k (map (fun w => snd w) window)) acc b ctx) = true.
Proof.
  intros Hw. revert bw acc.
  induction n as [|n IH]; intros bw acc Ha; cbn [ec_scalar_loop].
  - exact Ha.
  - destruct (get_next_digit_lr bw) as [index bw'].
    pose proof (double_times_is_pai WINDOW_SIZE_BITS acc Ha) as Hd.
    destruct (double_times WINDOW_SIZE_BITS acc b ctx) as [[x3 y3] z3].
    apply IH.
    pose proof (gather_window window k index) as G.
    assert (Hg : triple_is_pai (nth index (firstn k window) (0, 0, 0)) = true).
    { destruct (Nat.lt_ge_cases index (length (firstn k window))) as [L|L].
      - assert (Hf : Forall (fun w => triple_is_pai w = true) (firstn k window))
          by (apply Forall_firstn; exact Hw).
        rewrite Forall_forall in Hf. apply Hf. apply nth_In. exact L.
      - rewrite nth_overflow by exact L. reflexivity. }
    rewrite <- G in Hg.
    apply triple_is_pai_iff in Hd, Hg. cbn [fst snd] in Hd, Hg.
    destruct Hd as [-> ->]. destruct Hg as [-> ->].
    apply full_add_pai_pai.
Qed.

(** When [ec_scalar] is given (0 : y1 : 0), it writes some (0 : Y : 0). *)
Lemma ec_scalar_pai (exp : list byte) (seed : Z) (h : heap) :
  match fst (ec_scalar 0 y1 0 b exp seed ctx h) with
  | Returns (_, Some w) => triple_is_pai w = true
  | _ => True
  end.
Proof.
  unfold ec_scalar, bind, ret, scatter, bind, ret.
  assert (E1 : mont_is_one 0 ctx = false).
  { unfold mont_is_one. apply Z.eqb_neq. intros F. symmetry in F.
    exact (mont_set_1_nz ctx Hpf F). }
  rewrite E1, (mont_set_0 ctx Hpf).
  destruct (callocs 3 h) as [[|] h1]; cbn [negb fst]; [|exact I].
  destruct (callocs (3 * WINDOW_SIZE_ITEMS) h1) as [[|] h2]; cbn [negb fst]; [|exact I].
  destruct (calloc h2) as [[|] h3]; cbn [is_err retcode_eqb negb fst]; [|exact I].
  destruct (calloc h3) as [[|] h4]; cbn [is_err retcode_eqb negb fst]; [|exact I].
  destruct (calloc h4) as [[|] h5]; cbn [is_err retcode_eqb negb fst]; [|exact I].
  apply ec_scalar_loop_pai; [|reflexivity].
  constructor; [reflexivity|]. constructor; [reflexivity|].
  apply window_from_pai. reflexivity.
Qed.

End LadderAtInfinity.

(** X17. Every multiple of the point-at-infinity is the point-at-infinity.
    Over a prime field, for every representation (0 : Y : 0) of the
    point-at-infinity, every scalar and every seed: [ec_ws_scalar]
    returns when the allocator serves every request, and whenever it
    returns, whatever the code and the state of the allocator, it leaves
    a point with X = 0 and Z = 0, of which [ec_ws_is_pai] holds. *)
Theorem scalar_of_pai (tbl : P256Table) (expand_seed : Z -> nat -> list byte)
  (P : EcPoint) (k : option (list byte)) (len : nat) (seed : Z) (h : heap) :
  prime_field (field_of P) -> x P = 0 -> z P = 0 ->
  (never_fails h = true ->
   exists r, fst (ec_ws_scalar tbl expand_seed (Some P) k len seed h) = Returns r) /\
  (forall (res : retcode) (out : option EcPoint),
     fst (ec_ws_scalar tbl expand_seed (Some P) k len seed h) = Returns (res, out) ->
     exists P' : EcPoint,
       out = Some P' /\ x P' = 0 /\ z P' = 0 /\ ec_ws_is_pai (Some P') = true).
Proof.
  intros Hpf Hx Hz. split; [apply ec_ws_scalar_returns|].
  assert (G : match fst (ec_ws_scalar tbl expand_seed (Some P) k len seed h) with
              | Returns (_, out) =>
                  exists P' : EcPoint,
                    out = Some P' /\ x P' = 0 /\ z P' = 0
                    /\ ec_ws_is_pai (Some P') = true
              | Undefined => True
              end);
    [|intros res out E; rewrite E in G; exact G].
  assert (Keep : forall (res : retcode) (Q : EcPoint) (h' : heap),
             x Q = 0 -> z Q = 0 ->
             match fst (ret (Returns (res, Some Q)) h') with
             | Returns (_, out) =>
                 exists P' : EcPoint,
                   out = Some P' /\ x P' = 0 /\ z P' = 0
                   /\ ec_ws_is_pai (Some P') = true
             | Undefined => True
             end).
  { intros res Q h' E1 E2. exists Q. repeat split; try assumption.
    unfold ec_ws_is_pai, mont_is_zero. rewrite E2. reflexivity. }
  assert (Stay : forall (res : retcode) (h' : heap),
             match fst (ret (Returns (res, Some P)) h') with
             | Returns (_, out) =>
                 exists P' : EcPoint,
                   out = Some P' /\ x P' = 0 /\ z P' = 0
                   /\ ec_ws_is_pai (Some P') = true
             | Undefined => True
             end)
    by (intros res h'; apply Keep; assumption).
  unfold ec_ws_scalar.
  destruct k as [k|]; [|apply Stay].
  destruct (len =? 0)%nat; [apply Stay|].
  unfold field_of in Hpf.
  set (ctx := mont_ctx (target (ec_ctx P))) in *.
  assert (Hg : is_generator P = false).
  { unfold is_generator, mont_is_one. fold ctx. rewrite Hz.
    destruct (Z.eqb_spec 0 (mont_set 1 ctx)) as [F|_];
      [symmetry in F; destruct (mont_set_1_nz ctx Hpf F) | apply andb_false_r]. }
  rewrite Hg, andb_false_r.
  unfold bind at 1.
  destruct (new_workplace ctx h) as [[|] h1]; cbn [negb]; [|apply Stay].
  unfold bind at 1.
  destruct (new_workplace ctx h1) as [[|] h2]; cbn [negb]; [|apply Stay].
  destruct (Z.eqb_spec seed 0) as [Hs|Hs]; cbn [negb].
  - (* no blinding *)
    unfold bind at 1. rewrite Hx, Hz.
    pose proof (ec_scalar_pai ctx Hpf (y P) (b (target (ec_ctx P)))
                  (firstn len k) ((seed + 1) mod 2 ^ 64) h2) as Ho.
    destruct (ec_scalar _ _ _ _ _ _ _ h2) as [[[r o]|] h3]; [|exact I].
    cbn [fst] in Ho. destruct o as [w|]; [|apply Stay].
    destruct w as [[x3 y3] z3]. apply andb_true_iff in Ho.
    destruct Ho as [E1 E2]. apply Z.eqb_eq in E1, E2.
    apply Keep; assumption.
  - (* blinding *)
    unfold bind at 1.
    destruct (mont_number 1 ctx h2) as [r h3].
    destruct (is_err r); [apply Stay|].
    rewrite Hx, Hz, !(mont_mult_0_l ctx Hpf).
    unfold bind at 1.
    destruct (blind_scalar_factor k len (seed mod 2 ^ 32)
                (order (target (ec_ctx P))) (words ctx) h3) as [[[r1 bs] bl] h4].
    destruct (is_err r1); [apply Keep; reflexivity|].
    unfold bind at 1. cbn [x y z].
    match goal with
    | |- context [ec_scalar 0 ?a2 0 ?a4 ?a5 ?a6 ctx h4] =>
        pose proof (ec_scalar_pai ctx Hpf a2 a4 a5 a6 h4) as Ho;
        destruct (ec_scalar 0 a2 0 a4 a5 a6 ctx h4) as [[[r2 o]|] h5]; [|exact I]
    end.
    cbn [fst] in Ho. destruct o as [w|]; [|apply Keep; reflexivity].
    destruct w as [[x3 y3] z3]. apply andb_true_iff in Ho.
    destruct Ho as [E1 E2]. apply Z.eqb_eq in E1, E2.
    apply Keep; assumption.
Qed.

(** 5 times the point-at-infinity of the toy curve, blinded. *)
Lemma scalar_of_pai_witness :
  let tbl := mkP256Table 5 52 32 [] in
  let es := fun (_ : Z) (len : nat) => repeat x01 len in
  let P := toy_point 0 1 0 in
  (exists r, fst (ec_ws_scalar tbl es (Some P) (Some [x05]) 1 1 []) = Returns r) /\
  (forall (res : retcode) (out : option EcPoint),
     fst (ec_ws_scalar tbl es (Some P) (Some [x05]) 1 1 []) = Returns (res, out) ->
     exists P' : EcPoint,
       out = Some P' /\ x P' = 0 /\ z P' = 0 /\ ec_ws_is_pai (Some P') = true).
Proof.
  intros tbl es P.
  destruct (scalar_of_pai tbl es P (Some [x05]) 1 1 [] toy_prime_field) as [R K].
  - reflexivity.
  - reflexivity.
  - split; [exact (R eq_refl) | exact K].
Defined.

(** ** Leading zero bytes of the scalar *)

Lemma skip_leading_zeroes_app (n : nat) (l : list byte) :
  skip_leading_zeroes (repeat x00 n ++ l) = skip_leading_zeroes l.
Proof. induction n as [|n IH]; [reflexivity | exact IH]. Qed.

Lemma bytes_to_Z_zeroes (n : nat) (l : list byte) :
  bytes_to_Z (repeat x00 n ++ l) = bytes_to_Z l.
Proof. induction n as [|n IH]; [reflexivity | exact IH]. Qed.

Lemma firstn_zeroes_app (n len : nat) (k : list byte) :
  firstn (n + len) (repeat x00 n ++ k) = repeat x00 n ++ firstn len k.
Proof.
  rewrite <- (repeat_length x00 n) at 1. apply firstn_app_2.
Qed.

(** A number written on more bytes than it needs gets leading zero
    bytes. *)
Lemma Z_to_bytes_pad (m1 : nat) :
  forall (m2 : nat) (v : Z),
    0 <= v < 256 ^ Z.of_nat m1 -> (m1 <= m2)%nat ->
    Z_to_bytes m2 v = repeat x00 (m2 - m1) ++ Z_to_bytes m1 v.
Proof.
  induction m1 as [|m1 IH]; intros m2 v Hv Hm.
  - cbn in Hv. replace v with 0 by lia.
    rewrite Z_to_bytes_0, Nat.sub_0_r, app_nil_r. reflexivity.
  - destruct m2 as [|m2]; [lia|].
    cbn [Z_to_bytes Nat.sub].
    rewrite (IH m2 (v / 256)); [symmetry; apply app_assoc| |lia].
    replace (Z.of_nat (S m1)) with (Z.succ (Z.of_nat m1)) in Hv by lia.
    rewrite Z.pow_succ_r in Hv by lia.
    split; [apply Z.div_pos; lia|].
    apply Z.div_lt_upper_bound; lia.
Qed.

Lemma ec_scalar_skip (x1 y1 z1 b : Z) (e1 e2 : list byte) (seed : Z)
  (ctx : MontContext) :
  skip_leading_zeroes e1 = skip_leading_zeroes e2 ->
  ec_scalar x1 y1 z1 b e1 seed ctx = ec_scalar x1 y1 z1 b e2 seed ctx.
Proof. intros E. unfold ec_scalar. rewrite E. reflexivity. Qed.

Lemma ec_scalar_g_p256_skip (tbl : P256Table) (b : Z) (e1 e2 : list byte)
  (seed : Z) (g : list (list (Z * Z))) (ctx : MontContext) :
  skip_leading_zeroes e1 = skip_leading_zeroes e2 ->
  ec_scalar_g_p256 tbl b e1 seed g ctx = ec_scalar_g_p256 tbl b e2 seed g ctx.
Proof. intros E. unfold ec_scalar_g_p256. rewrite E. reflexivity. Qed.

Lemma bind_ext {A B : Type} (m : M A) (f g : A -> M B) (h : heap) :
  (forall a h', f a h' = g a h') -> bind m f h = bind m g h.
Proof. intros E. unfold bind. destruct (m h) as [a h']. apply E. Qed.

(** What [blind_scalar_factor] returns, by the allocations served. *)
Lemma blind_scalar_factor_value (scalar : list byte) (scalar_len : nat) (R_seed : Z)
  (order : list Z) (order_words : nat) (h : heap) :
  0 <= R_seed < 2 ^ 32 ->
  Forall (fun w => 0 <= w < 2 ^ 64) order ->
  let v := bytes_to_Z (firstn scalar_len scalar)
           + words_to_Z (firstn order_words order) * R_seed in
  let nw := (Nat.max order_words ((scalar_len + 7) / 8) + 2)%nat in
  0 <= v < 256 ^ Z.of_nat (nw * 8) /\
  blind_scalar_factor scalar scalar_len R_seed order order_words h
  = let (p1, h1) := calloc h in
    if negb p1 then (ERR_MEMORY, None, (nw * 8)%nat, h1) else
    let (p2, h2) := calloc h1 in
    if negb p2 then (ERR_MEMORY, Some (repeat x00 (nw * 8)), (nw * 8)%nat, h2)
    else (OK, Some (Z_to_bytes (nw * 8) v), (nw * 8)%nat, h2).
Proof.
  intros HR Ho v nw.
  pose proof (blind_bound scalar scalar_len R_seed order order_words HR Ho) as B.
  cbv zeta in B. destruct B as [Bk Bv].
  assert (Ev : bytes_to_Z (firstn scalar_len scalar)
               + words_to_Z (firstn order_words order) * (R_seed + 2 ^ 64 * 0) = v)
    by (subst v; ring).
  rewrite Ev in Bv. fold nw in Bv.
  assert (Enw : Nat.max (order_words + 2) ((scalar_len + 7) / 8 + 2) = nw)
    by (subst nw; lia).
  split.
  { rewrite pow256. replace (8 * Z.of_nat (nw * 8)) with (64 * Z.of_nat nw) by lia.
    exact Bv. }
  unfold blind_scalar_factor, bind, ret. rewrite Enw.
  destruct (calloc h) as [[|] h1]; cbn [negb]; [|reflexivity].
  destruct (calloc h1) as [[|] h2]; cbn [negb]; [|reflexivity].
  unfold words_to_bytes, addmul128, bytes_to_words.
  rewrite length_Z_to_words.
  rewrite (firstn_length_eq _ _ (length_Z_to_words _ _)).
  rewrite !words_to_Z_to_words.
  rewrite (Z.mod_small (bytes_to_Z (firstn scalar_len scalar))).
  2:{ split; [lia|]. eapply Z.lt_le_trans; [apply Bk|].
      apply Z.pow_le_mono_r; lia. }
  rewrite Ev. rewrite (Z.mod_small _ _ Bv). reflexivity.
Qed.

(** X18. Leading zero bytes of the scalar do not count.  For every point
    whose context holds an order of 64-bit words, every seed and every
    state of the allocator, [ec_ws_scalar] on a scalar of [len] > 0
    bytes and on the same scalar after [n] more zero bytes in front
    return the same code and leave the same point, on the generator fast
    path, with blinding and without. *)
Theorem scalar_ignores_leading_zeroes (tbl : P256Table)
  (expand_seed : Z -> nat -> list byte) (P : EcPoint) (k : list byte)
  (n len : nat) (seed : Z) (h : heap) :
  len <> 0%nat ->
  Forall (fun w => 0 <= w < 2 ^ 64) (order (target (ec_ctx P))) ->
  ec_ws_scalar tbl expand_seed (Some P) (Some (repeat x00 n ++ k)) (n + len) seed h
  = ec_ws_scalar tbl expand_seed (Some P) (Some k) len seed h.
Proof.
  intros Hlen Ho. unfold ec_ws_scalar.
  destruct (Nat.eqb_spec (n + len) 0) as [E|_]; [lia|].
  destruct (Nat.eqb_spec len 0) as [E|_]; [contradiction|].
  rewrite firstn_zeroes_app.
  set (ctx := mont_ctx (target (ec_ctx P))).
  apply bind_ext. intros [|] h1; cbn [negb]; [|reflexivity].
  apply bind_ext. intros [|] h2; cbn [negb]; [|reflexivity].
  destruct (ModulusType_eqb (modulus_type ctx) ModulusP256 && is_generator P).
  { rewrite (ec_scalar_g_p256_skip tbl _ (repeat x00 n ++ firstn len k) (firstn len k))
      by apply skip_leading_zeroes_app.
    reflexivity. }
  destruct (negb (seed =? 0)).
  - apply bind_ext. intros r h3.
    destruct (is_err r); [reflexivity|].
    assert (HR : 0 <= seed mod 2 ^ 32 < 2 ^ 32) by (apply Z.mod_pos_bound; lia).
    destruct (blind_scalar_factor_value (repeat x00 n ++ k) (n + len) (seed mod 2 ^ 32)
                (order (target (ec_ctx P))) (words ctx) h3 HR Ho) as [B2 E2].
    destruct (blind_scalar_factor_value k len (seed mod 2 ^ 32)
                (order (target (ec_ctx P))) (words ctx) h3 HR Ho) as [B1 E1].
    rewrite firstn_zeroes_app, bytes_to_Z_zeroes in B2, E2.
    set (v := bytes_to_Z (firstn len k)
              + words_to_Z (firstn (words ctx) (order (target (ec_ctx P))))
                * (seed mod 2 ^ 32)) in *.
    set (nw2 := (Nat.max (words ctx) ((n + len + 7) / 8) + 2)%nat) in *.
    set (nw1 := (Nat.max (words ctx) ((len + 7) / 8) + 2)%nat) in *.
    unfold bind at 1. rewrite E2. unfold bind at 2. rewrite E1.
    destruct (calloc h3) as [[|] h4]; cbn [negb is_err retcode_eqb]; [|reflexivity].
    destruct (calloc h4) as [[|] h5]; cbn [negb is_err retcode_eqb]; [|reflexivity].
    rewrite !(firstn_length_eq _ _ (length_Z_to_bytes _ _)).
    assert (Hnw : (nw1 * 8 <= nw2 * 8)%nat).
    { assert ((len + 7) / 8 <= (n + len + 7) / 8)%nat
        by (apply Nat.Div0.div_le_mono; lia).
      subst nw1 nw2. lia. }
    rewrite (ec_scalar_skip _ _ _ _ (Z_to_bytes (nw2 * 8) v) (Z_to_bytes (nw1 * 8) v));
      [reflexivity|].
    rewrite (Z_to_bytes_pad (nw1 * 8) (nw2 * 8) v B1 Hnw).
    apply skip_leading_zeroes_app.
  - rewrite (ec_scalar_skip _ _ _ _ (repeat x00 n ++ firstn len k) (firstn len k))
      by apply skip_leading_zeroes_app.
    reflexivity.
Qed.

(** The scalar 5 on one byte and on three, blinded, on the toy curve. *)
Lemma scalar_ignores_leading_zeroes_witness :
  ec_ws_scalar (mkP256Table 5 52 32 []) (fun _ len => repeat x01 len)
    (Some (toy_point 1 1 1)) (Some (repeat x00 2 ++ [x05])) (2 + 1) 1 []
  = ec_ws_scalar (mkP256Table 5 52 32 []) (fun _ len => repeat x01 len)
      (Some (toy_point 1 1 1)) (Some [x05]) 1 1 [].
Proof.
  apply (scalar_ignores_leading_zeroes (mkP256Table 5 52 32 [])
           (fun _ len => repeat x01 len) (toy_point 1 1 1) [x05] 2 1 1 []).
  - discriminate.
  - repeat constructor; lia.
Defined.

(** ** Import after export *)

Section ExportImport.
Variable ctx : MontContext.
Hypothesis Hpf : prime_field ctx.

Lemma mont_set_from_mont (a : Z) :
  reduced a ctx = true -> mont_set (from_mont a ctx) ctx = a.
Proof.
  intros Ha. unfold mont_set, from_mont.
  apply eqm_reduced; [|exact Ha].
  apply (eqm_trans _ _ (a * mont_Rinv ctx * mont_R ctx)); [strip_ok (modulus ctx)|].
  apply (eqm_unit ctx Hpf _ _ a). ring.
Qed.

Lemma from_mont_range (a : Z) : 0 <= from_mont a ctx < modulus ctx.
Proof.
  unfold from_mont. apply Z.mod_pos_bound. pose proof (modulus_gt_2 ctx Hpf). lia.
Qed.

Lemma mont_set_1_unit : eqm (modulus ctx) (mont_set 1 ctx * mont_Rinv ctx) 1.
Proof.
  unfold mont_set.
  apply (eqm_trans _ _ (1 * mont_R ctx * mont_Rinv ctx)); [strip_ok (modulus ctx)|].
  apply (eqm_unit ctx Hpf _ _ 1). ring.
Qed.

(** The projective curve equation at Z = 1 is the curve test of
    [ec_ws_new_point]. *)
Lemma on_curve_curve_check (X Y bm : Z) :
  on_curve X Y (mont_set 1 ctx) bm ctx = true ->
  mont_is_equal (mont_mult Y Y ctx)
    (mont_add (mont_sub (mont_sub (mont_sub
       (mont_mult (mont_mult X X ctx) X ctx) X ctx) X ctx) X ctx) bm ctx) ctx = true.
Proof.
  pose proof mont_set_1_unit as Hu. revert Hu.
  generalize (mont_set 1 ctx). intros one Hu H.
  unfold on_curve, mont_is_equal in H. apply Z.eqb_eq in H.
  curve_unfold. apply Z.eqb_eq.
  strip_goal (modulus ctx). strip_in (modulus ctx) H.
  set (c := mont_Rinv ctx) in *.
  apply (eqm_close2 _ _ _ 1 _ _
           (- (Y * Y * c + 3 * X * (one * c + 1)
               - bm * (one * c * (one * c) + one * c + 1))) _ _ H Hu).
  ring.
Qed.

(** Encoding a residue on enough bytes and decoding it gives it back. *)
Lemma decode_encode (n : nat) (a : Z) :
  modulus ctx <= 256 ^ Z.of_nat n ->
  bytes_to_Z (firstn n (Z_to_bytes n (from_mont a ctx))) = from_mont a ctx.
Proof.
  intros Hn. rewrite (firstn_length_eq _ _ (length_Z_to_bytes _ _)).
  rewrite bytes_to_Z_to_bytes. apply Z.mod_small.
  pose proof (from_mont_range a). lia.
Qed.

End ExportImport.

(** What [ec_ws_get_xy] writes when the allocator serves it. *)
Lemma get_xy_served (P : EcPoint) :
  succeeds (ec_ws_get_xy true true (bytes (field_of P)) (Some P))
    (OK, Some (Z_to_bytes (bytes (field_of P)) (from_mont (fst (affine P)) (field_of P))),
         Some (Z_to_bytes (bytes (field_of P)) (from_mont (snd (affine P)) (field_of P)))).
Proof.
  unfold ec_ws_get_xy, affine, field_of. destruct P as [e px py pz].
  cbn [ec_ctx x y z]. unfold mont_bytes. rewrite Nat.eqb_refl. cbn [negb].
  do 3 served.
  destruct (ec_projective_to_affine px py pz (mont_ctx (target e))) as [xw yw].
  cbn [fst snd]. do 2 served. apply succeeds_ret.
Qed.

(** X19. Import after export gives the same point.  Over a prime field
    whose elements fit ctx.bytes bytes, for every point P on the curve
    with reduced coordinates that is the point-at-infinity or has affine
    coordinates other than (0, 0), when the allocator serves the calls:
    [ec_ws_get_xy] exports two byte strings that [ec_ws_new_point]
    accepts, and [ec_ws_cmp] finds the point it makes equal to P. *)
Theorem get_xy_new_point_round_trip (P : EcPoint) (h1 h2 h3 : heap) :
  let ctx := field_of P in
  prime_field ctx ->
  (0 < bytes ctx)%nat -> modulus ctx <= 256 ^ Z.of_nat (bytes ctx) ->
  reduced (z P) ctx = true -> point_on_curve P = true ->
  (z P <> 0 -> affine P <> (0, 0)) ->
  never_fails h1 = true -> never_fails h2 = true -> never_fails h3 = true ->
  exists (xb yb : list byte) (Q : EcPoint),
    fst (ec_ws_get_xy true true (bytes ctx) (Some P) h1) = (OK, Some xb, Some yb) /\
    fst (ec_ws_new_point true (Some xb) (Some yb) (bytes ctx) (Some (ec_ctx P)) h2)
      = Returns (OK, Live Q) /\
    fst (ec_ws_cmp (Some P) (Some Q) h3) = OK.
Proof.
  intros ctx Hpf Hb Hm Hz Hc Hnz Hh1 Hh2 Hh3.
  unfold field_of in *. subst ctx.
  set (ctx := mont_ctx (target (ec_ctx P))) in *.
  pose proof (normalize_affine P Hpf) as Na.
  pose proof (normalize_is_pai P Hpf) as Np.
  pose proof (normalize_on_curve P Hpf Hz Hc) as No.
  cbv zeta in Na, Np, No. fold ctx in Na, Np, No.
  destruct (affine P) as [xa ya] eqn:Ea.
  assert (Rxa : reduced xa ctx = true /\ reduced ya ctx = true).
  { unfold affine, ec_projective_to_affine in Ea. fold ctx in Ea.
    destruct (mont_is_zero (z P) ctx); inversion Ea;
      split; apply (mod_reduced ctx Hpf). }
  destruct Rxa as [Rx Ry].
  exists (Z_to_bytes (bytes ctx) (from_mont xa ctx)),
         (Z_to_bytes (bytes ctx) (from_mont ya ctx)).
  assert (G : fst (ec_ws_get_xy true true (bytes ctx) (Some P) h1)
              = (OK, Some (Z_to_bytes (bytes ctx) (from_mont xa ctx)),
                     Some (Z_to_bytes (bytes ctx) (from_mont ya ctx)))).
  { pose proof (succeeds_fst _ _ h1 (get_xy_served P) Hh1) as G.
    unfold field_of in G. fold ctx in G. rewrite Ea in G. exact G. }
  assert (New : forall Q : EcPoint,
             succeeds (ec_ws_new_point true
                         (Some (Z_to_bytes (bytes ctx) (from_mont xa ctx)))
                         (Some (Z_to_bytes (bytes ctx) (from_mont ya ctx)))
                         (bytes ctx) (Some (ec_ctx P)))
                      (Returns (OK, Live Q)) ->
             fst (ec_ws_cmp (Some P) (Some Q) h3) = OK ->
             exists Q0 : EcPoint,
               fst (ec_ws_get_xy true true (bytes ctx) (Some P) h1)
               = (OK, Some (Z_to_bytes (bytes ctx) (from_mont xa ctx)),
                      Some (Z_to_bytes (bytes ctx) (from_mont ya ctx))) /\
               fst (ec_ws_new_point true
                      (Some (Z_to_bytes (bytes ctx) (from_mont xa ctx)))
                      (Some (Z_to_bytes (bytes ctx) (from_mont ya ctx)))
                      (bytes ctx) (Some (ec_ctx P)) h2) = Returns (OK, Live Q0) /\
               fst (ec_ws_cmp (Some P) (Some Q0) h3) = OK).
  { intros Q HQ Hcmp. exists Q. split; [exact G|]. split; [|exact Hcmp].
    apply succeeds_fst; [exact HQ | exact Hh2]. }
  assert (Start : forall r,
             succeeds
               (if mont_is_zero xa ctx && mont_is_zero ya ctx then
                  ret (Returns (OK, Live {| ec_ctx := ec_ctx P; x := mont_set 0 ctx;
                                            y := mont_set 1 ctx; z := mont_set 0 ctx |}))
                else
                  wp <- new_workplace ctx ;;
                  if negb wp then ret Undefined
                  else
                    if negb (mont_is_equal (mont_mult ya ya ctx)
                               (mont_add (mont_sub (mont_sub (mont_sub
                                  (mont_mult (mont_mult xa xa ctx) xa ctx) xa ctx) xa ctx)
                                  xa ctx) (b (target (ec_ctx P))) ctx) ctx)
                    then ret (Returns (ERR_EC_POINT, Null))
                    else ret (Returns (OK, Live {| ec_ctx := ec_ctx P; x := xa; y := ya;
                                                   z := mont_set 1 ctx |}))) r ->
             succeeds (ec_ws_new_point true
                         (Some (Z_to_bytes (bytes ctx) (from_mont xa ctx)))
                         (Some (Z_to_bytes (bytes ctx) (from_mont ya ctx)))
                         (bytes ctx) (Some (ec_ctx P))) r).
  { intros r Hr. unfold ec_ws_new_point. fold ctx.
    destruct (Nat.eqb_spec (bytes ctx) 0) as [E|_]; [lia|].
    rewrite Nat.ltb_irrefl.
    do 4 served.
    rewrite !(decode_encode ctx Hpf _ _ Hm).
    rewrite !(mont_set_from_mont ctx Hpf) by assumption.
    exact Hr. }
  destruct (Z.eqb_spec (z P) 0) as [Ez|Ez].
  - (* the point-at-infinity *)
    assert (E0 : (xa, ya) = (mont_set 0 ctx, mont_set 0 ctx)).
    { unfold affine, ec_projective_to_affine, mont_is_zero in Ea. fold ctx in Ea.
      rewrite Ez in Ea. cbn [Z.eqb] in Ea. congruence. }
    inversion E0; subst xa ya.
    apply (New {| ec_ctx := ec_ctx P; x := mont_set 0 ctx; y := mont_set 1 ctx;
                  z := mont_set 0 ctx |}).
    + apply Start. unfold mont_is_zero. rewrite (mont_set_0 ctx Hpf). apply succeeds_ret.
    + apply succeeds_fst; [|exact Hh3].
      unfold ec_ws_cmp, same_ctx. cbn [ec_ctx x y z]. rewrite Nat.eqb_refl. cbn [negb].
      fold ctx. unfold mont_is_zero. rewrite Ez, (mont_set_0 ctx Hpf).
      apply succeeds_ret.
  - (* a finite point *)
    destruct (Z.eqb_spec (z P) 0) as [F|_]; [contradiction|].
    assert (Hnot : mont_is_zero xa ctx && mont_is_zero ya ctx = false).
    { unfold mont_is_zero.
      destruct (Z.eqb_spec xa 0) as [X0|_]; [|reflexivity].
      destruct (Z.eqb_spec ya 0) as [Y0|_]; [|reflexivity].
      exfalso. apply (Hnz Ez). congruence. }
    assert (Ea' : xa = mont_mult (x P) (mont_inv_prime (z P) ctx) ctx
                  /\ ya = mont_mult (y P) (mont_inv_prime (z P) ctx) ctx).
    { unfold affine, ec_projective_to_affine, mont_is_zero in Ea. fold ctx in Ea.
      destruct (Z.eqb_spec (z P) 0) as [F|_]; [contradiction|].
      inversion Ea. split; reflexivity. }
    destruct Ea' as [Ex Ey]. rewrite <- Ex, <- Ey in Na, Np, No.
    apply (New {| ec_ctx := ec_ctx P; x := xa; y := ya; z := mont_set 1 ctx |}).
    + apply Start. rewrite Hnot. served.
      rewrite (on_curve_curve_check ctx Hpf); [apply succeeds_ret|].
      exact No.
    + apply cmp_affine_iff; try assumption; try reflexivity.
      * apply (mod_reduced ctx Hpf).
      * split; [symmetry; exact Np | rewrite Na; exact Ea].
Qed.

Lemma get_xy_new_point_round_trip_witness :
  exists (xb yb : list byte) (Q : EcPoint),
    fst (ec_ws_get_xy true true 8 (Some (toy_point 2 2 2)) []) = (OK, Some xb, Some yb) /\
    fst (ec_ws_new_point true (Some xb) (Some yb) 8 (Some toy_curve) [])
      = Returns (OK, Live Q) /\
    fst (ec_ws_cmp (Some (toy_point 2 2 2)) (Some Q) []) = OK.
Proof.
  apply (get_xy_new_point_round_trip (toy_point 2 2 2) [] [] []).
  - exact toy_prime_field.
  - cbn. lia.
  - vm_compute. discriminate.
  - reflexivity.
  - vm_compute; reflexivity.
  - intros _. vm_compute. discriminate.
  - reflexivity.
  - reflexivity.
  - reflexivity.
Defined.

(** ** The formulae compute the chord-and-tangent rule *)

Ltac rule_unfold :=
  cbv beta zeta iota delta [ec_full_add ec_full_double chord_rule tangent_rule
                            on_curve mont_is_equal
                            mont_add mont_sub mont_mult mont_copy mulc] in *.

(** On the curve, the double [ec_full_double] computes and the point
    of the tangent rule are the same projective point. *)
Lemma full_double_tangent (x1 y1 z1 b : Z) (ctx : MontContext) :
  on_curve x1 y1 z1 b ctx = true ->
  let '(x3, y3, z3) := ec_full_double x1 y1 z1 b ctx in
  let '(xt, yt, zt) := tangent_rule x1 y1 z1 ctx in
  mont_mult x3 zt ctx = mont_mult xt z3 ctx /\
  mont_mult y3 zt ctx = mont_mult yt z3 ctx.
Proof.
  intros H. unfold on_curve, mont_is_equal in H. apply Z.eqb_eq in H.
  rule_unfold.
  strip_in (modulus ctx) H.
  set (c := mont_Rinv ctx) in *.
  split; strip_goal (modulus ctx).
  - apply (eqm_close _ _ _ (144 * x1 * y1^4 * z1^3 * c^8) _ _ H). ring.
  - apply (eqm_close _ _ _
      (- 216 * x1^3 * y1^3 * z1^2 * c^8 + 72 * x1 * y1^3 * z1^4 * c^8
       + 72 * y1^5 * z1^3 * c^8 + 72 * y1^3 * z1^5 * b * c^9) _ _ H).
    ring.
Qed.

(** On the curve, the sum [ec_full_add] computes and the point of the
    chord rule are the same projective point. *)
Lemma full_add_chord (x1 y1 z1 x2 y2 z2 b : Z) (ctx : MontContext) :
  on_curve x1 y1 z1 b ctx = true ->
  on_curve x2 y2 z2 b ctx = true ->
  let '(x3, y3, z3) := ec_full_add x1 y1 z1 x2 y2 z2 b ctx in
  let '(xc, yc, zc) := chord_rule x1 y1 z1 x2 y2 z2 ctx in
  mont_mult x3 zc ctx = mont_mult xc z3 ctx /\
  mont_mult y3 zc ctx = mont_mult yc z3 ctx.
Proof.
  intros H1 H2.
  unfold on_curve, mont_is_equal in H1, H2. apply Z.eqb_eq in H1, H2.
  rule_unfold.
  strip_in (modulus ctx) H1. strip_in (modulus ctx) H2.
  set (c := mont_Rinv ctx) in *.
  split; strip_goal (modulus ctx).
  - apply (eqm_close2 _ _ _
      (3 * x1^3 * x2 * y2 * z2^4 * c^9 + 3 * x1^2 * x2^2 * y1 * z2^4 * c^9 - 6
       * x1^2 * x2^2 * z1 * y2 * z2^3 * c^9 - 3 * x1^2 * y1 * z2^6 * c^9 - 3 *
       x1^2 * z1 * y2 * z2^5 * c^9 - 6 * x1 * x2^3 * y1 * z1 * z2^3 * c^9 + 6
       * x1 * x2 * y1 * z1 * z2^5 * c^9 + 15 * x1 * x2 * z1^2 * y2 * z2^4 *
       c^9 + x1 * y1^2 * y2 * z2^5 * c^9 + 2 * x1 * y1 * z1 * y2^2 * z2^4 *
       c^9 - 3 * x1 * z1^2 * y2 * z2^5 * b * c^10 + 6 * x2^4 * z1^3 * y2 * z2
       * c^9 + 6 * x2^2 * y1 * z1^2 * z2^4 * c^9 - 21 * x2^2 * z1^3 * y2 *
       z2^3 * c^9 - x2 * y1^2 * z1 * y2 * z2^4 * c^9 + x2 * y1 * z1^2 * y2^2 *
       z2^3 * c^9 - 3 * x2 * y1 * z1^2 * z2^5 * b * c^10 - 3 * x2 * z1^3 *
       y2^3 * z2^2 * c^9 + 6 * x2 * z1^3 * y2 * z2^4 * b * c^10)
      _ _
      (6 * x1^2 * x2^2 * y1 * z1^3 * z2 * c^9 - 3 * x1^2 * x2^2 * z1^4 * y2 *
       c^9 + 3 * x1^2 * y1 * z1^3 * z2^3 * c^9 - 6 * x1^2 * z1^4 * y2 * z2^2 *
       c^9 - 3 * x1 * x2^3 * y1 * z1^4 * c^9 - 15 * x1 * x2 * y1 * z1^4 * z2^2
       * c^9 + 12 * x1 * x2 * z1^5 * y2 * z2 * c^9 - 3 * x1 * y1^3 * z1^2 *
       z2^3 * c^9 - x1 * y1^2 * z1^3 * y2 * z2^2 * c^9 + x1 * y1 * z1^4 * y2^2
       * z2 * c^9 + 3 * x1 * z1^5 * y2 * z2^2 * b * c^10 + 3 * x2^2 * y1 *
       z1^5 * z2 * c^9 + 3 * x2^2 * z1^6 * y2 * c^9 + 4 * x2 * y1^2 * z1^4 *
       y2 * z2 * c^9 - x2 * y1 * z1^5 * y2^2 * c^9 + 3 * x2 * y1 * z1^5 * z2^2
       * b * c^10 - 6 * x2 * z1^6 * y2 * z2 * b * c^10)
      _ _ H1 H2).
    ring.
  - apply (eqm_close2 _ _ _
      (- 9 * x1^2 * x2^2 * z1 * z2^4 * c^9 - 3 * x1^2 * x2 * y1 * y2 * z2^4 *
       c^9 + 6 * x1^2 * x2 * z1 * y2^2 * z2^3 * c^9 + 9 * x1^2 * x2 * z1 *
       z2^5 * b * c^10 - 9 * x1^2 * z1 * z2^6 * c^9 + 27 * x1 * x2^3 * z1^2 *
       z2^3 * c^9 - 3 * x1 * x2^2 * y1^2 * z2^4 * c^9 + 6 * x1 * x2^2 * y1 *
       z1 * y2 * z2^3 * c^9 - 9 * x1 * x2^2 * z1^2 * y2^2 * z2^2 * c^9 - 18 *
       x1 * x2^2 * z1^2 * z2^4 * b * c^10 - 9 * x1 * x2 * z1^2 * z2^5 * c^9 +
       3 * x1 * y1^2 * z2^6 * c^9 - 12 * x1 * z1^2 * y2^2 * z2^4 * c^9 + 9 *
       x1 * z1^2 * z2^6 * b * c^10 - 27 * x2^4 * z1^3 * z2^2 * c^9 + 45 * x2^2
       * z1^3 * z2^4 * c^9 + 6 * x2 * y1^2 * z1 * z2^5 * c^9 - 9 * x2 * y1 *
       z1^2 * y2 * z2^4 * c^9 + 30 * x2 * z1^3 * y2^2 * z2^3 * c^9 + 9 * x2 *
       z1^3 * z2^5 * b * c^10 - y1^3 * y2 * z2^5 * c^9 + 2 * y1^2 * z1 * y2^2
       * z2^4 * c^9 - 3 * y1^2 * z1 * z2^6 * b * c^10 + 2 * y1 * z1^2 * y2^3 *
       z2^3 * c^9 + 3 * y1 * z1^2 * y2 * z2^5 * b * c^10 + 6 * z1^3 * y2^2 *
       z2^4 * b * c^10 - 9 * z1^3 * z2^6 * b^2 * c^11)
      _ _
      (9 * x1^2 * x2^2 * z1^4 * z2 * c^9 + 9 * x1^2 * x2 * y1^2 * z1^2 * z2^2
       * c^9 - 6 * x1^2 * x2 * y1 * z1^3 * y2 * z2 * c^9 + 3 * x1^2 * x2 *
       z1^4 * y2^2 * c^9 + 18 * x1^2 * x2 * z1^4 * z2^2 * b * c^10 + 36 * x1^2
       * z1^4 * z2^3 * c^9 - 6 * x1 * x2^2 * y1^2 * z1^3 * z2 * c^9 + 3 * x1 *
       x2^2 * y1 * z1^4 * y2 * c^9 - 9 * x1 * x2^2 * z1^5 * z2 * b * c^10 - 72
       * x1 * x2 * z1^5 * z2^2 * c^9 - 3 * x1 * y1^2 * z1^3 * z2^3 * c^9 + 9 *
       x1 * y1 * z1^4 * y2 * z2^2 * c^9 - 6 * x1 * z1^5 * y2^2 * z2 * c^9 - 36
       * x1 * z1^5 * z2^3 * b * c^10 + 9 * x2^2 * z1^6 * z2 * c^9 - 15 * x2 *
       y1^2 * z1^4 * z2^2 * c^9 - 3 * x2 * z1^6 * y2^2 * c^9 + 18 * x2 * z1^6
       * z2^2 * b * c^10 - 2 * y1^3 * z1^3 * y2 * z2^2 * c^9 - 2 * y1^2 * z1^4
       * y2^2 * z2 * c^9 - 6 * y1^2 * z1^4 * z2^3 * b * c^10 + y1 * z1^5 *
       y2^3 * c^9 - 3 * y1 * z1^5 * y2 * z2^2 * b * c^10 + 3 * z1^6 * y2^2 *
       z2 * b * c^10 + 9 * z1^6 * z2^3 * b^2 * c^11)
      _ _ H1 H2).
    ring.
Qed.

(** Points with equal cross products and non-zero Z have the same
    affine coordinates. *)
Lemma affine_of_cross_products (ctx : MontContext) (x3 y3 z3 xr yr zr : Z) :
  prime_field ctx ->
  reduced z3 ctx = true -> reduced zr ctx = true -> z3 <> 0 -> zr <> 0 ->
  mont_mult x3 zr ctx = mont_mult xr z3 ctx ->
  mont_mult y3 zr ctx = mont_mult yr z3 ctx ->
  ec_projective_to_affine x3 y3 z3 ctx = ec_projective_to_affine xr yr zr ctx.
Proof.
  intros Hpf R3 Rr N3 Nr Ex Ey.
  unfold ec_projective_to_affine, mont_is_zero.
  destruct (Z.eqb_spec z3 0) as [F|_]; [contradiction|].
  destruct (Z.eqb_spec zr 0) as [F|_]; [contradiction|].
  cbv zeta. f_equal.
  - apply (cross_product_iff ctx Hpf x3 z3 xr zr); assumption.
  - apply (cross_product_iff ctx Hpf y3 z3 yr zr); assumption.
Qed.

(** X20. [ec_ws_add] computes the chord rule.  For points P and Q on the
    curve of one context, when the allocator serves the call, the sum S
    that [ec_ws_add] stores and the point (Xc : Yc : Zc) of the chord
    rule through P and Q have equal cross products, X_S Zc = Xc Z_S and
    Y_S Zc = Yc Z_S; over a prime field, when neither Z_S nor Zc is
    zero, S has the affine coordinates of the chord rule. *)
Theorem add_is_chord_rule (P Q : EcPoint) (h : heap) :
  let ctx := field_of P in
  ec_ctx Q = ec_ctx P ->
  point_on_curve P = true -> point_on_curve Q = true ->
  never_fails h = true ->
  exists S : EcPoint,
    fst (ec_ws_add (Some P) (Some Q) h) = (OK, Some S) /\
    let '(xc, yc, zc) := chord_rule (x P) (y P) (z P) (x Q) (y Q) (z Q) ctx in
    mont_mult (x S) zc ctx = mont_mult xc (z S) ctx /\
    mont_mult (y S) zc ctx = mont_mult yc (z S) ctx /\
    (prime_field ctx -> z S <> 0 -> zc <> 0 ->
     affine S = ec_projective_to_affine xc yc zc ctx).
Proof.
  intros ctx Hctx HP HQ Hh. subst ctx.
  unfold point_on_curve, curve_b, field_of in *. rewrite Hctx in HQ.
  set (ctx := mont_ctx (target (ec_ctx P))) in *.
  pose proof (full_add_chord _ _ _ _ _ _ _ _ HP HQ) as Hc.
  assert (Rz : prime_field ctx ->
               reduced (snd (ec_full_add (x P) (y P) (z P) (x Q) (y Q) (z Q)
                               (b (target (ec_ctx P))) ctx)) ctx = true)
    by (intros Hpf; apply (mod_reduced ctx Hpf)).
  assert (Rc : prime_field ctx ->
               reduced (snd (chord_rule (x P) (y P) (z P) (x Q) (y Q) (z Q) ctx)) ctx
               = true)
    by (intros Hpf; apply (mod_reduced ctx Hpf)).
  destruct (ec_full_add _ _ _ _ _ _ _ _) as [[x3 y3] z3] eqn:Ea.
  destruct (chord_rule _ _ _ _ _ _ _) as [[xc yc] zc].
  cbn [snd] in Rz, Rc. destruct Hc as [Ex Ey].
  exists {| ec_ctx := ec_ctx P; x := x3; y := y3; z := z3 |}.
  split.
  - apply succeeds_fst; [|exact Hh].
    unfold ec_ws_add, same_ctx. rewrite Hctx, Nat.eqb_refl. cbn [negb].
    served. fold ctx. rewrite Ea. served.
  - cbn [x y z]. split; [exact Ex|]. split; [exact Ey|].
    intros Hpf N3 Nc. unfold affine. cbn [ec_ctx x y z]. fold ctx.
    apply affine_of_cross_products; auto.
Qed.

(** (1, 1) plus (3, 0) on the toy curve. *)
Lemma add_is_chord_rule_witness :
  let P := toy_point 1 1 1 in
  let Q := toy_point 3 0 1 in
  exists S : EcPoint,
    fst (ec_ws_add (Some P) (Some Q) []) = (OK, Some S) /\
    let '(xc, yc, zc) := chord_rule (x P) (y P) (z P) (x Q) (y Q) (z Q) toy_field in
    mont_mult (x S) zc toy_field = mont_mult xc (z S) toy_field /\
    mont_mult (y S) zc toy_field = mont_mult yc (z S) toy_field /\
    (prime_field toy_field -> z S <> 0 -> zc <> 0 ->
     affine S = ec_projective_to_affine xc yc zc toy_field).
Proof.
  intros P Q. apply (add_is_chord_rule P Q []).
  - reflexivity.
  - vm_compute; reflexivity.
  - vm_compute; reflexivity.
  - reflexivity.
Defined.

(** X21. [ec_ws_double] computes the tangent rule.  For a point P on its
    curve, when the allocator serves the call, the double D that
    [ec_ws_double] stores and the point (Xt : Yt : Zt) of the tangent
    rule at P have equal cross products; over a prime field, when
    neither Z_D nor Zt is zero, D has the affine coordinates of the
    tangent rule. *)
Theorem double_is_tangent_rule (P : EcPoint) (h : heap) :
  let ctx := field_of P in
  point_on_curve P = true -> never_fails h = true ->
  exists D : EcPoint,
    fst (ec_ws_double (Some P) h) = (OK, Some D) /\
    let '(xt, yt, zt) := tangent_rule (x P) (y P) (z P) ctx in
    mont_mult (x D) zt ctx = mont_mult xt (z D) ctx /\
    mont_mult (y D) zt ctx = mont_mult yt (z D) ctx /\
    (prime_field ctx -> z D <> 0 -> zt <> 0 ->
     affine D = ec_projective_to_affine xt yt zt ctx).
Proof.
  intros ctx HP Hh. subst ctx.
  unfold point_on_curve, curve_b, field_of in *.
  set (ctx := mont_ctx (target (ec_ctx P))) in *.
  pose proof (full_double_tangent _ _ _ _ _ HP) as Hc.
  assert (Rz : prime_field ctx ->
               reduced (snd (ec_full_double (x P) (y P) (z P)
                               (b (target (ec_ctx P))) ctx)) ctx = true)
    by (intros Hpf; apply (mod_reduced ctx Hpf)).
  assert (Rc : prime_field ctx ->
               reduced (snd (tangent_rule (x P) (y P) (z P) ctx)) ctx = true)
    by (intros Hpf; apply (mod_reduced ctx Hpf)).
  destruct (ec_full_double _ _ _ _ _) as [[x3 y3] z3] eqn:Ea.
  destruct (tangent_rule _ _ _ _) as [[xt yt] zt].
  cbn [snd] in Rz, Rc. destruct Hc as [Ex Ey].
  exists {| ec_ctx := ec_ctx P; x := x3; y := y3; z := z3 |}.
  split.
  - apply succeeds_fst; [|exact Hh].
    unfold ec_ws_double. served. fold ctx. rewrite Ea. served.
  - cbn [x y z]. split; [exact Ex|]. split; [exact Ey|].
    intros Hpf N3 Nc. unfold affine. cbn [ec_ctx x y z]. fold ctx.
    apply affine_of_cross_products; auto.
Qed.

(** Twice (1, 1) on the toy curve. *)
Lemma double_is_tangent_rule_witness :
  let P := toy_point 1 1 1 in
  exists D : EcPoint,
    fst (ec_ws_double (Some P) []) = (OK, Some D) /\
    let '(xt, yt, zt) := tangent_rule (x P) (y P) (z P) toy_field in
    mont_mult (x D) zt toy_field = mont_mult xt (z D) toy_field /\
    mont_mult (y D) zt toy_field = mont_mult yt (z D) toy_field /\
    (prime_field toy_field -> z D <> 0 -> zt <> 0 ->
     affine D = ec_projective_to_affine xt yt zt toy_field).
Proof.
  intros P. apply (double_is_tangent_rule P []).
  - vm_compute; reflexivity.
  - reflexivity.
Defined.

(** ** Contexts made by [ec_ws_new_context] *)

Lemma Z_to_words_range (n : nat) (v : Z) :
  Forall (fun w => 0 <= w < 2 ^ 64) (Z_to_words n v).
Proof.
  revert v. induction n as [|n IH]; intros v; cbn [Z_to_words]; constructor.
  - apply Z.mod_pos_bound. lia.
  - apply IH.
Qed.

Lemma bytes_to_words_value (input : list byte) (len : nat) :
  let w := bytes_to_words ((len + 7) / 8) input len in
  length w = ((len + 7) / 8)%nat /\
  Forall (fun w => 0 <= w < 2 ^ 64) w /\
  words_to_Z w = bytes_to_Z (firstn len input).
Proof.
  unfold bytes_to_words. cbv zeta.
  split; [apply length_Z_to_words|]. split; [apply Z_to_words_range|].
  rewrite words_to_Z_to_words. apply Z.mod_small.
  pose proof (bytes_to_Z_range (firstn len input)) as Hb. rewrite pow256 in Hb.
  split; [lia|]. eapply Z.lt_le_trans; [apply Hb|].
  apply Z.pow_le_mono_r; [lia|].
  pose proof (length_firstn len input) as L.
  pose proof (Nat.div_mod_eq (len + 7) 8) as D.
  pose proof (Nat.mod_upper_bound (len + 7) 8) as U.
  lia.
Qed.

(** The word count of the order, which the source computes on 32
    bits, is (len + 7) / 8 as long as len + 7 does not wrap. *)
Lemma order_words_small (len : nat) :
  Z.of_nat len + 7 < 2 ^ 32 ->
  Z.to_nat ((Z.of_nat len + 7) mod 2 ^ 32 / 8) = ((len + 7) / 8)%nat.
Proof.
  intros H. rewrite Z.mod_small by lia.
  replace (Z.of_nat len + 7) with (Z.of_nat (len + 7)) by lia.
  change 8 with (Z.of_nat 8). rewrite <- Nat2Z.inj_div. apply Nat2Z.id.
Qed.

(** X22. The context [ec_ws_new_context] builds.  For a length len with
    len + 7 < 2^32 (the word count is computed on 32 bits), whenever the
    call returns 0 the context it leaves holds the curve parameter b in
    Montgomery form and the group order as (len + 7) / 8 words of 64
    bits whose value is the number given in big-endian bytes, as
    [blind_scalar_factor] expects it. *)
Theorem new_context_order (tbl : P256Table) (mb bb ob : list byte)
  (len : nat) (seed : Z) (h : heap) (e : EcContext) :
  Z.of_nat len + 7 < 2 ^ 32 ->
  fst (ec_ws_new_context tbl true (Some mb) (Some bb) (Some ob) len seed h)
    = Returns (OK, Live e) ->
  b e = mont_set (bytes_to_Z (firstn len bb)) (mont_ctx e) /\
  length (order e) = ((len + 7) / 8)%nat /\
  Forall (fun w => 0 <= w < 2 ^ 64) (order e) /\
  words_to_Z (order e) = bytes_to_Z (firstn len ob).
Proof.
  intros Hlen. unfold ec_ws_new_context. rewrite (order_words_small len Hlen).
  destruct (len =? 0)%nat; [discriminate|].
  unfold bind at 1. destruct (calloc h) as [[|] h1]; cbn [negb fst]; [|discriminate].
  unfold bind at 1. destruct (mont_context_init mb len h1) as [[r m] h2].
  destruct m as [ctx|]; [|discriminate].
  destruct (is_err r); [discriminate|].
  unfold bind at 1. unfold mont_from_bytes. unfold bind at 1.
  destruct (calloc h2) as [[|] h3]; unfold ret at 1; cbn [is_err retcode_eqb negb];
    [|discriminate].
  unfold bind at 1. destruct (calloc h3) as [[|] h4]; cbn [negb]; [|discriminate].
  pose proof (bytes_to_words_value ob len) as Hw. cbv zeta in Hw.
  assert (Done : forall g h',
             fst (ret (Returns (OK, Live {| mont_ctx := ctx;
                                            b := mont_set (bytes_to_Z (firstn len bb)) ctx;
                                            order := bytes_to_words ((len + 7) / 8) ob len;
                                            prot_g := g |})) h')
             = Returns (OK, Live e) ->
             b e = mont_set (bytes_to_Z (firstn len bb)) (mont_ctx e) /\
             length (order e) = ((len + 7) / 8)%nat /\
             Forall (fun w => 0 <= w < 2 ^ 64) (order e) /\
             words_to_Z (order e) = bytes_to_Z (firstn len ob)).
  { intros g h' E. inversion E. cbn [b order mont_ctx]. split; [reflexivity | exact Hw]. }
  destruct (ModulusType_eqb _ _).
  - unfold bind at 1. destruct (ec_scramble_g_p256 tbl ctx seed h4) as [[g|] h5];
      [apply Done | discriminate].
  - apply Done.
Qed.

(** The toy curve, from its bytes. *)
Lemma new_context_order_witness :
  b (target toy_curve) = mont_set (bytes_to_Z (firstn 1 [x03])) toy_field /\
  length (order (target toy_curve)) = ((1 + 7) / 8)%nat /\
  Forall (fun w => 0 <= w < 2 ^ 64) (order (target toy_curve)) /\
  words_to_Z (order (target toy_curve)) = bytes_to_Z (firstn 1 [x06]).
Proof.
  apply (new_context_order (mkP256Table 5 52 32 []) [x07] [x03] [x06] 1 0 []
           (target toy_curve)).
  - vm_compute; reflexivity.
  - vm_compute; reflexivity.
Defined.

Lemma forallb_firstn {A : Type} (f : A -> bool) (n : nat) (l : list A) :
  forallb f l = true -> forallb f (firstn n l) = true.
Proof.
  revert n. induction l as [|a l IH]; intros [|n] H; cbn in *; auto.
  apply andb_true_iff in H. destruct H as [Ha Hl].
  rewrite Ha. apply IH. exact Hl.
Qed.

(** The scattered generator tables hold entries of the static table. *)
Lemma scramble_tables_entries (tbl : P256Table) (ctx : MontContext) (seed : Z)
  (f : Z * Z -> bool) (tables : list (list (Z * Z))) :
  forallb (forallb f) tables = true ->
  forall h : heap,
    forallb (forallb f) (snd (fst (scramble_tables tbl tables ctx seed h))) = true.
Proof.
  induction tables as [|t tables IH]; intros Hf h; [reflexivity|].
  cbn [forallb] in Hf. apply andb_true_iff in Hf. destruct Hf as [Ht Hr].
  cbn [scramble_tables]. unfold bind at 1, scatter, bind, ret.
  destruct (calloc h) as [[|] h1]; cbn [is_err retcode_eqb negb]; [|reflexivity].
  specialize (IH Hr h1).
  destruct (scramble_tables tbl tables ctx seed h1) as [[r rest] h2].
  cbn [fst snd forallb] in *. rewrite IH, andb_true_r.
  apply forallb_firstn. exact Ht.
Qed.

(** X23. The generator tables of a new context.  Whenever
    [ec_ws_new_context] returns 0, every entry of the scattered
    generator tables of the context it leaves is an entry of the static
    table: when the entries of the static table are (0, 0) or points of
    the curve, so are the ones [ec_ws_scalar] gathers on the generator
    fast path. *)
Theorem new_context_tables (tbl : P256Table) (mb bb ob : list byte)
  (len : nat) (seed : Z) (h : heap) (e : EcContext) :
  fst (ec_ws_new_context tbl true (Some mb) (Some bb) (Some ob) len seed h)
    = Returns (OK, Live e) ->
  forallb (forallb (entry_on_curve (b e) (mont_ctx e))) (p256_tables tbl) = true ->
  tables_on_curve e = true.
Proof.
  unfold ec_ws_new_context.
  destruct (len =? 0)%nat; [discriminate|].
  unfold bind at 1. destruct (calloc h) as [[|] h1]; cbn [negb fst]; [|discriminate].
  unfold bind at 1. destruct (mont_context_init mb len h1) as [[r m] h2].
  destruct m as [ctx|]; [|discriminate].
  destruct (is_err r); [discriminate|].
  unfold bind at 1. destruct (mont_from_bytes bb len ctx h2) as [[r1 bm] h3].
  destruct (is_err r1); [discriminate|].
  unfold bind at 1. destruct (calloc h3) as [[|] h4]; cbn [negb]; [|discriminate].
  destruct (ModulusType_eqb _ _).
  - unfold bind at 1, ec_scramble_g_p256, bind, ret.
    destruct (calloc h4) as [[|] h5]; cbn [negb]; [|discriminate].
    destruct (calloc h5) as [[|] h6]; cbn [negb]; [|discriminate].
    pose proof (fun f Hf => scramble_tables_entries tbl ctx seed f
                  (firstn (p256_n_tables tbl) (p256_tables tbl)) Hf h6) as Hs.
    destruct (scramble_tables tbl _ ctx seed h6) as [[r2 g] h7].
    cbn [fst snd] in Hs.
    destruct (is_err r2); [discriminate|].
    intros E Ht. inversion E. subst e.
    unfold tables_on_curve. cbn [prot_g b mont_ctx] in *.
    apply Hs. apply forallb_firstn. exact Ht.
  - intros E _. inversion E. reflexivity.
Qed.

(** The generator of P-256, as an entry of the static table. *)
Lemma p256_G_entry :
  entry_on_curve (mont_set p256_b p256_field) p256_field
    (words_to_Z mont_Gx, words_to_Z mont_Gy) = true.
Proof.
  unfold entry_on_curve, on_curve, mont_mult, mulc.
  rewrite p256_Rinv. vm_compute. reflexivity.
Qed.

(** The context of P-256, built from the bytes of p, b and n, with a
    static table of one subtable that holds (0, 0) and the generator. *)
Lemma new_context_tables_witness :
  let G := (words_to_Z mont_Gx, words_to_Z mont_Gy) in
  tables_on_curve (target (p256_curve [[(0, 0); G]])) = true.
Proof.
  intros G.
  apply (new_context_tables (mkP256Table 5 1 32 [[(0, 0); G]])
           (Z_to_bytes 32 p256_modulus) (Z_to_bytes 32 p256_b) (Z_to_bytes 32 p256_n)
           32 0 [] (target (p256_curve [[(0, 0); G]]))).
  - vm_compute; reflexivity.
  - cbn [p256_tables p256_curve target b mont_ctx forallb].
    subst G. rewrite p256_G_entry. reflexivity.
Defined.
